(** * Impact signals: a shallow embedding of the dependency-tracking engine

    Two generations of the engine live in the repository:

    - [impact-react/src/signal.ts]  (module [ImpactReact] below): the
      write-aware engine with asynchronous values, effects and debug hooks;
    - [src/Signal.ts]               (module [Legacy] below): the earlier
      engine with [onChange] listeners and the [observe] wrapper.

    JavaScript objects live in heaps (lists indexed by object identity),
    closures are defunctionalised, user callbacks are trees of engine calls,
    and re-entrancy is bounded by fuel. *)

From Stdlib Require Import ZArith Lia.
From stdpp Require Import base option list strings.

Open Scope Z_scope.
Open Scope nat_scope.

(** ** JavaScript values *)

Module JS.

(** Values as the engine sees them.  A promise carries its identity and the
    [status] property that [Object.assign] gave it when it was created (the
    engine never reassigns that property). *)
Inductive value : Type :=
| VUndefined
| VNull
| VBool (b : bool)
| VNum (n : Z)
| VNaN
| VStr (s : string)
| VObj (ref : nat)
| VFun (ref : nat)
| VPromise (ref : nat) (st : status)
with status : Type :=
| NoStatus
| Pending
| Fulfilled (v : value)
| Rejected (reason : value).

(** [a === b] *)
Definition strict_eq (a b : value) : bool :=
  match a, b with
  | VUndefined, VUndefined => true
  | VNull, VNull => true
  | VBool x, VBool y => bool_decide (x = y)
  | VNum x, VNum y => (x =? y)%Z
  | VStr x, VStr y => bool_decide (x = y)
  | VObj x, VObj y => Nat.eqb x y
  | VFun x, VFun y => Nat.eqb x y
  | VPromise x _, VPromise y _ => Nat.eqb x y
  | _, _ => false
  end.

(** [v instanceof Promise] *)
Definition instanceof_Promise (v : value) : bool :=
  match v with VPromise _ _ => true | _ => false end.

(** [typeof v === "object" && v !== null] *)
Definition is_object (v : value) : bool :=
  match v with VObj _ | VPromise _ _ => true | _ => false end.

(** [typeof v === "function"] *)
Definition is_function (v : value) : bool :=
  match v with VFun _ => true | _ => false end.

(** [v instanceof Promise && v.status === "pending"] *)
Definition is_pending (v : value) : bool :=
  match v with VPromise _ Pending => true | _ => false end.

(** The settled state of a promise. *)
Inductive settlement : Type :=
| Fulfill (v : value)
| Reject (reason : value).

(** ** Computations: state, exceptions, fuel *)

Inductive Res (A : Type) : Type :=
| Ok (a : A)
| Thrown (e : value)
| OutOfFuel.
Arguments Ok {A} a.
Arguments Thrown {A} e.
Arguments OutOfFuel {A}.

Definition M (S A : Type) : Type := S -> Res A * S.

Section Monad.
Context {S : Type}.

Definition ret {A} (a : A) : M S A := fun s => (Ok a, s).

Definition bind {A B} (m : M S A) (k : A -> M S B) : M S B :=
  fun s =>
    match m s with
    | (Ok a, s') => k a s'
    | (Thrown e, s') => (Thrown e, s')
    | (OutOfFuel, s') => (OutOfFuel, s')
    end.

(** [throw e] *)
Definition throw {A} (e : value) : M S A := fun s => (Thrown e, s).

Definition out_of_fuel {A} : M S A := fun s => (OutOfFuel, s).

Definition gets {A} (f : S -> A) : M S A := fun s => (Ok (f s), s).

Definition modify (f : S -> S) : M S unit := fun s => (Ok tt, f s).

(** [try { m } catch (e) { h e }] *)
Definition try_catch {A} (m : M S A) (h : value -> M S A) : M S A :=
  fun s =>
    match m s with
    | (Thrown e, s') => h e s'
    | r => r
    end.

(** What a promise job does with its handler: the outcome is reified
    instead of propagated. *)
Definition attempt {A} (m : M S A) : M S (A + value) :=
  fun s =>
    match m s with
    | (Ok a, s') => (Ok (inl a), s')
    | (Thrown e, s') => (Ok (inr e), s')
    | (OutOfFuel, s') => (OutOfFuel, s')
    end.

Definition when (b : bool) (m : M S unit) : M S unit :=
  if b then m else ret tt.
End Monad.

Notation "x <- m ;; k" := (bind m (fun x => k))
  (at level 100, m at next level, right associativity).
Notation "m ;; k" := (bind m (fun _ => k))
  (at level 100, right associativity).

(** [array.forEach(f)] over a fixed array.  The result lists the elements
    [f] was called on (a ghost result: JavaScript returns [undefined]). *)
Fixpoint Array_forEach {S A} (f : A -> M S unit) (l : list A) : M S (list A) :=
  match l with
  | [] => ret []
  | x :: l' => f x ;; vs <- Array_forEach f l' ;; ret (x :: vs)
  end.

(** ** Insertion-ordered sets *)

(** A JavaScript [Set] keeps its entries in insertion order.  Deleting an
    entry leaves a hole ([None]) so that the positions of a running
    iteration stay valid; [Array.from] and a fresh [forEach] skip holes. *)
Section SetData.
Context {A : Type} `{EqDecision A}.

Definition SetData : Type := list (option A).

Definition Set_has (x : A) (d : SetData) : bool :=
  bool_decide (Some x ∈ d).

Definition Set_add (x : A) (d : SetData) : SetData :=
  if Set_has x d then d else d ++ [Some x].

Definition Set_delete (x : A) (d : SetData) : SetData :=
  (fun e => if decide (e = Some x) then None else e) <$> d.

(** [Array.from(set)] *)
Definition Array_from (d : SetData) : list A := omap id d.

Definition Set_size (d : SetData) : nat := length (Array_from d).
End SetData.
Arguments SetData A : clear implicits.

End JS.

(** ** impact-react/src/signal.ts *)

Module ImpactReact.
Import JS.

(** *** Heap objects *)

(** [ObserverContextType] *)
Inductive ObserverContextType : Type := Component | Derived | Effect.

(** The three closures the engine passes as [_onUpdate]:
    [derived]'s [() => { isDirty = true; signal.notify() }],
    [effect]'s [() => { currentSubscriptionDisposer();
    currentSubscriptionDisposer = updater() }] and the [setState] of
    [observer]. *)
Inductive OnUpdate : Type :=
| OnDerived (d : nat)
| OnEffect (e : nat)
| OnComponent (host : nat).

(** [class ObserverContext] (the instance part). *)
Record ObserverContext : Type := mkContext {
  type : ObserverContextType;
  _getters : SetData nat;
  _setters : SetData nat;
  _onUpdate : OnUpdate;
  stack_captured : bool
}.

(** The closure [() => value] handed to [new SignalTracker]. *)
Inductive Owner : Type := OfSignal (sg : nat) | OfDerived (d : nat).

(** [class SignalTracker] *)
Record SignalTracker : Type := mkTracker {
  getValue : Owner;
  tracker_contexts : SetData nat
}.

(** User code: what a [derived] or [effect] callback does with the engine. *)
Inductive prog : Type :=
| Return (v : value)
| Throw (e : value)
| GetSignal (sg : nat) (k : value -> prog)
| SetSignal (sg : nat) (v : value) (k : prog)
| GetDerived (d : nat) (k : value -> prog)
| Use (p : value) (k : value -> prog).

(** The closure variables of one [signal(initialValue)]. *)
Record SignalCell : Type := mkSignal {
  sig_value : value;
  currentAbortController : option nat;
  sig_tracker : nat
}.

(** The closure variables of one [derived(cb)]. *)
Record DerivedCell : Type := mkDerived {
  der_cb : prog;
  der_value : value;
  disposer : option nat;
  isDirty : bool;
  der_tracker : nat
}.

(** The closure variables of one [effect(cb)]. *)
Record EffectCell : Type := mkEffect {
  eff_cb : prog;
  currentSubscriptionDisposer : option nat
}.

(** What waits for a promise to settle: the handlers that [createPromise]
    chains on it (for which signal, under which [abortController], and the
    promise that [.then(..).catch(..)] returns), or a promise that was
    resolved with it and adopts its state. *)
Inductive Reaction : Type :=
| Handlers (sg : nat) (controller : nat) (wrapper : nat)
| Adopt (p : nat).

Inductive PromiseState : Type :=
| Unsettled (reactions : list Reaction)
| Settled (o : settlement).

(** Jobs of the microtask queue: the reaction job of [.then(..)], the
    reaction job of the chained [.catch(..)], the job that makes [p] follow
    the promise [q] it was resolved with, and the check that the setter
    defers with [Promise.resolve().then(..)]. *)
Inductive Task : Type :=
| TThen (r : Reaction) (o : settlement)
| TCatch (sg controller wrapper : nat) (o : settlement)
| TAdopt (p q : nat)
| TCheck (sg : nat).

(** [signalDebugHooks]: which hooks are installed. *)
Record DebugHooks : Type := mkHooks {
  onGetValue : bool;
  onSetValue : bool;
  onEffectRun : bool
}.

(** What an installed hook is called with. *)
Inductive HookCall : Type :=
| HookGetValue (context : nat) (signal : nat)
| HookSetValue (signal : nat) (v : value) (is_derived : bool)
| HookEffectRun (e : nat).

(** Ghost record of the engine's own calls. *)
Inductive Event : Type :=
| EvNotify (tracker : nat)
| EvUpdate (context : nat) (version : nat)
| EvCompute (d : nat)
| EvEffect (e : nat)
| EvSetState (host : nat) (version : nat).

(** *** The state of the module *)

Record State : Type := mkState {
  stack : list nat;
  version : nat;
  contexts : list ObserverContext;
  trackers : list SignalTracker;
  signals : list SignalCell;
  controllers : list bool;
  deriveds : list DerivedCell;
  effects : list EffectCell;
  promises : list PromiseState;
  microtasks : list Task;
  hooks : DebugHooks;
  development : bool;
  activeStoreContainer : bool;
  console : list value;
  hook_calls : list HookCall;
  cleanups : list nat;
  trace : list Event
}.

Definition upd_stack f s :=
  mkState (f (stack s)) (version s) (contexts s) (trackers s) (signals s)
    (controllers s) (deriveds s) (effects s) (promises s) (microtasks s)
    (hooks s) (development s) (activeStoreContainer s) (console s)
    (hook_calls s) (cleanups s) (trace s).
Definition upd_version f s :=
  mkState (stack s) (f (version s)) (contexts s) (trackers s) (signals s)
    (controllers s) (deriveds s) (effects s) (promises s) (microtasks s)
    (hooks s) (development s) (activeStoreContainer s) (console s)
    (hook_calls s) (cleanups s) (trace s).
Definition upd_contexts f s :=
  mkState (stack s) (version s) (f (contexts s)) (trackers s) (signals s)
    (controllers s) (deriveds s) (effects s) (promises s) (microtasks s)
    (hooks s) (development s) (activeStoreContainer s) (console s)
    (hook_calls s) (cleanups s) (trace s).
Definition upd_trackers f s :=
  mkState (stack s) (version s) (contexts s) (f (trackers s)) (signals s)
    (controllers s) (deriveds s) (effects s) (promises s) (microtasks s)
    (hooks s) (development s) (activeStoreContainer s) (console s)
    (hook_calls s) (cleanups s) (trace s).
Definition upd_signals f s :=
  mkState (stack s) (version s) (contexts s) (trackers s) (f (signals s))
    (controllers s) (deriveds s) (effects s) (promises s) (microtasks s)
    (hooks s) (development s) (activeStoreContainer s) (console s)
    (hook_calls s) (cleanups s) (trace s).
Definition upd_controllers f s :=
  mkState (stack s) (version s) (contexts s) (trackers s) (signals s)
    (f (controllers s)) (deriveds s) (effects s) (promises s) (microtasks s)
    (hooks s) (development s) (activeStoreContainer s) (console s)
    (hook_calls s) (cleanups s) (trace s).
Definition upd_deriveds f s :=
  mkState (stack s) (version s) (contexts s) (trackers s) (signals s)
    (controllers s) (f (deriveds s)) (effects s) (promises s) (microtasks s)
    (hooks s) (development s) (activeStoreContainer s) (console s)
    (hook_calls s) (cleanups s) (trace s).
Definition upd_effects f s :=
  mkState (stack s) (version s) (contexts s) (trackers s) (signals s)
    (controllers s) (deriveds s) (f (effects s)) (promises s) (microtasks s)
    (hooks s) (development s) (activeStoreContainer s) (console s)
    (hook_calls s) (cleanups s) (trace s).
Definition upd_promises f s :=
  mkState (stack s) (version s) (contexts s) (trackers s) (signals s)
    (controllers s) (deriveds s) (effects s) (f (promises s)) (microtasks s)
    (hooks s) (development s) (activeStoreContainer s) (console s)
    (hook_calls s) (cleanups s) (trace s).
Definition upd_microtasks f s :=
  mkState (stack s) (version s) (contexts s) (trackers s) (signals s)
    (controllers s) (deriveds s) (effects s) (promises s) (f (microtasks s))
    (hooks s) (development s) (activeStoreContainer s) (console s)
    (hook_calls s) (cleanups s) (trace s).
Definition upd_hooks f s :=
  mkState (stack s) (version s) (contexts s) (trackers s) (signals s)
    (controllers s) (deriveds s) (effects s) (promises s) (microtasks s)
    (f (hooks s)) (development s) (activeStoreContainer s) (console s)
    (hook_calls s) (cleanups s) (trace s).
Definition upd_console f s :=
  mkState (stack s) (version s) (contexts s) (trackers s) (signals s)
    (controllers s) (deriveds s) (effects s) (promises s) (microtasks s)
    (hooks s) (development s) (activeStoreContainer s) (f (console s))
    (hook_calls s) (cleanups s) (trace s).
Definition upd_hook_calls f s :=
  mkState (stack s) (version s) (contexts s) (trackers s) (signals s)
    (controllers s) (deriveds s) (effects s) (promises s) (microtasks s)
    (hooks s) (development s) (activeStoreContainer s) (console s)
    (f (hook_calls s)) (cleanups s) (trace s).
Definition upd_cleanups f s :=
  mkState (stack s) (version s) (contexts s) (trackers s) (signals s)
    (controllers s) (deriveds s) (effects s) (promises s) (microtasks s)
    (hooks s) (development s) (activeStoreContainer s) (console s)
    (hook_calls s) (f (cleanups s)) (trace s).
Definition upd_trace f s :=
  mkState (stack s) (version s) (contexts s) (trackers s) (signals s)
    (controllers s) (deriveds s) (effects s) (promises s) (microtasks s)
    (hooks s) (development s) (activeStoreContainer s) (console s)
    (hook_calls s) (cleanups s) (f (trace s)).

(** A module freshly loaded, under the given environment. *)
Definition initial (h : DebugHooks) (dev store : bool) : State :=
  mkState [] 0 [] [] [] [] [] [] [] [] h dev store [] [] [] [].

Abbreviation Eng := (M State).

(** Dereferencing an object of heap [h]; every reference the engine holds
    was allocated, a dangling one is a [TypeError]. *)
Definition deref {A} (h : State -> list A) (i : nat) : Eng A :=
  fun s => match h s !! i with
           | Some x => (Ok x, s)
           | None => (Thrown (VStr "TypeError"), s)
           end.

Definition emit (ev : Event) : Eng unit :=
  modify (upd_trace (fun t => t ++ [ev])).

(** *** class ObserverContext *)

(** [ObserverContext.current] *)
Definition current : Eng (option nat) := gets (fun s => last (stack s)).

(** [new ObserverContext(type, onUpdate)] *)
Definition new_ObserverContext (ty : ObserverContextType) (u : OnUpdate) : Eng nat :=
  c <- gets (fun s => length (contexts s)) ;;
  cap <- gets (fun s => onGetValue (hooks s)) ;;
  modify (upd_contexts (fun h => h ++ [mkContext ty [] [] u cap])) ;;
  modify (upd_stack (fun st => st ++ [c])) ;;
  ret c.

(** [registerGetter(signal)] on the object itself. *)
Definition registerGetter (signal : nat) (this : ObserverContext) : ObserverContext :=
  if Set_has signal (_setters this) then this
  else mkContext (type this) (Set_add signal (_getters this)) (_setters this)
         (_onUpdate this) (stack_captured this).

(** [registerSetter(signal)] on the object itself. *)
Definition registerSetter (signal : nat) (this : ObserverContext) : ObserverContext :=
  let getters :=
    if Set_has signal (_getters this) then Set_delete signal (_getters this)
    else _getters this in
  mkContext (type this) getters (Set_add signal (_setters this))
    (_onUpdate this) (stack_captured this).

(** A method call on the context stored at [c]. *)
Definition on_context (c : nat) (f : ObserverContext -> ObserverContext) : Eng unit :=
  modify (upd_contexts (alter f c)).

(** *** class SignalTracker *)

Definition addContext (context : nat) (this : SignalTracker) : SignalTracker :=
  mkTracker (getValue this) (Set_add context (tracker_contexts this)).

Definition removeContext (context : nat) (this : SignalTracker) : SignalTracker :=
  mkTracker (getValue this) (Set_delete context (tracker_contexts this)).

Definition on_tracker (t : nat) (f : SignalTracker -> SignalTracker) : Eng unit :=
  modify (upd_trackers (alter f t)).

(** [new SignalTracker(() => value)] *)
Definition new_SignalTracker (o : Owner) : Eng nat :=
  t <- gets (fun s => length (trackers s)) ;;
  modify (upd_trackers (fun h => h ++ [mkTracker o []])) ;;
  ret t.

(** [subscribe()]: every getter gets this context; the closure it returns
    is represented by the context it closes over. *)
Definition subscribe (c : nat) : Eng nat :=
  this <- deref contexts c ;;
  Array_forEach (fun signal => on_tracker signal (addContext c))
    (Array_from (_getters this)) ;;
  ret c.

(** Calling the closure returned by [subscribe()]. *)
Definition unsubscribe (c : nat) : Eng unit :=
  this <- deref contexts c ;;
  Array_forEach (fun signal => on_tracker signal (removeContext c))
    (Array_from (_getters this)) ;;
  ret tt.

(** [context[Symbol.dispose]()] *)
Definition dispose (c : nat) : Eng nat :=
  modify (upd_stack (fun st => List.removelast st)) ;;
  subscribe c.

(** *** The engine *)

(** Calls that re-enter the engine from a closure or run user code; each
    costs one unit of fuel. *)
Inductive Call : Type :=
| CallNotify (t : nat)
| CallUpdater (e : nat)
| CallUser (p : prog).

Definition set_isDirty (b : bool) (d : DerivedCell) : DerivedCell :=
  mkDerived (der_cb d) (der_value d) (disposer d) b (der_tracker d).
Definition set_der_value (v : value) (d : DerivedCell) : DerivedCell :=
  mkDerived (der_cb d) v (disposer d) (isDirty d) (der_tracker d).
Definition set_disposer (c : nat) (d : DerivedCell) : DerivedCell :=
  mkDerived (der_cb d) (der_value d) (Some c) (isDirty d) (der_tracker d).
Definition set_sig_value (v : value) (c : SignalCell) : SignalCell :=
  mkSignal v (currentAbortController c) (sig_tracker c).
Definition set_currentAbortController (a : nat) (c : SignalCell) : SignalCell :=
  mkSignal (sig_value c) (Some a) (sig_tracker c).
Definition set_currentSubscriptionDisposer (c : nat) (e : EffectCell) : EffectCell :=
  mkEffect (eff_cb e) (Some c).

(** Calling an optional debug hook. *)
Definition call_hook (installed : DebugHooks -> bool) (c : HookCall) : Eng unit :=
  i <- gets (fun s => installed (hooks s)) ;;
  when i (modify (upd_hook_calls (fun l => l ++ [c]))).

(** [isResolvingContextFromComponent(context)].  [getActiveStoreContainer]
    belongs to [./store]; its answer is a component of the state. *)
Definition isResolvingContextFromComponent (context : ObserverContext) : Eng bool :=
  store <- gets activeStoreContainer ;;
  ret (match type context with Component => store | _ => false end).

(** The head of both [get value()]: the active context, if any and not
    resolving from a component, registers the tracker. *)
Definition track (signal : nat) : Eng unit :=
  cur <- current ;;
  match cur with
  | Some c =>
      this <- deref contexts c ;;
      resolving <- isResolvingContextFromComponent this ;;
      if resolving then ret tt
      else
        on_context c (registerGetter signal) ;;
        call_hook onGetValue (HookGetValue c signal)
  | None => ret tt
  end.

(** [use(promise)] *)
Definition use (promise : value) : Res value :=
  match promise with
  | VPromise _ Pending => Thrown promise
  | VPromise _ (Rejected reason) => Thrown reason
  | VPromise _ (Fulfilled v) => Ok v
  | VUndefined | VNull => Thrown (VStr "TypeError")
  | _ => Ok VUndefined
  end.

Definition enqueue (t : Task) : Eng unit :=
  modify (upd_microtasks (fun q => q ++ [t])).

(** [new Promise(..)], [Promise.resolve(v)], [Promise.reject(r)] *)
Definition new_promise (st : PromiseState) : Eng nat :=
  p <- gets (fun s => length (promises s)) ;;
  modify (upd_promises (fun h => h ++ [st])) ;;
  ret p.

(** Registering a reaction on promise [p]: queued at once when [p] is
    settled. *)
Definition react (p : nat) (r : Reaction) : Eng unit :=
  st <- deref promises p ;;
  match st with
  | Settled o => enqueue (TThen r o)
  | Unsettled rs => modify (upd_promises (<[p := Unsettled (rs ++ [r])]>))
  end.

(** Promise [p] settles: its reactions are queued in order. *)
Definition settle (p : nat) (o : settlement) : Eng unit :=
  st <- deref promises p ;;
  match st with
  | Unsettled rs =>
      modify (upd_promises (<[p := Settled o]>)) ;;
      modify (upd_microtasks (fun q => q ++ ((fun r => TThen r o) <$> rs)))
  | Settled _ => ret tt
  end.

(** The resolve function of promise [p] called with [v]. *)
Definition resolve (p : nat) (v : value) : Eng unit :=
  match v with
  | VPromise q _ => enqueue (TAdopt p q)
  | _ => settle p (Fulfill v)
  end.

Section Engine.
Variable rec : Call -> Eng value.

(** [ObserverContext.notify()] *)
Definition ObserverContext_notify (c : nat) : Eng unit :=
  this <- deref contexts c ;;
  v <- gets version ;;
  modify (upd_version S) ;;
  emit (EvUpdate c v) ;;
  match _onUpdate this with
  | OnDerived d =>
      cell <- deref deriveds d ;;
      modify (upd_deriveds (alter (set_isDirty true) d)) ;;
      rec (CallNotify (der_tracker cell)) ;;
      ret tt
  | OnEffect e =>
      cell <- deref effects e ;;
      match currentSubscriptionDisposer cell with
      | Some old => unsubscribe old
      | None => throw (VStr "TypeError")
      end ;;
      rec (CallUpdater e) ;;
      ret tt
  | OnComponent host => emit (EvSetState host v)
  end.

(** [SignalTracker.notify()]; the result lists the contexts visited. *)
Definition SignalTracker_notify (t : nat) : Eng (list nat) :=
  this <- deref trackers t ;;
  emit (EvNotify t) ;;
  let contexts := Array_from (tracker_contexts this) in
  Array_forEach ObserverContext_notify contexts.

(** [createPromise(promise)] of signal [sg]. *)
Definition createPromise (sg : nat) (promise : nat) : Eng value :=
  cell <- deref signals sg ;;
  match currentAbortController cell with
  | Some c => modify (upd_controllers (<[c := true]>))
  | None => ret tt
  end ;;
  abortController <- gets (fun s => length (controllers s)) ;;
  modify (upd_controllers (fun h => h ++ [false])) ;;
  modify (upd_signals (alter (set_currentAbortController abortController) sg)) ;;
  wrapper <- new_promise (Unsettled []) ;;
  react promise (Handlers sg abortController wrapper) ;;
  ret (VPromise wrapper Pending).

(** The handler given to [.then] in [createPromise]. *)
Definition on_fulfilled (sg abortController : nat) (resolvedValue : value) : Eng value :=
  aborted <- deref controllers abortController ;;
  if aborted : bool then ret VUndefined
  else
    p <- new_promise (Settled (Fulfill resolvedValue)) ;;
    modify (upd_signals (alter (set_sig_value (VPromise p (Fulfilled resolvedValue))) sg)) ;;
    cell <- deref signals sg ;;
    SignalTracker_notify (sig_tracker cell) ;;
    ret resolvedValue.

(** The handler given to [.catch] in [createPromise]. *)
Definition on_rejected (sg abortController : nat) (rejectedReason : value) : Eng value :=
  aborted <- deref controllers abortController ;;
  if aborted : bool then ret VUndefined
  else
    p <- new_promise (Settled (Reject rejectedReason)) ;;
    let rejectedPromise := VPromise p (Rejected rejectedReason) in
    modify (upd_signals (alter (set_sig_value rejectedPromise) sg)) ;;
    cell <- deref signals sg ;;
    SignalTracker_notify (sig_tracker cell) ;;
    ret rejectedPromise.

(** [signal(initialValue)]; the cell is allocated before
    [createPromise] runs so that the controller has a place to go. *)
Definition signal (initialValue : value) : Eng nat :=
  sg <- gets (fun s => length (signals s)) ;;
  t <- new_SignalTracker (OfSignal sg) ;;
  modify (upd_signals (fun h => h ++ [mkSignal initialValue None t])) ;;
  match initialValue with
  | VPromise p _ =>
      w <- createPromise sg p ;;
      modify (upd_signals (alter (set_sig_value w) sg))
  | _ => ret tt
  end ;;
  ret sg.

(** [get value()] of a signal. *)
Definition signal_get (sg : nat) : Eng value :=
  cell <- deref signals sg ;;
  track (sig_tracker cell) ;;
  cell <- deref signals sg ;;
  ret (sig_value cell).

(** [set value(newValue)] of a signal. *)
Definition signal_set (sg : nat) (newValue : value) : Eng unit :=
  cell <- deref signals sg ;;
  if strict_eq (sig_value cell) newValue then
    dev <- gets development ;;
    when (dev && is_object newValue)
      (modify (upd_console (fun l => l ++ [newValue])))
  else
    newValue <- match newValue with
                | VPromise p _ => createPromise sg p
                | _ => ret newValue
                end ;;
    prev <- deref signals sg ;;
    let prevValue := sig_value prev in
    modify (upd_signals (alter (set_sig_value newValue) sg)) ;;
    installed <- gets (fun s => onSetValue (hooks s)) ;;
    when installed
      (call_hook onSetValue (HookSetValue (sig_tracker cell) newValue false) ;;
       cur <- current ;;
       match cur with
       | Some c => on_context c (registerSetter (sig_tracker cell))
       | None => ret tt
       end) ;;
    now <- deref signals sg ;;
    if strict_eq (sig_value now) prevValue then ret tt
    else if instanceof_Promise (sig_value now) then enqueue (TCheck sg)
    else SignalTracker_notify (sig_tracker cell) ;; ret tt.

(** [derived(cb)] *)
Definition derived (cb : prog) : Eng nat :=
  d <- gets (fun s => length (deriveds s)) ;;
  t <- new_SignalTracker (OfDerived d) ;;
  modify (upd_deriveds (fun h => h ++ [mkDerived cb VUndefined None true t])) ;;
  ret d.

(** [get value()] of a derived. *)
Definition derived_get (d : nat) : Eng value :=
  cell <- deref deriveds d ;;
  track (der_tracker cell) ;;
  cell <- deref deriveds d ;;
  (if isDirty cell then
     match disposer cell with
     | Some old => unsubscribe old
     | None => ret tt
     end ;;
     context <- new_ObserverContext Derived (OnDerived d) ;;
     emit (EvCompute d) ;;
     v <- rec (CallUser (der_cb cell)) ;;
     modify (upd_deriveds (alter (set_der_value v) d)) ;;
     disp <- dispose context ;;
     modify (upd_deriveds (alter (set_disposer disp) d)) ;;
     modify (upd_deriveds (alter (set_isDirty false) d)) ;;
     call_hook onSetValue (HookSetValue (der_tracker cell) v true)
   else ret tt) ;;
  cell <- deref deriveds d ;;
  ret (der_value cell).

(** The [updater] closure of [effect(cb)]. *)
Definition updater (e : nat) : Eng nat :=
  cell <- deref effects e ;;
  context <- new_ObserverContext Effect (OnEffect e) ;;
  emit (EvEffect e) ;;
  rec (CallUser (eff_cb cell)) ;;
  call_hook onEffectRun (HookEffectRun e) ;;
  dispose context.

(** [effect(cb)].  [cleanup] belongs to [./store]; the disposer it is
    given is recorded. *)
Definition effect (cb : prog) : Eng nat :=
  e <- gets (fun s => length (effects s)) ;;
  modify (upd_effects (fun h => h ++ [mkEffect cb None])) ;;
  disp <- updater e ;;
  modify (upd_effects (alter (set_currentSubscriptionDisposer disp) e)) ;;
  modify (upd_cleanups (fun l => l ++ [disp])) ;;
  ret e.

(** [observer()]; [host] stands for the component's [setState]. *)
Definition observer (host : nat) : Eng nat :=
  new_ObserverContext Component (OnComponent host).

(** Running user code. *)
Fixpoint exec (p : prog) : Eng value :=
  match p with
  | Return v => ret v
  | Throw e => throw e
  | GetSignal sg k => v <- signal_get sg ;; exec (k v)
  | SetSignal sg v k => signal_set sg v ;; exec k
  | GetDerived d k => v <- derived_get d ;; exec (k v)
  | Use p k => v <- (fun s => (use p, s)) ;; exec (k v)
  end.

Definition step (c : Call) : Eng value :=
  match c with
  | CallNotify t => SignalTracker_notify t ;; ret VUndefined
  | CallUpdater e =>
      disp <- updater e ;;
      modify (upd_effects (alter (set_currentSubscriptionDisposer disp) e)) ;;
      ret VUndefined
  | CallUser p => exec p
  end.

(** One job of the microtask queue. *)
Definition run_task (t : Task) : Eng unit :=
  match t with
  | TThen (Handlers sg c w) (Fulfill v) =>
      r <- attempt (on_fulfilled sg c v) ;;
      match r with
      | inl v' => enqueue (TCatch sg c w (Fulfill v'))
      | inr e => enqueue (TCatch sg c w (Reject e))
      end
  | TThen (Handlers sg c w) (Reject e) => enqueue (TCatch sg c w (Reject e))
  | TThen (Adopt p) o => settle p o
  | TCatch sg c w (Fulfill v) => settle w (Fulfill v)
  | TCatch sg c w (Reject e) =>
      r <- attempt (on_rejected sg c e) ;;
      match r with
      | inl v => resolve w v
      | inr e' => settle w (Reject e')
      end
  | TAdopt p q => react q (Adopt p)
  | TCheck sg =>
      cell <- deref signals sg ;;
      if is_pending (sig_value cell)
      then SignalTracker_notify (sig_tracker cell) ;; ret tt
      else ret tt
  end.

(** The host runs the oldest job; an exception escaping a job is an
    unhandled rejection and goes no further. *)
Definition run_microtask : Eng bool :=
  q <- gets microtasks ;;
  match q with
  | [] => ret false
  | t :: _ =>
      modify (upd_microtasks (fun q => tail q)) ;;
      attempt (run_task t) ;;
      ret true
  end.
End Engine.

Fixpoint eval (fuel : nat) (c : Call) : Eng value :=
  match fuel with
  | 0 => out_of_fuel
  | S n => step (eval n) c
  end.

(** Running the queue until it is empty. *)
Fixpoint drain (fuel : nat) : Eng unit :=
  match fuel with
  | 0 => out_of_fuel
  | S n => more <- run_microtask (eval n) ;; if more : bool then drain n else ret tt
  end.

End ImpactReact.

(** ** src/Signal.ts *)

Module Legacy.
Import JS.

(** *** Heap objects *)

(** The closures passed to [context.subscribe]: the one [derive] builds,
    and the [update] callback of the host's [useSyncExternalStore]. *)
Inductive OnUpdate : Type :=
| OnDerive (d : nat)
| OnHost (store : nat).

(** [class ObserverContext].  [_snapshot] is the identity of the current
    snapshot object; every snapshot object of a context shares the one
    [signals] array, [snapshot_signals]. *)
Record ObserverContext : Type := mkContext {
  _signals : SetData nat;
  _onUpdate : option OnUpdate;
  _snapshot : nat;
  snapshot_signals : list value
}.

Inductive Owner : Type := OfSignal (sg : nat) | OfDerive (d : nat).

(** [class SignalTracker] *)
Record SignalTracker : Type := mkTracker {
  getValue : Owner;
  tracker_contexts : SetData nat
}.

(** User code: callbacks of [derive], listeners and observed components. *)
Inductive prog : Type :=
| Return (v : value)
| Throw (e : value)
| GetSignal (sg : nat) (k : value -> prog)
| SetSignal (sg : nat) (v : value) (k : prog)
| GetDerive (d : nat) (k : value -> prog).

(** The closure variables of one [signal(value)]. *)
Record SignalCell : Type := mkSignal {
  sig_value : value;
  sig_tracker : nat;
  sig_listeners : option (SetData nat)
}.

(** The closure variables of one [derive(cb)]. *)
Record DeriveCell : Type := mkDerive {
  der_cb : prog;
  der_value : value;
  disposer : option nat;
  isDirty : bool;
  der_tracker : nat;
  der_listeners : option (SetData nat)
}.

(** Calls into [./debugger], made in development mode only. *)
Inductive DebugEntry : Type :=
| ObserveDebugEntry (signal : nat)
| SetterDebugEntry (signal : nat) (v : value) (is_derived : bool).

Inductive Event : Type :=
| EvNotify (tracker : nat)
| EvUpdate (context : nat)
| EvCompute (d : nat)
| EvListener (l : nat) (newValue prevValue : value)
| EvHostUpdate (store : nat).

(** *** The state of the module *)

Record State : Type := mkState {
  stack : list nat;
  contexts : list ObserverContext;
  trackers : list SignalTracker;
  signals : list SignalCell;
  derives : list DeriveCell;
  listeners : list (value -> value -> prog);
  snapshots : nat;
  host_stores : list nat;
  development : bool;
  produce : value -> nat -> value;
  console : list value;
  debug_entries : list DebugEntry;
  trace : list Event
}.

Definition upd_stack f s :=
  mkState (f (stack s)) (contexts s) (trackers s) (signals s) (derives s)
    (listeners s) (snapshots s) (host_stores s) (development s) (produce s)
    (console s) (debug_entries s) (trace s).
Definition upd_contexts f s :=
  mkState (stack s) (f (contexts s)) (trackers s) (signals s) (derives s)
    (listeners s) (snapshots s) (host_stores s) (development s) (produce s)
    (console s) (debug_entries s) (trace s).
Definition upd_trackers f s :=
  mkState (stack s) (contexts s) (f (trackers s)) (signals s) (derives s)
    (listeners s) (snapshots s) (host_stores s) (development s) (produce s)
    (console s) (debug_entries s) (trace s).
Definition upd_signals f s :=
  mkState (stack s) (contexts s) (trackers s) (f (signals s)) (derives s)
    (listeners s) (snapshots s) (host_stores s) (development s) (produce s)
    (console s) (debug_entries s) (trace s).
Definition upd_derives f s :=
  mkState (stack s) (contexts s) (trackers s) (signals s) (f (derives s))
    (listeners s) (snapshots s) (host_stores s) (development s) (produce s)
    (console s) (debug_entries s) (trace s).
Definition upd_listeners f s :=
  mkState (stack s) (contexts s) (trackers s) (signals s) (derives s)
    (f (listeners s)) (snapshots s) (host_stores s) (development s)
    (produce s) (console s) (debug_entries s) (trace s).
Definition upd_snapshots f s :=
  mkState (stack s) (contexts s) (trackers s) (signals s) (derives s)
    (listeners s) (f (snapshots s)) (host_stores s) (development s)
    (produce s) (console s) (debug_entries s) (trace s).
Definition upd_host_stores f s :=
  mkState (stack s) (contexts s) (trackers s) (signals s) (derives s)
    (listeners s) (snapshots s) (f (host_stores s)) (development s)
    (produce s) (console s) (debug_entries s) (trace s).
Definition upd_console f s :=
  mkState (stack s) (contexts s) (trackers s) (signals s) (derives s)
    (listeners s) (snapshots s) (host_stores s) (development s) (produce s)
    (f (console s)) (debug_entries s) (trace s).
Definition upd_debug_entries f s :=
  mkState (stack s) (contexts s) (trackers s) (signals s) (derives s)
    (listeners s) (snapshots s) (host_stores s) (development s) (produce s)
    (console s) (f (debug_entries s)) (trace s).
Definition upd_trace f s :=
  mkState (stack s) (contexts s) (trackers s) (signals s) (derives s)
    (listeners s) (snapshots s) (host_stores s) (development s) (produce s)
    (console s) (debug_entries s) (f (trace s)).

(** A module freshly loaded; [immer] stands for the [produce] of the
    mutation helper. *)
Definition initial (dev : bool) (immer : value -> nat -> value) : State :=
  mkState [] [] [] [] [] [] 0 [] dev immer [] [] [].

Abbreviation Eng := (M State).

Definition deref {A} (h : State -> list A) (i : nat) : Eng A :=
  fun s => match h s !! i with
           | Some x => (Ok x, s)
           | None => (Thrown (VStr "TypeError"), s)
           end.

Definition emit (ev : Event) : Eng unit :=
  modify (upd_trace (fun t => t ++ [ev])).

(** Calls made in development mode only. *)
Definition debug (e : DebugEntry) : Eng unit :=
  dev <- gets development ;;
  when dev (modify (upd_debug_entries (fun l => l ++ [e]))).

(** *** class ObserverContext *)

Definition current : Eng (option nat) := gets (fun s => last (stack s)).

(** [new ObserverContext()] *)
Definition new_ObserverContext : Eng nat :=
  c <- gets (fun s => length (contexts s)) ;;
  snap <- gets snapshots ;;
  modify (upd_snapshots S) ;;
  modify (upd_contexts (fun h => h ++ [mkContext [] None snap []])) ;;
  modify (upd_stack (fun st => st ++ [c])) ;;
  ret c.

(** What [signal.getValue()] returns. *)
Definition SignalTracker_getValue (t : nat) : Eng value :=
  this <- deref trackers t ;;
  match getValue this with
  | OfSignal sg => cell <- deref signals sg ;; ret (sig_value cell)
  | OfDerive d => cell <- deref derives d ;; ret (der_value cell)
  end.

(** [registerSignal(signal)] *)
Definition registerSignal (c signal : nat) : Eng unit :=
  v <- SignalTracker_getValue signal ;;
  modify (upd_contexts (alter (fun this =>
    mkContext (Set_add signal (_signals this)) (_onUpdate this)
      (_snapshot this) (snapshot_signals this ++ [v])) c)).

Definition addContext (context : nat) (this : SignalTracker) : SignalTracker :=
  mkTracker (getValue this) (Set_add context (tracker_contexts this)).

Definition removeContext (context : nat) (this : SignalTracker) : SignalTracker :=
  mkTracker (getValue this) (Set_delete context (tracker_contexts this)).

Definition on_tracker (t : nat) (f : SignalTracker -> SignalTracker) : Eng unit :=
  modify (upd_trackers (alter f t)).

Definition new_SignalTracker (o : Owner) : Eng nat :=
  t <- gets (fun s => length (trackers s)) ;;
  modify (upd_trackers (fun h => h ++ [mkTracker o []])) ;;
  ret t.

(** [subscribe(onUpdate)]; the closure it returns is represented by the
    context it closes over. *)
Definition subscribe (c : nat) (onUpdate : OnUpdate) : Eng nat :=
  modify (upd_contexts (alter (fun this =>
    mkContext (_signals this) (Some onUpdate) (_snapshot this)
      (snapshot_signals this)) c)) ;;
  this <- deref contexts c ;;
  Array_forEach (fun signal => on_tracker signal (addContext c))
    (Array_from (_signals this)) ;;
  ret c.

(** Calling the closure returned by [subscribe]. *)
Definition unsubscribe (c : nat) : Eng unit :=
  this <- deref contexts c ;;
  Array_forEach (fun signal => on_tracker signal (removeContext c))
    (Array_from (_signals this)) ;;
  ret tt.

(** [context[Symbol.dispose]()] *)
Definition dispose : Eng unit :=
  modify (upd_stack (fun st => List.removelast st)).

(** *** The engine *)

Inductive Call : Type :=
| CallNotify (t : nat)
| CallNotifyFrom (t : nat) (index : nat)
| CallUser (p : prog).

(** What a call answers: the value of user code, or the contexts a
    notification pass visited. *)
Inductive Answer : Type :=
| AValue (v : value)
| AVisited (cs : list nat).

Definition the_value (a : Answer) : value :=
  match a with AValue v => v | AVisited _ => VUndefined end.
Definition the_visited (a : Answer) : list nat :=
  match a with AVisited cs => cs | AValue _ => [] end.

Definition set_isDirty (b : bool) (d : DeriveCell) : DeriveCell :=
  mkDerive (der_cb d) (der_value d) (disposer d) b (der_tracker d) (der_listeners d).
Definition set_der_value (v : value) (d : DeriveCell) : DeriveCell :=
  mkDerive (der_cb d) v (disposer d) (isDirty d) (der_tracker d) (der_listeners d).
Definition set_disposer (c : nat) (d : DeriveCell) : DeriveCell :=
  mkDerive (der_cb d) (der_value d) (Some c) (isDirty d) (der_tracker d) (der_listeners d).
Definition set_der_listeners (l : SetData nat) (d : DeriveCell) : DeriveCell :=
  mkDerive (der_cb d) (der_value d) (disposer d) (isDirty d) (der_tracker d) (Some l).
Definition set_sig_value (v : value) (c : SignalCell) : SignalCell :=
  mkSignal v (sig_tracker c) (sig_listeners c).
Definition set_sig_listeners (l : SetData nat) (c : SignalCell) : SignalCell :=
  mkSignal (sig_value c) (sig_tracker c) (Some l).

(** [listeners?.size] as a condition. *)
Definition has_listeners (l : option (SetData nat)) : bool :=
  match l with Some d => negb (Nat.eqb (Set_size d) 0) | None => false end.

(** The head of both [get value()]. *)
Definition track (signal : nat) : Eng unit :=
  cur <- current ;;
  match cur with
  | Some c => registerSignal c signal ;; debug (ObserveDebugEntry signal)
  | None => ret tt
  end.

Section Engine.
Variable rec : Call -> Eng Answer.

(** [listeners?.forEach((listener) => listener(value, prevValue))];
    [value] is read again for each listener.  User code of this model
    cannot reach [onChange], so the set does not change under the loop. *)
Definition call_listeners (ls : option (SetData nat)) (read : Eng value)
    (prevValue : value) : Eng unit :=
  match ls with
  | Some d =>
      Array_forEach (fun l =>
        listener <- deref listeners l ;;
        v <- read ;;
        emit (EvListener l v prevValue) ;;
        rec (CallUser (listener v prevValue)) ;;
        ret tt) (Array_from d) ;;
      ret tt
  | None => ret tt
  end.

(** The closure [derive] passes to [context.subscribe]. *)
Definition derive_onUpdate (d : nat) : Eng unit :=
  modify (upd_derives (alter (set_isDirty true) d)) ;;
  cell <- deref derives d ;;
  let prevValue := der_value cell in
  (if has_listeners (der_listeners cell) then
     modify (upd_derives (alter (set_isDirty false) d)) ;;
     emit (EvCompute d) ;;
     v <- rec (CallUser (der_cb cell)) ;;
     modify (upd_derives (alter (set_der_value (the_value v)) d))
   else ret tt) ;;
  rec (CallNotify (der_tracker cell)) ;;
  cell' <- deref derives d ;;
  call_listeners (der_listeners cell')
    (c <- deref derives d ;; ret (der_value c)) prevValue.

(** [ObserverContext.notify()] *)
Definition ObserverContext_notify (c : nat) : Eng unit :=
  snap <- gets snapshots ;;
  modify (upd_snapshots S) ;;
  modify (upd_contexts (alter (fun this =>
    mkContext (_signals this) (_onUpdate this) snap (snapshot_signals this)) c)) ;;
  emit (EvUpdate c) ;;
  this <- deref contexts c ;;
  match _onUpdate this with
  | Some (OnDerive d) => derive_onUpdate d
  | Some (OnHost store) => emit (EvHostUpdate store)
  | None => ret tt
  end.

(** [this.contexts.forEach((context) => context.notify())], from entry
    [index] on: the set is consulted again at every step, so entries
    appended meanwhile are reached.  The result lists the contexts
    visited. *)
Definition notify_from (t index : nat) : Eng (list nat) :=
  this <- deref trackers t ;;
  match tracker_contexts this !! index with
  | None => ret []
  | Some None => a <- rec (CallNotifyFrom t (S index)) ;; ret (the_visited a)
  | Some (Some c) =>
      ObserverContext_notify c ;;
      a <- rec (CallNotifyFrom t (S index)) ;;
      ret (c :: the_visited a)
  end.

(** [SignalTracker.notify()] *)
Definition SignalTracker_notify (t : nat) : Eng (list nat) :=
  emit (EvNotify t) ;;
  notify_from t 0.

(** [signal(value)] *)
Definition signal (v : value) : Eng nat :=
  sg <- gets (fun s => length (signals s)) ;;
  t <- new_SignalTracker (OfSignal sg) ;;
  modify (upd_signals (fun h => h ++ [mkSignal v t None])) ;;
  ret sg.

(** [onChange(listener)] of a signal; the result identifies the listener
    for the closure that removes it. *)
Definition signal_onChange (sg : nat) (listener : value -> value -> prog) : Eng nat :=
  l <- gets (fun s => length (listeners s)) ;;
  modify (upd_listeners (fun h => h ++ [listener])) ;;
  cell <- deref signals sg ;;
  modify (upd_signals (alter
    (set_sig_listeners (Set_add l (default [] (sig_listeners cell)))) sg)) ;;
  ret l.

(** [get value()] of a signal. *)
Definition signal_get (sg : nat) : Eng value :=
  cell <- deref signals sg ;;
  track (sig_tracker cell) ;;
  cell <- deref signals sg ;;
  ret (sig_value cell).

(** [set value(newValue)] of a signal. *)
Definition signal_set (sg : nat) (newValue : value) : Eng unit :=
  cell <- deref signals sg ;;
  if strict_eq (sig_value cell) newValue then
    dev <- gets development ;;
    when (dev && is_object newValue)
      (modify (upd_console (fun l => l ++ [newValue])))
  else
    let prevValue := sig_value cell in
    immer <- gets produce ;;
    let v := match newValue with
             | VFun f => immer (sig_value cell) f
             | _ => newValue
             end in
    modify (upd_signals (alter (set_sig_value v) sg)) ;;
    debug (SetterDebugEntry (sig_tracker cell) v false) ;;
    SignalTracker_notify (sig_tracker cell) ;;
    cell' <- deref signals sg ;;
    call_listeners (sig_listeners cell')
      (c <- deref signals sg ;; ret (sig_value c)) prevValue.

(** [derive(cb)] *)
Definition derive (cb : prog) : Eng nat :=
  d <- gets (fun s => length (derives s)) ;;
  t <- new_SignalTracker (OfDerive d) ;;
  modify (upd_derives (fun h => h ++ [mkDerive cb VUndefined None true t None])) ;;
  ret d.

(** [onChange(listener)] of a derived. *)
Definition derive_onChange (d : nat) (listener : value -> value -> prog) : Eng nat :=
  l <- gets (fun s => length (listeners s)) ;;
  modify (upd_listeners (fun h => h ++ [listener])) ;;
  cell <- deref derives d ;;
  modify (upd_derives (alter
    (set_der_listeners (Set_add l (default [] (der_listeners cell)))) d)) ;;
  ret l.

(** [get value()] of a derived. *)
Definition derive_get (d : nat) : Eng value :=
  cell <- deref derives d ;;
  track (der_tracker cell) ;;
  cell <- deref derives d ;;
  (if isDirty cell then
     match disposer cell with
     | Some old => unsubscribe old
     | None => ret tt
     end ;;
     context <- new_ObserverContext ;;
     emit (EvCompute d) ;;
     v <- rec (CallUser (der_cb cell)) ;;
     modify (upd_derives (alter (set_der_value (the_value v)) d)) ;;
     dispose ;;
     disp <- subscribe context (OnDerive d) ;;
     modify (upd_derives (alter (set_disposer disp) d)) ;;
     modify (upd_derives (alter (set_isDirty false) d)) ;;
     debug (SetterDebugEntry (der_tracker cell) (the_value v) true)
   else ret tt) ;;
  cell <- deref derives d ;;
  ret (der_value cell).

(** [useSyncExternalStore(subscribe, getSnapshot, getSnapshot)]: the host
    keeps the store and subscribes to it when it commits. *)
Definition useSyncExternalStore (c : nat) : Eng unit :=
  modify (upd_host_stores (fun l => l ++ [c])).

(** The host calls the [subscribe] argument it was given. *)
Definition host_subscribe (c : nat) : Eng nat :=
  subscribe c (OnHost c).

(** The function returned by [observe(cb)], called. *)
Definition observe_wrapper (cb : prog) : Eng value :=
  context <- new_ObserverContext ;;
  useSyncExternalStore context ;;
  try_catch
    (result <- rec (CallUser cb) ;;
     dispose ;;
     ret (the_value result))
    (fun error => dispose ;; throw error).

(** [observe()] *)
Definition observe : Eng nat :=
  context <- new_ObserverContext ;;
  useSyncExternalStore context ;;
  ret context.

Fixpoint exec (p : prog) : Eng value :=
  match p with
  | Return v => ret v
  | Throw e => throw e
  | GetSignal sg k => v <- signal_get sg ;; exec (k v)
  | SetSignal sg v k => signal_set sg v ;; exec k
  | GetDerive d k => v <- derive_get d ;; exec (k v)
  end.

Definition step (c : Call) : Eng Answer :=
  match c with
  | CallNotify t => cs <- SignalTracker_notify t ;; ret (AVisited cs)
  | CallNotifyFrom t index => cs <- notify_from t index ;; ret (AVisited cs)
  | CallUser p => v <- exec p ;; ret (AValue v)
  end.
End Engine.

Fixpoint eval (fuel : nat) (c : Call) : Eng Answer :=
  match fuel with
  | 0 => out_of_fuel
  | S n => step (eval n) c
  end.

End Legacy.

(** ** Vocabulary of the properties *)

Module Props.
Import JS.

(** [m] keeps the state predicate [P], however it ends. *)
Definition preserves {S A} (P : S -> Prop) (m : M S A) : Prop :=
  forall s, P s -> P (m s).2.

End Props.

Module ImpactReactProps.
Import JS ImpactReact.

(** No tracker is both a getter and a setter of the context. *)
Definition exclusive (this : ObserverContext) : Prop :=
  forall T, Set_has T (_getters this) = true -> Set_has T (_setters this) = true -> False.

Definition all_exclusive (s : State) : Prop := Forall exclusive (contexts s).

(** What [createPromise] does to the controllers of signal [sg], whose
    current controller is [c1]: abort it, allocate a controller, install it. *)
Definition installed (sg : nat) (c1 : option nat) (s : State) : State :=
  upd_signals (alter (set_currentAbortController (length (controllers s))) sg)
    (upd_controllers (fun h => h ++ [false])
       match c1 with
       | Some c => upd_controllers (<[c := true]>) s
       | None => s
       end).

(** Predicates that the engine cannot break: indifferent to every
    component of the state except the context heap, the signals and the
    controllers, and kept by the only updates the engine makes to those. *)
Record stable (P : State -> Prop) : Prop := mkStable {
  st_stack : forall f s, P s -> P (upd_stack f s);
  st_version : forall f s, P s -> P (upd_version f s);
  st_trackers : forall f s, P s -> P (upd_trackers f s);
  st_deriveds : forall f s, P s -> P (upd_deriveds f s);
  st_effects : forall f s, P s -> P (upd_effects f s);
  st_promises : forall f s, P s -> P (upd_promises f s);
  st_microtasks : forall f s, P s -> P (upd_microtasks f s);
  st_console : forall f s, P s -> P (upd_console f s);
  st_hook_calls : forall f s, P s -> P (upd_hook_calls f s);
  st_cleanups : forall f s, P s -> P (upd_cleanups f s);
  st_trace : forall f s, P s -> P (upd_trace f s);
  st_new_context : forall ty u cap s,
    P s -> P (upd_contexts (fun h => h ++ [mkContext ty [] [] u cap]) s);
  st_registerGetter : forall T c s,
    P s -> P (upd_contexts (alter (registerGetter T) c) s);
  st_registerSetter : forall T c s,
    P s -> P (upd_contexts (alter (registerSetter T) c) s);
  st_new_signal : forall v t s,
    P s -> P (upd_signals (fun h => h ++ [mkSignal v None t]) s);
  st_set_value : forall v sg s,
    P s -> P (upd_signals (alter (set_sig_value v) sg) s);
  st_installed : forall sg cell s,
    signals s !! sg = Some cell ->
    P s -> P (installed sg (currentAbortController cell) s)
}.

(** The controller installed in a signal is not aborted and is installed
    in that signal only. *)
Definition controllers_live (s : State) : Prop :=
  forall sg cell c,
    signals s !! sg = Some cell -> currentAbortController cell = Some c ->
    controllers s !! c = Some false /\
    forall sg' cell',
      signals s !! sg' = Some cell' -> currentAbortController cell' = Some c ->
      sg' = sg.

(** The state after the development-mode [console.warn] of a write that
    was short-circuited. *)
Definition warned (v : value) (s : State) : State :=
  if development s && is_object v then upd_console (fun l => l ++ [v]) s else s.

(** [get value()] of a derived in two halves around the call of [cb]:
    what runs before it (the result tells whether the derived was dirty,
    and then which context was opened and which callback is due) and what
    runs after it has returned [v]. *)
Definition derived_enter (d : nat) : Eng (option (nat * DerivedCell)) :=
  cell <- deref deriveds d ;;
  track (der_tracker cell) ;;
  cell <- deref deriveds d ;;
  if isDirty cell then
    match disposer cell with
    | Some old => unsubscribe old
    | None => ret tt
    end ;;
    context <- new_ObserverContext Derived (OnDerived d) ;;
    emit (EvCompute d) ;;
    ret (Some (context, cell))
  else ret None.

Definition derived_leave (d : nat) (computed : option (nat * DerivedCell * value)) : Eng value :=
  match computed with
  | Some (context, cell, v) =>
      modify (upd_deriveds (alter (set_der_value v) d)) ;;
      disp <- dispose context ;;
      modify (upd_deriveds (alter (set_disposer disp) d)) ;;
      modify (upd_deriveds (alter (set_isDirty false) d)) ;;
      call_hook onSetValue (HookSetValue (der_tracker cell) v true)
  | None => ret tt
  end ;;
  cell <- deref deriveds d ;;
  ret (der_value cell).

(** The state in which the [_onUpdate] of a derived's context calls
    [signal.notify()]: the version has been handed out and the flag is set. *)
Definition marked_dirty (c d : nat) (s : State) : State :=
  upd_deriveds (alter (set_isDirty true) d)
    (upd_trace (fun t => t ++ [EvUpdate c (version s)]) (upd_version S s)).

(** How often [cb] of derived [d] was started, by the record. *)
Definition is_compute (d : nat) (ev : Event) : bool :=
  match ev with EvCompute d' => Nat.eqb d d' | _ => false end.

Definition computes (d : nat) (t : list Event) : nat :=
  length (filter (fun ev => is_compute d ev = true) t).

(** The state [createPromise] leaves, when the signal had controller [c1]
    and the promise was in state [pst]: [c1] aborted, a new controller
    installed, the wrapper allocated, the handlers queued or registered. *)
Definition created (sg p : nat) (c1 : option nat) (pst : PromiseState) (s : State) : State :=
  let c2 := length (controllers s) in
  let w := length (promises s) in
  let s2 := upd_promises (fun h => h ++ [Unsettled []]) (installed sg c1 s) in
  match pst with
  | Settled o => upd_microtasks (fun q => q ++ [TThen (Handlers sg c2 w) o]) s2
  | Unsettled rs =>
      upd_promises (<[p := Unsettled (rs ++ [Handlers sg c2 w])]>) s2
  end.

(** What the setter does around an installed [onSetValue] hook. *)
Definition hooked (t : nat) (v : value) (s : State) : State :=
  if onSetValue (hooks s) then
    let s1 := upd_hook_calls (fun l => l ++ [HookSetValue t v false]) s in
    match last (stack s) with
    | Some c => upd_contexts (alter (registerSetter t) c) s1
    | None => s1
    end
  else s.

(** A promise value of the state refers to an allocated promise. *)
Definition allocated (s : State) (v : value) : Prop :=
  match v with VPromise q _ => q < length (promises s) | _ => True end.

(** The state after the setter stored a value that is not a promise, at
    the point where it calls [signal.notify()]. *)
Definition stored (sg : nat) (v : value) (cell : SignalCell) (s : State) : State :=
  hooked (sig_tracker cell) v (upd_signals (alter (set_sig_value v) sg) s).

(** The state after the setter was given promise [p]: the wrapper is
    stored and the check is deferred. *)
Definition stored_promise (sg p : nat) (cell : SignalCell) (pst : PromiseState)
    (s : State) : State :=
  let w := VPromise (length (promises s)) Pending in
  upd_microtasks (fun q => q ++ [TCheck sg])
    (hooked (sig_tracker cell) w
       (upd_signals (alter (set_sig_value w) sg)
          (created sg p (currentAbortController cell) pst s))).

(** [s'] differs from [s] at most in the promises and the microtask queue:
    no value, registration, subscription or notification has changed. *)
Definition same_graph (s s' : State) : Prop :=
  stack s' = stack s /\ version s' = version s /\ contexts s' = contexts s /\
  trackers s' = trackers s /\ signals s' = signals s /\
  controllers s' = controllers s /\ deriveds s' = deriveds s /\
  effects s' = effects s /\ trace s' = trace s /\
  hook_calls s' = hook_calls s /\ console s' = console s.

(** The state in which a settlement handler of a live operation calls
    [signal.notify()]: the settled wrapper is allocated and stored. *)
Definition as_status (o : settlement) : status :=
  match o with Fulfill v => Fulfilled v | Reject r => Rejected r end.

Definition settled_state (sg : nat) (o : settlement) (s : State) : State :=
  upd_signals (alter (set_sig_value (VPromise (length (promises s)) (as_status o))) sg)
    (upd_promises (fun h => h ++ [Settled o]) s).

(** The controller [c] has been aborted. *)
Definition aborted (c : nat) (s : State) : Prop := controllers s !! c = Some true.

(** What the host and the application can ask of the module. *)
Inductive Action : Type :=
| DoSignal (initialValue : value)
| DoDerived (cb : prog)
| DoEffect (cb : prog)
| DoObserver (host : nat)
| DoDispose (c : nat)
| DoUnsubscribe (c : nat)
| DoGet (sg : nat)
| DoSet (sg : nat) (v : value)
| DoGetDerived (d : nat)
| DoNewPromise
| DoSettle (p : nat) (o : settlement)
| DoMicrotask.

Definition perform (fuel : nat) (a : Action) : Eng unit :=
  match a with
  | DoSignal v => signal v ;; ret tt
  | DoDerived cb => derived cb ;; ret tt
  | DoEffect cb => effect (eval fuel) cb ;; ret tt
  | DoObserver host => observer host ;; ret tt
  | DoDispose c => dispose c ;; ret tt
  | DoUnsubscribe c => unsubscribe c
  | DoGet sg => signal_get sg ;; ret tt
  | DoSet sg v => signal_set (eval fuel) sg v
  | DoGetDerived d => derived_get (eval fuel) d ;; ret tt
  | DoNewPromise => new_promise (Unsettled []) ;; ret tt
  | DoSettle p o => settle p o
  | DoMicrotask => run_microtask (eval fuel) ;; ret tt
  end.

(** The state after a script, whatever each action's outcome. *)
Definition run (fuel : nat) (script : list Action) (s : State) : State :=
  foldl (fun s a => (perform fuel a s).2) s script.

End ImpactReactProps.

Module LegacyProps.
Import JS Legacy.

(** [get value()] of a derived of [src/Signal.ts] in two halves around the
    call of [cb]. *)
Definition derive_enter (d : nat) : Eng (option (nat * DeriveCell)) :=
  cell <- deref derives d ;;
  track (der_tracker cell) ;;
  cell <- deref derives d ;;
  if isDirty cell then
    match disposer cell with
    | Some old => unsubscribe old
    | None => ret tt
    end ;;
    context <- new_ObserverContext ;;
    emit (EvCompute d) ;;
    ret (Some (context, cell))
  else ret None.

Definition derive_leave (d : nat) (computed : option (nat * DeriveCell * value)) : Eng value :=
  match computed with
  | Some (context, cell, v) =>
      modify (upd_derives (alter (set_der_value v) d)) ;;
      dispose ;;
      disp <- subscribe context (OnDerive d) ;;
      modify (upd_derives (alter (set_disposer disp) d)) ;;
      modify (upd_derives (alter (set_isDirty false) d)) ;;
      debug (SetterDebugEntry (der_tracker cell) v true)
  | None => ret tt
  end ;;
  cell <- deref derives d ;;
  ret (der_value cell).

(** How often [cb] of derived [d] was started, by the record. *)
Definition is_compute (d : nat) (ev : Event) : bool :=
  match ev with EvCompute d' => Nat.eqb d d' | _ => false end.

Definition computes (d : nat) (t : list Event) : nat :=
  length (filter (fun ev => is_compute d ev = true) t).

(** The state in which the closure that [derive] subscribed goes on after
    [isDirty = true], and the one in which it calls [cb] when there are
    listeners. *)
Definition marked_dirty (c d : nat) (s : State) : State :=
  upd_derives (alter (set_isDirty true) d)
    (upd_trace (fun t => t ++ [EvUpdate c])
       (upd_contexts (alter (fun this =>
          mkContext (_signals this) (_onUpdate this) (snapshots s)
            (snapshot_signals this)) c)
          (upd_snapshots S s))).

Definition recomputing (c d : nat) (s : State) : State :=
  upd_trace (fun t => t ++ [EvCompute d])
    (upd_derives (alter (set_isDirty false) d) (marked_dirty c d s)).

(** The state after the development-mode [console.warn] of a write that
    was short-circuited. *)
Definition warned (v : value) (s : State) : State :=
  if development s && is_object v then upd_console (fun l => l ++ [v]) s else s.

End LegacyProps.

(** ** Concrete programs and states used as instances *)

Module Instances.
Import JS.

Module IR.
Import ImpactReact ImpactReactProps.

Definition no_hooks : DebugHooks := mkHooks false false false.

(** [effect(() => { x.value; x.value = 1 })] on a signal [x] holding 0. *)
Definition read_then_write : prog :=
  GetSignal 0 (fun _ => SetSignal 0 (VNum 1) (Return VUndefined)).

Definition read_then_write_script : list Action :=
  [DoSignal (VNum 0); DoEffect read_then_write].

(** A context that has read tracker 3. *)
Definition reader_of_3 : ObserverContext :=
  mkContext Effect [Some 3] [] (OnEffect 0) false.

(** A module holding one signal with value 7 and no context open. *)
Definition one_signal : State := (signal (VNum 7) (initial no_hooks true false)).2.

(** [derived(() => { x.value; throw "boom" })] next to the signal. *)
Definition thrower : prog := GetSignal 0 (fun _ => Throw (VStr "boom")).
Definition with_thrower : State := (derived thrower one_signal).2.
Definition thrower_cell : DerivedCell := mkDerived thrower VUndefined None true 1.
Definition thrower_entered : State := (derived_enter 0 with_thrower).2.
Definition thrower_thrown : State :=
  (eval 2 (CallUser thrower) thrower_entered).2.

(** [derived(() => x.value * 2)] next to the signal, then read once. *)
Definition doubled : prog :=
  GetSignal 0 (fun v => match v with VNum n => Return (VNum (n * 2)) | _ => Return VNaN end).
Definition with_doubled : State := (derived doubled one_signal).2.
Definition doubled_dirty : DerivedCell := mkDerived doubled VUndefined None true 1.
Definition doubled_entered : State := (derived_enter 0 with_doubled).2.
Definition doubled_computed : State := (eval 2 (CallUser doubled) doubled_entered).2.
Definition doubled_read : State := (derived_get (eval 2) 0 with_doubled).2.
Definition doubled_clean : DerivedCell := mkDerived doubled (VNum 14) (Some 0) false 1.
Definition doubled_context : ObserverContext :=
  mkContext Derived [Some 0] [] (OnDerived 0) false.

(** An effect that reads the signal, and two pending promises. *)
Definition watcher : prog := GetSignal 0 (fun _ => Return VUndefined).
Definition watched : State :=
  run 4 [DoSignal (VNum 0); DoEffect watcher; DoNewPromise; DoNewPromise]
    (initial no_hooks false false).
Definition plain_cell : SignalCell := mkSignal (VNum 0) None 0.
Definition first_assigned : State :=
  (signal_set (eval 4) 0 (VPromise 0 NoStatus) watched).2.
Definition first_cell : SignalCell := mkSignal (VPromise 2 Pending) (Some 0) 0.
Definition second_assigned : State :=
  (signal_set (eval 4) 0 (VPromise 1 NoStatus) first_assigned).2.
Definition second_cell : SignalCell := mkSignal (VPromise 3 Pending) (Some 1) 0.

(** The watched signal after [x.value = 1]. *)
Definition written_once : State := (signal_set (eval 4) 0 (VNum 1) watched).2.

(** The same with the first promise already fulfilled with 9. *)
Definition resolved_input : State :=
  run 4 [DoSettle 0 (Fulfill (VNum 9))] watched.

(** The script of [read_then_write_script] without and with the
    [onSetValue] hook installed, and a later write to the signal. *)
Definition hook_off : State :=
  run 5 read_then_write_script (initial no_hooks false false).
Definition hook_on : State :=
  run 5 read_then_write_script (initial (mkHooks false true false) false false).
Definition later_write : list Action := [DoSet 0 (VNum 2)].

(** [count = signal(0)], [double = derived(() => count.value * 2)], then
    read, write 5, read, read. *)
Definition count_double : Eng (list value) :=
  count <- signal (VNum 0) ;;
  double <- derived doubled ;;
  v1 <- derived_get (eval 3) double ;;
  signal_set (eval 3) count (VNum 5) ;;
  v2 <- derived_get (eval 3) double ;;
  v3 <- derived_get (eval 3) double ;;
  ret [v1; v2; v3].

End IR.

Module L.
Import Legacy LegacyProps.

(** A [produce] that is never called here. *)
Definition no_immer : value -> nat -> value := fun v _ => v.

(** A module holding one signal with value 7 and no context open. *)
Definition one_signal : State := (signal (VNum 7) (initial true no_immer)).2.

(** [derive(() => { x.value; throw "boom" })] next to the signal. *)
Definition thrower : prog := GetSignal 0 (fun _ => Throw (VStr "boom")).
Definition with_thrower : State := (derive thrower one_signal).2.
Definition thrower_cell : DeriveCell := mkDerive thrower VUndefined None true 1 None.
Definition thrower_entered : State := (derive_enter 0 with_thrower).2.
Definition thrower_thrown : State :=
  (eval 2 (CallUser thrower) thrower_entered).2.

(** [derive(() => x.value * 2)] with an [onChange] listener, read once. *)
Definition doubled : prog :=
  GetSignal 0 (fun v => match v with VNum n => Return (VNum (n * 2)) | _ => Return VNaN end).
Definition listener : value -> value -> prog := fun _ _ => Return VUndefined.
Definition with_doubled : State := (derive doubled one_signal).2.
Definition doubled_dirty : DeriveCell := mkDerive doubled VUndefined None true 1 None.
Definition doubled_entered : State := (derive_enter 0 with_doubled).2.
Definition doubled_computed : State := (eval 2 (CallUser doubled) doubled_entered).2.
Definition doubled_read : State := (derive_get (eval 2) 0 with_doubled).2.
Definition doubled_listened : State :=
  (derive_get (eval 2) 0 (derive_onChange 0 listener with_doubled).2).2.
Definition doubled_with_listener : DeriveCell :=
  mkDerive doubled (VNum 14) (Some 0) false 1 (Some [Some 0]).
Definition doubled_context : ObserverContext :=
  mkContext [Some 0] (Some (OnDerive 0)) 0 [VNum 7].

(** Two deriveds of one signal: the first was never read, the second was
    read once and has a listener that reads the first. *)
Definition read_signal : prog := GetSignal 0 (fun v => Return v).
Definition read_first : value -> value -> prog :=
  fun _ _ => GetDerive 0 (fun _ => Return VUndefined).
Definition listening : State :=
  ((signal (VNum 0) ;;
    derive read_signal ;;
    derive read_signal ;;
    derive_onChange 1 read_first ;;
    derive_get (eval 5) 1) (initial false no_immer)).2.

End L.

End Instances.

(** ** src/Signal.ts: the closures returned by [onChange] *)

Module LegacyListeners.
Import JS Legacy.

(** Calling the closure that [onChange(listener)] of a signal returned:
    [listeners?.delete(listener)].  A listener is identified by the
    registration that allocated it; registering one function object
    twice is outside this model. *)
Definition signal_offChange (sg l : nat) : Eng unit :=
  cell <- deref signals sg ;;
  match sig_listeners cell with
  | Some d => modify (upd_signals (alter (set_sig_listeners (Set_delete l d)) sg))
  | None => ret tt
  end.


End LegacyListeners.

(** ** Vocabulary of further properties *)

Module MoreProps.
Import JS.

(** Started where [proj] is [x], a run of [m] that returns [a] ends where
    [proj] is [Q a]. *)
Definition leaves {S X A} (proj : S -> X) (x : X) (m : M S A) (Q : A -> X) : Prop :=
  forall s a s', proj s = x -> m s = (Ok a, s') -> proj s' = Q a.

(** [m] relates the state it starts in to the state it ends in, however
    it ends. *)
Definition relates {S A} (R : S -> S -> Prop) (m : M S A) : Prop :=
  forall s, R s (m s).2.

Module IR.
Import ImpactReact ImpactReactProps.

(** The contexts that depend on tracker [t], in subscription order. *)
Definition dependents (t : nat) (s : State) : list nat :=
  match trackers s !! t with
  | Some tr => Array_from (tracker_contexts tr)
  | None => []
  end.

(** What [isResolvingContextFromComponent(ctx)] answers in state [s]. *)
Definition resolving (ctx : ObserverContext) (s : State) : bool :=
  match type ctx with Component => activeStoreContainer s | _ => false end.

(** The engine's calls when the contexts [cs], every one a component
    context, are notified in turn from version [v] on: each gets its
    [_onUpdate], which is the component's [setState], with the next
    version.  [None] when some context is not a component's. *)
Fixpoint setState_calls (ctxs : list ObserverContext) (cs : list nat) (v : nat)
    : option (list Event) :=
  match cs with
  | [] => Some []
  | c :: cs' =>
      match ctxs !! c with
      | Some ctx =>
          match _onUpdate ctx with
          | OnComponent host =>
              match setState_calls ctxs cs' (S v) with
              | Some rest => Some (EvUpdate c v :: EvSetState host v :: rest)
              | None => None
              end
          | _ => None
          end
      | None => None
      end
  end.

(** Heap [h'] still holds every object of heap [h], each the same up to
    [same]. *)
Definition lasts {A} (same : A -> A -> Prop) (h h' : list A) : Prop :=
  forall i x, h !! i = Some x -> exists x', h' !! i = Some x' /\ same x x'.

(** What never changes in an object once it is made. *)
Definition same_context (a b : ObserverContext) : Prop :=
  type b = type a /\ _onUpdate b = _onUpdate a /\ stack_captured b = stack_captured a.
Definition same_tracker (a b : SignalTracker) : Prop := getValue b = getValue a.
Definition same_signal (a b : SignalCell) : Prop := sig_tracker b = sig_tracker a.
Definition same_derived (a b : DerivedCell) : Prop :=
  der_cb b = der_cb a /\ der_tracker b = der_tracker a.
Definition same_effect (a b : EffectCell) : Prop := eff_cb b = eff_cb a.

(** From [s] to [s'] no object was lost or given another identity. *)
Definition lasting (s s' : State) : Prop :=
  lasts same_context (contexts s) (contexts s') /\
  lasts same_tracker (trackers s) (trackers s') /\
  lasts same_signal (signals s) (signals s') /\
  lasts same_derived (deriveds s) (deriveds s') /\
  lasts same_effect (effects s) (effects s').

(** A production build that has written [k] to the console so far. *)
Definition production (k : list value) (s : State) : Prop :=
  development s = false /\ console s = k.

(** The versions handed to [_onUpdate] in a stretch of the trace. *)
Definition update_versions (t : list Event) : list nat :=
  omap (fun ev => match ev with EvUpdate _ v => Some v | _ => None end) t.

(** From [s] to [s'] the trace was only extended, and the calls of
    [_onUpdate] in the extension were given the versions from [version s]
    up to [version s'], one each, in order. *)
Definition versions_in_step (s s' : State) : Prop :=
  exists new,
    trace s' = trace s ++ new /\
    update_versions new = seq (version s) (length (update_versions new)) /\
    version s' = version s + length (update_versions new).

(** The state in which [signal(initialValue)] decides about
    [createPromise]: tracker and cell are allocated. *)
Definition allocated_signal (v : value) (s : State) : State :=
  upd_signals (fun h => h ++ [mkSignal v None (length (trackers s))])
    (upd_trackers (fun h => h ++ [mkTracker (OfSignal (length (signals s))) []]) s).

End IR.

Module L.
Import Legacy LegacyProps.

(** [subscribe] installs the callback in place of any earlier one. *)
Definition installed_onUpdate (u : OnUpdate) (this : ObserverContext) : ObserverContext :=
  mkContext (_signals this) (Some u) (_snapshot this) (snapshot_signals this).

(** The contexts that depend on tracker [t], in subscription order. *)
Definition dependents (t : nat) (s : State) : list nat :=
  match trackers s !! t with
  | Some tr => Array_from (tracker_contexts tr)
  | None => []
  end.

(** [registerSignal(signal)] on the object itself, [v] being what
    [signal.getValue()] answered. *)
Definition registered (signal : nat) (v : value) (this : ObserverContext)
    : ObserverContext :=
  mkContext (Set_add signal (_signals this)) (_onUpdate this) (_snapshot this)
    (snapshot_signals this ++ [v]).

(** The state after the head of a getter ran under context [c]. *)
Definition tracked (c t : nat) (v : value) (s : State) : State :=
  (if development s
   then upd_debug_entries (fun l => l ++ [ObserveDebugEntry t])
   else fun s => s)
    (upd_contexts (alter (registered t v) c) s).

(** Every snapshot object a context holds was made before now: its
    identity is below the counter of identities. *)
Definition snapshots_allocated (s : State) : Prop :=
  Forall (fun ctx => _snapshot ctx < snapshots s) (contexts s).

(** What the setter stores: [produce(value, newValue)] for a function,
    the new value itself otherwise. *)
Definition to_store (s : State) (old newValue : value) : value :=
  match newValue with
  | VFun f => produce s old f
  | _ => newValue
  end.

(** The state in which the setter calls [signal.notify()]. *)
Definition written (sg : nat) (newValue : value) (cell : SignalCell) (s : State)
    : State :=
  (if development s
   then upd_debug_entries (fun l => l ++
          [SetterDebugEntry (sig_tracker cell)
             (to_store s (sig_value cell) newValue) false])
   else fun s => s)
    (upd_signals
       (alter (set_sig_value (to_store s (sig_value cell) newValue)) sg) s).

(** From [s] to [s'] the record of the engine's calls was extended. *)
Definition extended (s s' : State) : Prop := trace s `prefix_of` trace s'.

(** A production build that has written [k] to the console and made
    the calls [d] of the debugger so far. *)
Definition production (k : list value) (d : list DebugEntry) (s : State) : Prop :=
  development s = false /\ console s = k /\ debug_entries s = d.

(** What [signal.getValue()] answers in state [s]. *)
Definition tracked_value (t : nat) (s : State) : option value :=
  match trackers s !! t with
  | Some tr =>
      match getValue tr with
      | OfSignal sg => sig_value <$> signals s !! sg
      | OfDerive d => der_value <$> derives s !! d
      end
  | None => None
  end.

End L.

End MoreProps.

(** ** Further concrete modules *)

Module MoreInstances.
Import JS.

Module IR.
Import ImpactReact ImpactReactProps.

(** A component context open over one signal, while a store container
    is being resolved. *)
Definition resolving_component : State :=
  ((observer 0 ;; signal (VNum 7)) (initial Instances.IR.no_hooks false true)).2.

(** A component that has read the signal and is subscribed to it. *)
Definition subscribed_component : State :=
  ((observer 5 ;; signal (VNum 7) ;; signal_get 0 ;; dispose 0)
     (initial Instances.IR.no_hooks false false)).2.

End IR.

Module L.
Import Legacy LegacyProps.

(** A context open over one signal. *)
Definition opened : State :=
  ((signal (VNum 7) ;; observe) (initial false Instances.L.no_immer)).2.

(** A context open over a signal and a derived that was never read. *)
Definition doubled_observed : State := (observe Instances.L.with_doubled).2.

(** A component's context, subscribed by the host after it read the
    signal. *)
Definition hosted : State :=
  ((signal (VNum 7) ;; observe ;; signal_get 0 ;; dispose ;; host_subscribe 0)
     (initial false Instances.L.no_immer)).2.


(** A context open over one signal that it has read once. *)
Definition reading : State :=
  ((signal (VNum 7) ;; observe ;; signal_get 0) (initial false Instances.L.no_immer)).2.

Definition reading_context : ObserverContext :=
  mkContext [Some 0] None 0 [VNum 7].

End L.

End MoreInstances.

(** ** Facts about the embedding *)

Module Facts.
Import JS Props.

Section Preserves.
Context {S : Type} (P : S -> Prop).

Lemma preserves_ret {A} (a : A) : preserves P (ret a).
Proof. intros s H. exact H. Qed.

Lemma preserves_throw {A} e : preserves P (throw (A:=A) e).
Proof. intros s H. exact H. Qed.

Lemma preserves_out_of_fuel {A} : preserves P (out_of_fuel (A:=A)).
Proof. intros s H. exact H. Qed.

Lemma preserves_gets {A} (f : S -> A) : preserves P (gets f).
Proof. intros s H. exact H. Qed.

Lemma preserves_pure {A} (r : Res A) : preserves P (fun s => (r, s)).
Proof. intros s H. exact H. Qed.

Lemma preserves_modify (f : S -> S) :
  (forall s, P s -> P (f s)) -> preserves P (modify f).
Proof. intros Hf s H. apply Hf, H. Qed.

Lemma preserves_bind {A B} (m : M S A) (k : A -> M S B) :
  preserves P m -> (forall a, preserves P (k a)) -> preserves P (bind m k).
Proof.
  intros Hm Hk s H. unfold bind. specialize (Hm s H).
  destruct (m s) as [[a|e|] s']; simpl in *; auto. by apply Hk.
Qed.

Lemma preserves_when b (m : M S unit) :
  preserves P m -> preserves P (when b m).
Proof. destruct b; simpl; auto using preserves_ret. Qed.

Lemma preserves_attempt {A} (m : M S A) :
  preserves P m -> preserves P (attempt m).
Proof.
  intros Hm s H. unfold attempt. specialize (Hm s H).
  by destruct (m s) as [[a|e|] s'].
Qed.

Lemma preserves_try_catch {A} (m : M S A) h :
  preserves P m -> (forall e, preserves P (h e)) -> preserves P (try_catch m h).
Proof.
  intros Hm Hh s H. unfold try_catch. specialize (Hm s H).
  destruct (m s) as [[a|e|] s']; simpl in *; auto. by apply Hh.
Qed.

Lemma preserves_forEach {A} (f : A -> M S unit) l :
  (forall x, preserves P (f x)) -> preserves P (Array_forEach f l).
Proof.
  intros Hf. induction l as [|x l IH]; simpl.
  - apply preserves_ret.
  - apply preserves_bind; [apply Hf|intros _].
    apply preserves_bind; [apply IH|intros vs]. apply preserves_ret.
Qed.
End Preserves.

(** The laws of chaining, state by state. *)
Section Laws.
Context {S : Type}.

Lemma bind_assoc {A B C} (m : M S A) (f : A -> M S B) (g : B -> M S C) s :
  bind (bind m f) g s = bind m (fun a => bind (f a) g) s.
Proof. unfold bind. by destruct (m s) as [[a|e|] s']. Qed.

Lemma bind_ret_l {A B} (a : A) (f : A -> M S B) s : bind (ret a) f s = f a s.
Proof. done. Qed.

Lemma bind_ext {A B} (m : M S A) (f g : A -> M S B) s :
  (forall a s', f a s' = g a s') -> bind m f s = bind m g s.
Proof. intros H. unfold bind. destruct (m s) as [[a|e|] s']; auto. Qed.

Lemma bind_modify {B} (f : S -> S) (k : unit -> M S B) s :
  bind (modify f) k s = k tt (f s).
Proof. done. Qed.

Lemma bind_gets {A B} (f : S -> A) (k : A -> M S B) s :
  bind (gets f) k s = k (f s) s.
Proof. done. Qed.

Lemma bind_ext_run {A B} (m : M S A) (f g : A -> M S B) s :
  (forall a s', m s = (Ok a, s') -> f a s' = g a s') -> bind m f s = bind m g s.
Proof. intros H. unfold bind. destruct (m s) as [[a|e|] s']; auto. Qed.

Lemma bind_Ok {A B} (m : M S A) (f : A -> M S B) s a s' :
  m s = (Ok a, s') -> bind m f s = f a s'.
Proof. unfold bind. by intros ->. Qed.

Lemma bind_Ok_inv {A B} (m : M S A) (f : A -> M S B) s b s' :
  bind m f s = (Ok b, s') ->
  exists a s1, m s = (Ok a, s1) /\ f a s1 = (Ok b, s').
Proof.
  unfold bind. destruct (m s) as [[a|e|] s1]; intros H; try done. eauto.
Qed.

End Laws.

(** Both sides of an equation between chains, brought to the same shape. *)
Ltac mnorm :=
  repeat (cbv beta iota zeta;
          first [ reflexivity
                | rewrite bind_assoc
                | rewrite bind_ret_l
                | match goal with
                  | |- bind ?m _ _ = bind ?m _ _ => apply bind_ext; intros ? ?
                  | |- context [if ?b then _ else _] => destruct b
                  | |- context [match ?x with Some _ => _ | None => _ end] =>
                      destruct x
                  | |- context [let (_, _) := ?p in _] => destruct p
                  end ]).


Lemma lookup_alter_inv {A} (f : A -> A) (l : list A) i j y :
  alter f i l !! j = Some y ->
  exists x, l !! j = Some x /\ y = if decide (i = j) then f x else x.
Proof.
  rewrite list_lookup_alter. case_decide as H; intros Hy.
  - subst j. destruct (l !! i) as [x|]; simpl in Hy; [|done].
    injection Hy as <-. eauto.
  - eauto.
Qed.

(** Membership in an insertion-ordered set. *)
Section SetData.
Context {A : Type} `{EqDecision A}.
Implicit Types (x y : A) (d : SetData A).

Lemma Set_has_true x d : Set_has x d = true <-> Some x ∈ d.
Proof. unfold Set_has. by rewrite bool_decide_eq_true. Qed.


Lemma Set_has_add x y d :
  Set_has y (Set_add x d) = true <-> y = x \/ Set_has y d = true.
Proof.
  unfold Set_add. destruct (Set_has x d) eqn:E; rewrite !Set_has_true.
  - apply Set_has_true in E. split; [auto|]. intros [->|]; auto.
  - rewrite elem_of_app, list_elem_of_singleton. split.
    + intros [?|[= ->]]; auto.
    + intros [->|?]; auto.
Qed.

Lemma Set_has_add_same x d : Set_has x (Set_add x d) = true.
Proof. apply Set_has_add. by left. Qed.

Lemma Set_has_delete x y d :
  Set_has y (Set_delete x d) = true <-> y <> x /\ Set_has y d = true.
Proof.
  unfold Set_delete. rewrite !Set_has_true, list_elem_of_fmap. split.
  - intros (e & He & Hin). destruct (decide (e = Some x)) as [->|Hne]; [done|].
    subst e. split; [congruence|done].
  - intros [Hne Hin]. exists (Some y). split; [|done].
    rewrite decide_False; [done|congruence].
Qed.

Lemma Set_has_delete_same x d : Set_has x (Set_delete x d) = false.
Proof.
  destruct (Set_has x (Set_delete x d)) eqn:E; [|done].
  apply Set_has_delete in E. by destruct E.
Qed.

Lemma Array_from_elem x d : x ∈ Array_from d <-> Some x ∈ d.
Proof.
  unfold Array_from. rewrite list_elem_of_omap. split.
  - intros ([y|] & Hin & Hy); simpl in Hy; by simplify_eq.
  - intros Hin. by exists (Some x).
Qed.

Lemma Set_add_has x d : Set_has x d = true -> Set_add x d = d.
Proof. unfold Set_add. by intros ->. Qed.
End SetData.

Lemma strict_eq_sym a b : strict_eq a b = strict_eq b a.
Proof.
  destruct a, b; simpl; try done.
  - apply bool_decide_ext. naive_solver.
  - apply Z.eqb_sym.
  - apply bool_decide_ext. naive_solver.
  - apply Nat.eqb_sym.
  - apply Nat.eqb_sym.
  - apply Nat.eqb_sym.
Qed.

(** [===] is reflexive on everything but [NaN]. *)
Lemma strict_eq_refl v : v <> VNaN -> strict_eq v v = true.
Proof.
  destruct v; simpl; intros H; try done;
    rewrite ?bool_decide_eq_true, ?Z.eqb_eq, ?Nat.eqb_eq; done.
Qed.

Lemma strict_eq_NaN v : strict_eq VNaN v = false.
Proof. done. Qed.

End Facts.

Module ImpactReactFacts.
Import JS Props Facts ImpactReact ImpactReactProps.

Lemma preserves_deref (P : State -> Prop) {A} (h : State -> list A) i :
  preserves P (deref h i).
Proof. intros s H. unfold deref. by destruct (h s !! i). Qed.

(** One step of a proof that a computation keeps a predicate; [side]
    discharges what a state update owes. *)
Ltac pres_step side :=
  lazymatch goal with
  | |- preserves _ (bind _ _) => apply preserves_bind; [|intros ?]
  | |- preserves _ (ret _) => apply preserves_ret
  | |- preserves _ (throw _) => apply preserves_throw
  | |- preserves _ out_of_fuel => apply preserves_out_of_fuel
  | |- preserves _ (gets _) => apply preserves_gets
  | |- preserves _ (deref _ _) => apply preserves_deref
  | |- preserves _ (when _ _) => apply preserves_when
  | |- preserves _ (attempt _) => apply preserves_attempt
  | |- preserves _ (Array_forEach _ _) => apply preserves_forEach; intros ?
  | |- preserves _ (modify _) => apply preserves_modify; side
  | |- preserves _ (match ?x with _ => _ end) => destruct x
  | |- preserves _ (fun s => (_, s)) => apply preserves_pure
  end.

Ltac unfold_engine :=
  unfold emit, current, new_ObserverContext, on_context, on_tracker,
    new_SignalTracker, subscribe, unsubscribe, dispose, call_hook,
    isResolvingContextFromComponent, track, enqueue, new_promise, react,
    settle, resolve.

Ltac pres side :=
  cbv zeta; repeat (first [pres_step side | progress unfold_engine]; cbv zeta).

Lemma deref_Some {A} (h : State -> list A) i x s :
  h s !! i = Some x -> deref h i s = (Ok x, s).
Proof. unfold deref. by intros ->. Qed.

Lemma bind_deref {A B} (h : State -> list A) i x (k : A -> Eng B) s :
  h s !! i = Some x -> bind (deref h i) k s = k x s.
Proof. intros H. unfold bind, deref. by rewrite H. Qed.

(** Running the straight-line head of a chain. *)
Ltac mrun :=
  repeat (cbv beta iota zeta;
          first [ rewrite bind_assoc | rewrite bind_ret_l
                | rewrite bind_modify | rewrite bind_gets ]).

(** *** Read/write exclusivity *)

Lemma registerSetter_getters T this :
  Set_has T (_getters (registerSetter T this)) = false.
Proof.
  unfold registerSetter; simpl.
  destruct (Set_has T (_getters this)) eqn:E; [|done].
  apply Set_has_delete_same.
Qed.

Lemma registerSetter_setters T this :
  Set_has T (_setters (registerSetter T this)) = true.
Proof. unfold registerSetter; simpl. apply Set_has_add_same. Qed.

Lemma registerGetter_blocked T this :
  Set_has T (_setters this) = true -> registerGetter T this = this.
Proof. unfold registerGetter. by intros ->. Qed.

Lemma registerGetter_after_registerSetter T this :
  registerGetter T (registerSetter T this) = registerSetter T this.
Proof. apply registerGetter_blocked, registerSetter_setters. Qed.

Lemma exclusive_registerGetter T this :
  exclusive this -> exclusive (registerGetter T this).
Proof.
  intros Hx U. unfold registerGetter.
  destruct (Set_has T (_setters this)) eqn:E; [apply Hx|]. simpl.
  rewrite Set_has_add. intros [->|HU] HS; [congruence|]. by eapply Hx.
Qed.

Lemma exclusive_registerSetter T this :
  exclusive this -> exclusive (registerSetter T this).
Proof.
  intros Hx U. unfold registerSetter. simpl. rewrite Set_has_add.
  intros HG [->|HS].
  - destruct (Set_has T (_getters this)) eqn:E; [|congruence].
    rewrite Set_has_delete_same in HG. done.
  - destruct (Set_has T (_getters this)) eqn:E; [|by eapply Hx].
    apply Set_has_delete in HG as [_ HG]. by eapply Hx.
Qed.

Lemma exclusive_fresh ty u cap : exclusive (mkContext ty [] [] u cap).
Proof. intros T H _. simpl in H. apply Set_has_true in H. by apply elem_of_nil in H. Qed.

Lemma all_exclusive_stable : stable all_exclusive.
Proof.
  split; intros; unfold all_exclusive, installed in *; simpl; try done.
  - apply Forall_app; split; [done|]. apply Forall_singleton, exclusive_fresh.
  - apply Forall_alter; [done|]. intros; by apply exclusive_registerGetter.
  - apply Forall_alter; [done|]. intros; by apply exclusive_registerSetter.
  - by destruct (currentAbortController cell).
Qed.

Lemma aborted_stable c : stable (aborted c).
Proof.
  split; intros; unfold aborted, installed in *; simpl; try done.
  apply lookup_app_l_Some.
  destruct (currentAbortController cell) as [c1|]; simpl; [|done].
  rewrite list_lookup_insert. case_decide as Hd; [|done].
  destruct Hd as [-> _]. done.
Qed.

Lemma controllers_live_stable : stable controllers_live.
Proof.
  split; try (intros; assumption).
  - intros v t s H sg cell c Hsg Hc. simpl in Hsg.
    apply lookup_app_Some in Hsg as [Hsg|[_ Hsg]].
    + destruct (H sg cell c Hsg Hc) as [H1 H2]. split; [done|].
      intros sg' cell' Hsg' Hc'. simpl in Hsg'.
      apply lookup_app_Some in Hsg' as [Hsg'|[_ Hsg']]; [by eapply H2|].
      apply list_lookup_singleton_Some in Hsg' as [_ <-]. done.
    + apply list_lookup_singleton_Some in Hsg as [_ <-]. done.
  - intros v sg0 s H sg cell c Hsg Hc. simpl in Hsg.
    apply lookup_alter_inv in Hsg as (x & Hx & ->).
    assert (currentAbortController x = Some c) as Hcx by by case_decide.
    destruct (H sg x c Hx Hcx) as [H1 H2]. split; [done|].
    intros sg' cell' Hsg' Hc'. simpl in Hsg'.
    apply lookup_alter_inv in Hsg' as (x' & Hx' & ->).
    assert (currentAbortController x' = Some c) as Hcx' by by case_decide.
    by eapply H2.
  - intros sg0 cell0 s Hsg0 H sg cell c Hsg Hc.
    unfold installed in *. simpl in Hsg.
    set (s1 := match currentAbortController cell0 with
               | Some c1 => upd_controllers (<[c1 := true]>) s
               | None => s
               end) in *.
    assert (forall c', currentAbortController cell0 <> Some c' ->
              controllers s1 !! c' = controllers s !! c') as Hkeep.
    { intros c' Hne. unfold s1. destruct (currentAbortController cell0) as [c1|]; [|done].
      simpl. apply list_lookup_insert_ne. congruence. }
    assert (length (controllers s1) = length (controllers s)) as Hlen.
    { unfold s1. destruct (currentAbortController cell0); simpl; by rewrite ?length_insert. }
    assert (forall sg1 cell1 c1,
              signals s !! sg1 = Some cell1 ->
              currentAbortController cell1 = Some c1 ->
              c1 < length (controllers s)) as Hold.
    { intros sg1 cell1 c1 H1 H2. destruct (H sg1 cell1 c1 H1 H2) as [Hl _].
      by eapply lookup_lt_Some. }
    assert (signals s1 = signals s) as Hsig.
    { unfold s1. by destruct (currentAbortController cell0). }
    rewrite Hsig in Hsg.
    apply lookup_alter_inv in Hsg as (x & Hx & ->).
    case_decide as Hd.
    + subst sg0. simpl in Hc. injection Hc as <-. split.
      * simpl. rewrite lookup_app_r by (rewrite Hlen; done).
        by rewrite Hlen, Nat.sub_diag.
      * intros sg' cell' Hsg' Hc'. simpl in Hsg'. rewrite Hsig in Hsg'.
        apply lookup_alter_inv in Hsg' as (x' & Hx' & ->).
        case_decide as Hd'; [done|].
        pose proof (Hold sg' x' _ Hx' Hc'). lia.
    + destruct (H sg x c Hx Hc) as [H1 H2].
      assert (currentAbortController cell0 <> Some c) as Hne.
      { intros Heq. apply Hd. by eapply H2. }
      split.
      * simpl. rewrite lookup_app_l by (rewrite Hlen; by eapply lookup_lt_Some).
        by rewrite Hkeep.
      * intros sg' cell' Hsg' Hc'. simpl in Hsg'. rewrite Hsig in Hsg'.
        apply lookup_alter_inv in Hsg' as (x' & Hx' & ->).
        case_decide as Hd'.
        -- subst sg0. simpl in Hc'. injection Hc' as <-.
           pose proof (Hold sg x _ Hx Hc). lia.
        -- by eapply H2.
Qed.

(** *** The engine keeps every stable predicate *)

Section Stable.
Variable P : State -> Prop.
Hypothesis HP : stable P.
Variable rec : Call -> Eng value.
Hypothesis rec_ok : forall c, preserves P (rec c).

Ltac side :=
  intros;
  first [ apply (st_stack P HP) | apply (st_version P HP)
        | apply (st_trackers P HP) | apply (st_new_signal P HP)
        | apply (st_set_value P HP)
        | apply (st_deriveds P HP) | apply (st_effects P HP)
        | apply (st_promises P HP) | apply (st_microtasks P HP)
        | apply (st_console P HP) | apply (st_hook_calls P HP)
        | apply (st_cleanups P HP) | apply (st_trace P HP)
        | apply (st_new_context P HP) | apply (st_registerGetter P HP)
        | apply (st_registerSetter P HP) ]; assumption.

Ltac go := pres side; try apply rec_ok.

Lemma stable_track t : preserves P (track t).
Proof. go. Qed.

Lemma stable_unsubscribe c : preserves P (unsubscribe c).
Proof. go. Qed.

Lemma stable_dispose c : preserves P (dispose c).
Proof. go. Qed.

Lemma stable_new_ObserverContext ty u : preserves P (new_ObserverContext ty u).
Proof. go. Qed.

Lemma stable_settle p o : preserves P (settle p o).
Proof. go. Qed.

Lemma stable_react p r : preserves P (react p r).
Proof. go. Qed.

Lemma stable_ObserverContext_notify c :
  preserves P (ObserverContext_notify rec c).
Proof. unfold ObserverContext_notify. go. Qed.

Lemma stable_SignalTracker_notify t :
  preserves P (SignalTracker_notify rec t).
Proof.
  unfold SignalTracker_notify. go. apply stable_ObserverContext_notify.
Qed.

Lemma createPromise_installed sg p s cell :
  signals s !! sg = Some cell ->
  createPromise sg p s
    = (wrapper <- new_promise (Unsettled []) ;;
       react p (Handlers sg (length (controllers s)) wrapper) ;;
       ret (VPromise wrapper Pending))
        (installed sg (currentAbortController cell) s).
Proof.
  intros Hsg. unfold createPromise, installed.
  rewrite (bind_deref _ _ _ _ _ Hsg).
  destruct (currentAbortController cell); mrun; simpl;
    rewrite ?length_insert; reflexivity.
Qed.

Lemma stable_createPromise sg p : preserves P (createPromise sg p).
Proof.
  intros s Hs. destruct (signals s !! sg) as [cell|] eqn:Hsg.
  - rewrite (createPromise_installed _ _ _ _ Hsg).
    assert (preserves P
      (wrapper <- new_promise (Unsettled []) ;;
       react p (Handlers sg (length (controllers s)) wrapper) ;;
       ret (VPromise wrapper Pending))) as Htail by go.
    apply Htail. by apply (st_installed P HP).
  - unfold createPromise, bind, deref. by rewrite Hsg.
Qed.

Lemma stable_on_fulfilled sg c v : preserves P (on_fulfilled rec sg c v).
Proof. unfold on_fulfilled. go. apply stable_SignalTracker_notify. Qed.

Lemma stable_on_rejected sg c v : preserves P (on_rejected rec sg c v).
Proof. unfold on_rejected. go. apply stable_SignalTracker_notify. Qed.

Lemma stable_signal v : preserves P (signal v).
Proof. unfold signal. go; apply stable_createPromise. Qed.

Lemma stable_signal_get sg : preserves P (signal_get sg).
Proof. unfold signal_get. go. Qed.

Lemma stable_signal_set sg v : preserves P (signal_set rec sg v).
Proof.
  unfold signal_set. go;
    first [apply stable_createPromise | apply stable_SignalTracker_notify].
Qed.

Lemma stable_derived cb : preserves P (derived cb).
Proof. unfold derived. go. Qed.

Lemma stable_derived_get d : preserves P (derived_get rec d).
Proof. unfold derived_get. go. Qed.

Lemma stable_updater e : preserves P (updater rec e).
Proof. unfold updater. go. Qed.

Lemma stable_effect cb : preserves P (effect rec cb).
Proof. unfold effect. go. apply stable_updater. Qed.

Lemma stable_observer host : preserves P (observer host).
Proof. unfold observer. go. Qed.

Lemma stable_exec p : preserves P (exec rec p).
Proof.
  induction p; simpl.
  - apply preserves_ret.
  - apply preserves_throw.
  - apply preserves_bind; [apply stable_signal_get|auto].
  - apply preserves_bind; [apply stable_signal_set|auto].
  - apply preserves_bind; [apply stable_derived_get|auto].
  - apply preserves_bind; [apply preserves_pure|auto].
Qed.

Lemma stable_step c : preserves P (step rec c).
Proof.
  destruct c; simpl.
  - apply preserves_bind; [apply stable_SignalTracker_notify|intros; apply preserves_ret].
  - go. apply stable_updater.
  - apply stable_exec.
Qed.

Lemma stable_run_task t : preserves P (run_task rec t).
Proof.
  unfold run_task. go;
    first [apply stable_on_fulfilled | apply stable_on_rejected
          | apply stable_SignalTracker_notify].
Qed.

Lemma stable_run_microtask : preserves P (run_microtask rec).
Proof. unfold run_microtask. go. apply stable_run_task. Qed.
End Stable.

Lemma stable_eval P (HP : stable P) fuel c : preserves P (eval fuel c).
Proof.
  revert c. induction fuel as [|n IH]; intros c; simpl.
  - apply preserves_out_of_fuel.
  - by apply stable_step.
Qed.

Lemma stable_perform P (HP : stable P) fuel a : preserves P (perform fuel a).
Proof.
  pose proof (stable_eval P HP fuel) as Hrec.
  destruct a; simpl;
    repeat (apply preserves_bind; [|intros; apply preserves_ret]);
    eauto using stable_signal, stable_derived, stable_effect, stable_observer,
      stable_dispose, stable_unsubscribe, stable_signal_get, stable_signal_set,
      stable_derived_get, stable_settle, stable_run_microtask.
  unfold new_promise. pres ltac:(intros; by apply (st_promises P HP)).
Qed.

Lemma stable_run P (HP : stable P) fuel script s : P s -> P (run fuel script s).
Proof.
  revert s. induction script as [|a script IH]; intros s Hs; simpl; [done|].
  apply IH. by apply stable_perform.
Qed.

(** *** Reads outside any context, writes of the stored value *)

Lemma current_empty s : stack s = [] -> current s = (Ok None, s).
Proof. unfold current, gets. by intros ->. Qed.

Lemma track_empty t s : stack s = [] -> track t s = (Ok tt, s).
Proof. intros H. unfold track, bind. by rewrite current_empty. Qed.

Lemma signal_get_empty s sg cell :
  stack s = [] -> signals s !! sg = Some cell ->
  signal_get sg s = (Ok (sig_value cell), s).
Proof.
  intros Hst Hsg. unfold signal_get, bind.
  rewrite (deref_Some _ _ _ _ Hsg), (track_empty _ _ Hst).
  by rewrite (deref_Some _ _ _ _ Hsg).
Qed.

Lemma signal_set_same rec s sg cell v :
  signals s !! sg = Some cell -> strict_eq (sig_value cell) v = true ->
  signal_set rec sg v s = (Ok tt, warned v s).
Proof.
  intros Hsg Heq. unfold signal_set, bind, warned.
  rewrite (deref_Some _ _ _ _ Hsg), Heq. unfold gets.
  by destruct (development s && is_object v).
Qed.

(** *** The derived getter around its callback *)

Lemma derived_get_phases rec d s :
  derived_get rec d s =
    (x <- derived_enter d ;;
     match x with
     | Some (context, cell) =>
         v <- rec (CallUser (der_cb cell)) ;;
         derived_leave d (Some (context, cell, v))
     | None => derived_leave d None
     end) s.
Proof. unfold derived_get, derived_enter, derived_leave. mnorm. Qed.

Lemma new_ObserverContext_eq ty u s :
  new_ObserverContext ty u s =
    (Ok (length (contexts s)),
     upd_stack (fun st => st ++ [length (contexts s)])
       (upd_contexts (fun h => h ++ [mkContext ty [] [] u (onGetValue (hooks s))]) s)).
Proof. reflexivity. Qed.





(** *** How often a derived computes *)

Lemma computes_app d t1 t2 : computes d (t1 ++ t2) = computes d t1 + computes d t2.
Proof. unfold computes. by rewrite filter_app, length_app. Qed.

Lemma computes_one d : computes d [EvCompute d] = 1.
Proof.
  unfold computes. rewrite filter_cons_True; [done|].
  simpl. by rewrite Nat.eqb_refl.
Qed.

Lemma computes_update d c v : computes d [EvUpdate c v] = 0.
Proof. done. Qed.

Ltac frame_side := let s := fresh in let H := fresh in intros s H; simpl; exact H.

Lemma track_trace t tr : preserves (fun s => trace s = tr) (track t).
Proof. pres frame_side. Qed.

Lemma track_deriveds t ds : preserves (fun s => deriveds s = ds) (track t).
Proof. pres frame_side. Qed.

Lemma unsubscribe_trace c tr : preserves (fun s => trace s = tr) (unsubscribe c).
Proof. pres frame_side. Qed.

Lemma derived_leave_trace d x tr : preserves (fun s => trace s = tr) (derived_leave d x).
Proof. unfold derived_leave. pres frame_side. Qed.

(** From a run and a predicate it keeps. *)
Lemma preserves_run {A} (P : State -> Prop) (m : Eng A) s r s' :
  preserves P m -> m s = (r, s') -> P s -> P s'.
Proof. intros Hm Hrun Hs. specialize (Hm s Hs). by rewrite Hrun in Hm. Qed.

(** A component that a computation leaves alone. *)
Lemma kept {A B} (f : State -> B) (m : Eng A) s r s' :
  (forall b, preserves (fun s => f s = b) m) -> m s = (r, s') -> f s' = f s.
Proof. intros Hm Hrun. by apply (preserves_run _ _ _ _ _ (Hm (f s)) Hrun). Qed.

Lemma deref_inv {A} (h : State -> list A) i s x s' :
  deref h i s = (Ok x, s') -> s' = s /\ h s !! i = Some x.
Proof. unfold deref. destruct (h s !! i); intros [= <- <-]; done. Qed.

Lemma derived_enter_trace d s context cell s1 :
  derived_enter d s = (Ok (Some (context, cell)), s1) ->
  trace s1 = trace s ++ [EvCompute d].
Proof.
  unfold derived_enter. intros H.
  apply bind_Ok_inv in H as (c0 & sa & Ha & H). apply deref_inv in Ha as [-> _].
  apply bind_Ok_inv in H as ([] & sb & Hb & H).
  apply (kept trace _ _ _ _ (track_trace _)) in Hb.
  apply bind_Ok_inv in H as (c1 & sc & Hc & H). apply deref_inv in Hc as [-> _].
  destruct (isDirty c1); [|done].
  apply bind_Ok_inv in H as ([] & sd & Hd & H).
  assert (trace sd = trace s) as Htr.
  { destruct (disposer c1).
    - apply (kept trace _ _ _ _ (unsubscribe_trace _)) in Hd. congruence.
    - by injection Hd as <-. }
  apply bind_Ok_inv in H as (c & se & Hnew & H).
  rewrite new_ObserverContext_eq in Hnew. injection Hnew as <- <-.
  unfold emit in H. cbv [bind modify ret] in H. injection H as <- <- <-.
  simpl. by rewrite Htr.
Qed.

(** A read of a clean derived: the tracked read and the cached value. *)
Lemma derived_get_clean rec d s cell :
  deriveds s !! d = Some cell -> isDirty cell = false ->
  derived_get rec d s
    = (track (der_tracker cell) ;; ret (der_value cell)) s.
Proof.
  intros Hd Hclean. unfold derived_get.
  rewrite (bind_Ok _ _ _ _ _ (deref_Some _ _ _ _ Hd)).
  apply bind_ext_run. intros [] s' Htr.
  assert (deriveds s' !! d = Some cell) as Hd'.
  { by rewrite (kept deriveds _ _ _ _ (track_deriveds _) Htr). }
  rewrite (bind_Ok _ _ _ _ _ (deref_Some _ _ _ _ Hd')). rewrite Hclean.
  rewrite bind_ret_l. by rewrite (bind_Ok _ _ _ _ _ (deref_Some _ _ _ _ Hd')).
Qed.

Lemma derived_get_clean_computes rec d s cell :
  deriveds s !! d = Some cell -> isDirty cell = false ->
  computes d (trace (derived_get rec d s).2) = computes d (trace s).
Proof.
  intros Hd Hclean. rewrite (derived_get_clean rec d s cell Hd Hclean).
  unfold bind. destruct (track (der_tracker cell) s) as [[[]|e|] s'] eqn:Htr; simpl;
    by rewrite (kept trace _ _ _ _ (track_trace _) Htr).
Qed.

(** A read of a dirty derived around the one call of [cb]. *)
Lemma derived_get_dirty rec d s context cell s1 :
  derived_enter d s = (Ok (Some (context, cell)), s1) ->
  derived_get rec d s
    = (v <- rec (CallUser (der_cb cell)) ;;
       derived_leave d (Some (context, cell, v))) s1.
Proof.
  intros Henter. rewrite derived_get_phases. by rewrite (bind_Ok _ _ _ _ _ Henter).
Qed.

Lemma derived_get_dirty_computes rec d s context cell s1 r s2 :
  derived_enter d s = (Ok (Some (context, cell)), s1) ->
  rec (CallUser (der_cb cell)) s1 = (r, s2) ->
  computes d (trace s1) = computes d (trace s) + 1 /\
  computes d (trace (derived_get rec d s).2) = computes d (trace s2).
Proof.
  intros Henter Hcb. split.
  - rewrite (derived_enter_trace _ _ _ _ _ Henter), computes_app, computes_one. done.
  - rewrite (derived_get_dirty rec _ _ _ _ _ Henter). unfold bind. rewrite Hcb.
    destruct r as [v|e|]; [|done..].
    destruct (derived_leave d (Some (context, cell, v)) s2) as [r' s3] eqn:Hl.
    simpl. by rewrite (kept trace _ _ _ _ (derived_leave_trace _ _) Hl).
Qed.

(** The [_onUpdate] of a derived's context. *)
Lemma derived_notification rec c s ctx d cell :
  contexts s !! c = Some ctx -> _onUpdate ctx = OnDerived d ->
  deriveds s !! d = Some cell ->
  ObserverContext_notify rec c s
    = (rec (CallNotify (der_tracker cell)) ;; ret tt) (marked_dirty c d s).
Proof.
  intros Hc Hu Hd. unfold ObserverContext_notify.
  rewrite (bind_Ok _ _ _ _ _ (deref_Some _ _ _ _ Hc)).
  cbv [bind gets modify emit]. cbv beta iota. rewrite Hu.
  unfold deref at 1. simpl. rewrite Hd. reflexivity.
Qed.

Lemma marked_dirty_computes c d s :
  computes d (trace (marked_dirty c d s)) = computes d (trace s).
Proof. unfold marked_dirty. simpl. rewrite computes_app, computes_update. lia. Qed.

(** *** The notification pass *)


(** *** Asynchronous values *)

Lemma createPromise_eq sg p s cell pst :
  signals s !! sg = Some cell -> promises s !! p = Some pst ->
  createPromise sg p s
    = (Ok (VPromise (length (promises s)) Pending),
       created sg p (currentAbortController cell) pst s).
Proof.
  intros Hsg Hp. rewrite (createPromise_installed _ _ _ _ Hsg).
  unfold created, new_promise, react. mrun.
  assert (promises (installed sg (currentAbortController cell) s) = promises s) as Hpr.
  { unfold installed. by destruct (currentAbortController cell). }
  rewrite !Hpr.
  assert (promises (upd_promises (fun h => h ++ [Unsettled []])
            (installed sg (currentAbortController cell) s)) !! p = Some pst) as Hp'.
  { change (promises (upd_promises ?f ?x)) with (f (promises x)). cbv beta.
    rewrite Hpr. by apply lookup_app_l_Some. }
  rewrite (bind_deref _ _ _ _ _ Hp').
  destruct pst; unfold enqueue; mrun; reflexivity.
Qed.

Lemma hooked_eq t v s :
  (installed <- gets (fun s => onSetValue (hooks s)) ;;
   when installed
     (call_hook onSetValue (HookSetValue t v false) ;;
      cur <- current ;;
      match cur with
      | Some c => on_context c (registerSetter t)
      | None => ret tt
      end)) s
  = (Ok tt, hooked t v s).
Proof.
  unfold hooked. rewrite bind_gets.
  destruct (onSetValue (hooks s)) eqn:Hh; [|done].
  unfold when, call_hook, current, on_context. mrun. simpl. rewrite Hh.
  unfold when. mrun. simpl. by destruct (last (stack s)).
Qed.

Lemma hooked_signals t v s : signals (hooked t v s) = signals s.
Proof. unfold hooked. destruct (onSetValue _); [|done]. by destruct (last _). Qed.

Lemma hooked_trace t v s : trace (hooked t v s) = trace s.
Proof. unfold hooked. destruct (onSetValue _); [|done]. by destruct (last _). Qed.

Lemma hooked_controllers t v s : controllers (hooked t v s) = controllers s.
Proof. unfold hooked. destruct (onSetValue _); [|done]. by destruct (last _). Qed.

Lemma hooked_microtasks t v s : microtasks (hooked t v s) = microtasks s.
Proof. unfold hooked. destruct (onSetValue _); [|done]. by destruct (last _). Qed.

Lemma hooked_promises t v s : promises (hooked t v s) = promises s.
Proof. unfold hooked. destruct (onSetValue _); [|done]. by destruct (last _). Qed.

Lemma hooked_version t v s : version (hooked t v s) = version s.
Proof. unfold hooked. destruct (onSetValue _); [|done]. by destruct (last _). Qed.

Lemma hooked_trackers t v s : trackers (hooked t v s) = trackers s.
Proof. unfold hooked. destruct (onSetValue _); [|done]. by destruct (last _). Qed.

(** The setter given a promise. *)
Lemma signal_set_promise rec sg p st s cell pst :
  signals s !! sg = Some cell -> promises s !! p = Some pst ->
  strict_eq (sig_value cell) (VPromise p st) = false ->
  allocated s (sig_value cell) ->
  signal_set rec sg (VPromise p st) s = (Ok tt, stored_promise sg p cell pst s).
Proof.
  intros Hsg Hp Hne Hall. unfold signal_set.
  rewrite (bind_deref _ _ _ _ _ Hsg), Hne.
  rewrite (bind_Ok _ _ _ _ _ (createPromise_eq _ _ _ _ _ Hsg Hp)).
  set (s1 := created _ _ _ _ _).
  assert (signals s1 = alter (set_currentAbortController (length (controllers s))) sg (signals s))
    as Hs1.
  { unfold s1, created. by destruct (currentAbortController cell), pst. }
  erewrite bind_deref; [|rewrite Hs1, list_lookup_alter_eq, Hsg; reflexivity].
  cbv zeta. rewrite bind_modify.
  rewrite <- bind_assoc. rewrite (bind_Ok _ _ _ _ _ (hooked_eq _ _ _)).
  erewrite bind_deref;
    [|rewrite hooked_signals; simpl; rewrite Hs1, !list_lookup_alter_eq, Hsg; reflexivity].
  simpl.
  assert (match sig_value cell with
          | VPromise y _ => Nat.eqb (length (promises s)) y
          | _ => false
          end = false) as ->; [|reflexivity].
  destruct (sig_value cell); simpl in *; try done. apply Nat.eqb_neq. lia.
Qed.

(** The setter given a new value that is not a promise. *)
Lemma signal_set_plain rec sg v s cell :
  signals s !! sg = Some cell ->
  strict_eq (sig_value cell) v = false -> instanceof_Promise v = false ->
  signal_set rec sg v s
    = (SignalTracker_notify rec (sig_tracker cell) ;; ret tt) (stored sg v cell s).
Proof.
  intros Hsg Hne Hnp. unfold signal_set.
  rewrite (bind_deref _ _ _ _ _ Hsg), Hne.
  assert ((match v with VPromise p _ => createPromise sg p | _ => ret v end) = ret v) as ->.
  { by destruct v. }
  rewrite bind_ret_l. rewrite (bind_deref _ _ _ _ _ Hsg).
  cbv zeta. rewrite bind_modify.
  rewrite <- bind_assoc. rewrite (bind_Ok _ _ _ _ _ (hooked_eq _ _ _)).
  erewrite bind_deref;
    [|rewrite hooked_signals; simpl; rewrite list_lookup_alter_eq, Hsg; reflexivity].
  simpl. rewrite strict_eq_sym, Hne, Hnp. reflexivity.
Qed.

Lemma same_graph_refl s : same_graph s s.
Proof. by repeat split. Qed.

Ltac graph_side :=
  let s := fresh in let H := fresh in
  intros s H; unfold same_graph in *; simpl; exact H.

Lemma settle_same_graph p o s0 : preserves (same_graph s0) (settle p o).
Proof. pres graph_side. Qed.

Lemma enqueue_same_graph t s0 : preserves (same_graph s0) (enqueue t).
Proof. pres graph_side. Qed.

Lemma on_fulfilled_aborted rec sg c v s :
  aborted c s -> on_fulfilled rec sg c v s = (Ok VUndefined, s).
Proof. intros H. unfold on_fulfilled. by rewrite (bind_deref _ _ _ _ _ H). Qed.

Lemma on_rejected_aborted rec sg c e s :
  aborted c s -> on_rejected rec sg c e s = (Ok VUndefined, s).
Proof. intros H. unfold on_rejected. by rewrite (bind_deref _ _ _ _ _ H). Qed.

(** The settlement jobs of an aborted operation. *)
Lemma aborted_then rec sg c w o s :
  aborted c s -> same_graph s (run_task rec (TThen (Handlers sg c w) o) s).2.
Proof.
  intros H. destruct o as [v|e]; simpl.
  - unfold attempt, bind. rewrite (on_fulfilled_aborted _ _ _ _ _ H).
    apply enqueue_same_graph, same_graph_refl.
  - apply enqueue_same_graph, same_graph_refl.
Qed.

Lemma aborted_catch rec sg c w o s :
  aborted c s -> same_graph s (run_task rec (TCatch sg c w o) s).2.
Proof.
  intros H. destruct o as [v|e]; simpl.
  - apply settle_same_graph, same_graph_refl.
  - unfold attempt, bind. rewrite (on_rejected_aborted _ _ _ _ _ H). simpl.
    apply settle_same_graph, same_graph_refl.
Qed.

(** The settlement jobs of a live operation. *)
Lemma live_then rec sg c w v s cell :
  controllers s !! c = Some false -> signals s !! sg = Some cell ->
  run_task rec (TThen (Handlers sg c w) (Fulfill v)) s
    = (r <- attempt (SignalTracker_notify rec (sig_tracker cell) ;; ret v) ;;
       match r with
       | inl v' => enqueue (TCatch sg c w (Fulfill v'))
       | inr e => enqueue (TCatch sg c w (Reject e))
       end) (settled_state sg (Fulfill v) s).
Proof.
  intros Hc Hsg. simpl. unfold on_fulfilled, settled_state, new_promise.
  unfold bind at 1. unfold attempt at 1. rewrite (bind_deref _ _ _ _ _ Hc).
  mrun. erewrite bind_deref; [|simpl; rewrite list_lookup_alter_eq, Hsg; reflexivity].
  reflexivity.
Qed.

Lemma live_catch rec sg c w e s cell :
  controllers s !! c = Some false -> signals s !! sg = Some cell ->
  run_task rec (TCatch sg c w (Reject e)) s
    = (r <- attempt (SignalTracker_notify rec (sig_tracker cell) ;;
                     ret (VPromise (length (promises s)) (Rejected e))) ;;
       match r with
       | inl v => resolve w v
       | inr e' => settle w (Reject e')
       end) (settled_state sg (Reject e) s).
Proof.
  intros Hc Hsg. simpl. unfold on_rejected, settled_state, new_promise.
  unfold bind at 1. unfold attempt at 1. rewrite (bind_deref _ _ _ _ _ Hc).
  mrun. erewrite bind_deref; [|simpl; rewrite list_lookup_alter_eq, Hsg; reflexivity].
  reflexivity.
Qed.

(** What assigning a promise leaves behind. *)
Lemma created_controllers sg p c1 pst s b :
  controllers s !! c1 = Some b ->
  controllers (created sg p (Some c1) pst s) !! c1 = Some true /\
  controllers (created sg p (Some c1) pst s) !! length (controllers s) = Some false.
Proof.
  intros Hc1. pose proof (lookup_lt_Some _ _ _ Hc1) as Hlt.
  unfold created. destruct pst; simpl.
  - split.
    + rewrite lookup_app_l by (by rewrite length_insert).
      by rewrite list_lookup_insert_eq.
    + rewrite lookup_app_r by (by rewrite length_insert).
      by rewrite length_insert, Nat.sub_diag.
  - split.
    + rewrite lookup_app_l by (by rewrite length_insert).
      by rewrite list_lookup_insert_eq.
    + rewrite lookup_app_r by (by rewrite length_insert).
      by rewrite length_insert, Nat.sub_diag.
Qed.

Lemma created_signals sg p c1 pst s :
  signals (created sg p c1 pst s)
    = alter (set_currentAbortController (length (controllers s))) sg (signals s).
Proof. unfold created. by destruct c1, pst. Qed.

Lemma created_trace sg p c1 pst s : trace (created sg p c1 pst s) = trace s.
Proof. unfold created. by destruct c1, pst. Qed.

Lemma created_microtasks sg p c1 pst s :
  microtasks (created sg p c1 pst s)
    = microtasks s ++
      match pst with
      | Settled o =>
          [TThen (Handlers sg (length (controllers s)) (length (promises s))) o]
      | Unsettled _ => []
      end.
Proof. unfold created. destruct c1, pst; simpl; by rewrite ?app_nil_r. Qed.

Lemma created_version sg p c1 pst s : version (created sg p c1 pst s) = version s.
Proof. unfold created. by destruct c1, pst. Qed.

Lemma stored_promise_quiet sg p cell pst s :
  signals s !! sg = Some cell ->
  let s' := stored_promise sg p cell pst s in
  trace s' = trace s /\ version s' = version s /\
  microtasks s'
    = microtasks s ++
      match pst with
      | Settled o =>
          [TThen (Handlers sg (length (controllers s)) (length (promises s))) o]
      | Unsettled _ => []
      end ++ [TCheck sg] /\
  exists cell',
    signals s' !! sg = Some cell' /\
    sig_value cell' = VPromise (length (promises s)) Pending.
Proof.
  intros Hsg s'. unfold s', stored_promise. simpl.
  rewrite hooked_trace, hooked_version, hooked_microtasks, hooked_signals. simpl.
  rewrite created_trace, created_version, created_microtasks, created_signals.
  rewrite !list_lookup_alter_eq, Hsg, <- app_assoc. simpl.
  repeat split. eexists. split; reflexivity.
Qed.

Lemma stored_facts sg v cell s :
  signals s !! sg = Some cell ->
  signals (stored sg v cell s) !! sg = Some (set_sig_value v cell) /\
  microtasks (stored sg v cell s) = microtasks s /\
  trace (stored sg v cell s) = trace s.
Proof.
  intros Hsg. unfold stored.
  rewrite hooked_signals, hooked_microtasks, hooked_trace. simpl.
  by rewrite list_lookup_alter_eq, Hsg.
Qed.

(** The deferred check. *)
Lemma run_check rec sg s cell :
  signals s !! sg = Some cell ->
  run_task rec (TCheck sg) s
    = if is_pending (sig_value cell)
      then (SignalTracker_notify rec (sig_tracker cell) ;; ret tt) s
      else (Ok tt, s).
Proof.
  intros Hsg. simpl. rewrite (bind_deref _ _ _ _ _ Hsg).
  by destruct (is_pending (sig_value cell)).
Qed.

(** The host takes the oldest job. *)
Lemma run_microtask_next rec t q s :
  microtasks s = t :: q ->
  run_microtask rec s
    = (attempt (run_task rec t) ;; ret true) (upd_microtasks (fun q => tail q) s).
Proof.
  intros Hq. unfold run_microtask. rewrite bind_gets, Hq. by rewrite bind_modify.
Qed.

Lemma stored_promise_facts sg p cell pst s c1 b :
  signals s !! sg = Some cell -> currentAbortController cell = Some c1 ->
  controllers s !! c1 = Some b ->
  let s' := stored_promise sg p cell pst s in
  aborted c1 s' /\
  controllers s' !! length (controllers s) = Some false /\
  signals s' !! sg
    = Some (mkSignal (VPromise (length (promises s)) Pending)
              (Some (length (controllers s))) (sig_tracker cell)) /\
  trace s' = trace s.
Proof.
  intros Hsg Hc Hc1 s'. unfold s', stored_promise, aborted. simpl.
  rewrite hooked_controllers, hooked_signals, hooked_trace. simpl.
  rewrite Hc. destruct (created_controllers sg p c1 pst s b Hc1) as [H1 H2].
  rewrite created_signals, created_trace, !list_lookup_alter_eq, Hsg.
  done.
Qed.

End ImpactReactFacts.

Module LegacyFacts.
Import JS Props Facts Legacy LegacyProps.

Lemma legacy_preserves_deref (P : State -> Prop) {A} (h : State -> list A) i :
  preserves P (deref h i).
Proof. intros s H. unfold deref. by destruct (h s !! i). Qed.

Ltac legacy_pres_step side :=
  lazymatch goal with
  | |- preserves _ (bind _ _) => apply preserves_bind; [|intros ?]
  | |- preserves _ (ret _) => apply preserves_ret
  | |- preserves _ (throw _) => apply preserves_throw
  | |- preserves _ out_of_fuel => apply preserves_out_of_fuel
  | |- preserves _ (gets _) => apply preserves_gets
  | |- preserves _ (deref _ _) => apply legacy_preserves_deref
  | |- preserves _ (when _ _) => apply preserves_when
  | |- preserves _ (Array_forEach _ _) => apply preserves_forEach; intros ?
  | |- preserves _ (modify _) => apply preserves_modify; side
  | |- preserves _ (match ?x with _ => _ end) => destruct x
  end.

Ltac legacy_unfold_engine :=
  unfold emit, debug, current, new_ObserverContext, SignalTracker_getValue,
    registerSignal, on_tracker, new_SignalTracker, subscribe, unsubscribe,
    dispose, track.

Ltac legacy_pres side :=
  cbv zeta;
  repeat (first [legacy_pres_step side | progress legacy_unfold_engine]; cbv zeta).

Ltac legacy_frame_side :=
  let s := fresh in let H := fresh in intros s H; simpl; exact H.

Lemma legacy_preserves_run {A} (P : State -> Prop) (m : Eng A) s r s' :
  preserves P m -> m s = (r, s') -> P s -> P s'.
Proof. intros Hm Hrun Hs. specialize (Hm s Hs). by rewrite Hrun in Hm. Qed.

Lemma legacy_kept {A B} (f : State -> B) (m : Eng A) s r s' :
  (forall b, preserves (fun s => f s = b) m) -> m s = (r, s') -> f s' = f s.
Proof. intros Hm Hrun. by apply (legacy_preserves_run _ _ _ _ _ (Hm (f s)) Hrun). Qed.

Lemma legacy_deref_inv {A} (h : State -> list A) i s x s' :
  deref h i s = (Ok x, s') -> s' = s /\ h s !! i = Some x.
Proof. unfold deref. destruct (h s !! i); intros [= <- <-]; done. Qed.

Lemma legacy_deref_Some {A} (h : State -> list A) i x s :
  h s !! i = Some x -> deref h i s = (Ok x, s).
Proof. unfold deref. by intros ->. Qed.

Lemma legacy_current_empty s : stack s = [] -> current s = (Ok None, s).
Proof. unfold current, gets. by intros ->. Qed.

Lemma legacy_track_empty t s : stack s = [] -> track t s = (Ok tt, s).
Proof. intros H. unfold track, bind. by rewrite legacy_current_empty. Qed.

Lemma legacy_signal_get_empty s sg cell :
  stack s = [] -> signals s !! sg = Some cell ->
  signal_get sg s = (Ok (sig_value cell), s).
Proof.
  intros Hst Hsg. unfold signal_get, bind.
  rewrite (legacy_deref_Some _ _ _ _ Hsg), (legacy_track_empty _ _ Hst).
  by rewrite (legacy_deref_Some _ _ _ _ Hsg).
Qed.

Lemma legacy_signal_set_same rec s sg cell v :
  signals s !! sg = Some cell -> strict_eq (sig_value cell) v = true ->
  signal_set rec sg v s = (Ok tt, warned v s).
Proof.
  intros Hsg Heq. unfold signal_set, bind, warned.
  rewrite (legacy_deref_Some _ _ _ _ Hsg), Heq. unfold gets.
  by destruct (development s && is_object v).
Qed.

Lemma derive_get_phases rec d s :
  derive_get rec d s =
    (x <- derive_enter d ;;
     match x with
     | Some (context, cell) =>
         v <- rec (CallUser (der_cb cell)) ;;
         derive_leave d (Some (context, cell, the_value v))
     | None => derive_leave d None
     end) s.
Proof. unfold derive_get, derive_enter, derive_leave. mnorm. Qed.

Lemma legacy_new_ObserverContext_eq s :
  new_ObserverContext s =
    (Ok (length (contexts s)),
     upd_stack (fun st => st ++ [length (contexts s)])
       (upd_contexts (fun h => h ++ [mkContext [] None (snapshots s) []])
          (upd_snapshots S s))).
Proof. reflexivity. Qed.



(** *** How often a legacy derived computes *)

Lemma legacy_computes_app d t1 t2 :
  computes d (t1 ++ t2) = computes d t1 + computes d t2.
Proof. unfold computes. by rewrite filter_app, length_app. Qed.

Lemma legacy_computes_one d : computes d [EvCompute d] = 1.
Proof.
  unfold computes. rewrite filter_cons_True; [done|].
  simpl. by rewrite Nat.eqb_refl.
Qed.

Lemma legacy_track_trace t tr : preserves (fun s => trace s = tr) (track t).
Proof. legacy_pres legacy_frame_side. Qed.

Lemma legacy_track_derives t ds : preserves (fun s => derives s = ds) (track t).
Proof. legacy_pres legacy_frame_side. Qed.

Lemma legacy_unsubscribe_trace c tr :
  preserves (fun s => trace s = tr) (unsubscribe c).
Proof. legacy_pres legacy_frame_side. Qed.

Lemma derive_leave_trace d x tr : preserves (fun s => trace s = tr) (derive_leave d x).
Proof. unfold derive_leave. legacy_pres legacy_frame_side. Qed.

Lemma derive_enter_trace d s context cell s1 :
  derive_enter d s = (Ok (Some (context, cell)), s1) ->
  trace s1 = trace s ++ [EvCompute d].
Proof.
  unfold derive_enter. intros H.
  apply bind_Ok_inv in H as (c0 & sa & Ha & H). apply legacy_deref_inv in Ha as [-> _].
  apply bind_Ok_inv in H as ([] & sb & Hb & H).
  apply (legacy_kept trace _ _ _ _ (legacy_track_trace _)) in Hb.
  apply bind_Ok_inv in H as (c1 & sc & Hc & H). apply legacy_deref_inv in Hc as [-> _].
  destruct (isDirty c1); [|done].
  apply bind_Ok_inv in H as ([] & sd & Hd & H).
  assert (trace sd = trace s) as Htr.
  { destruct (disposer c1).
    - apply (legacy_kept trace _ _ _ _ (legacy_unsubscribe_trace _)) in Hd. congruence.
    - by injection Hd as <-. }
  apply bind_Ok_inv in H as (c & se & Hnew & H).
  rewrite legacy_new_ObserverContext_eq in Hnew. injection Hnew as <- <-.
  unfold emit in H. cbv [bind modify ret] in H. injection H as <- <- <-.
  simpl. by rewrite Htr.
Qed.

Lemma derive_get_clean rec d s cell :
  derives s !! d = Some cell -> isDirty cell = false ->
  derive_get rec d s
    = (track (der_tracker cell) ;; ret (der_value cell)) s.
Proof.
  intros Hd Hclean. unfold derive_get.
  rewrite (bind_Ok _ _ _ _ _ (legacy_deref_Some _ _ _ _ Hd)).
  apply bind_ext_run. intros [] s' Htr.
  assert (derives s' !! d = Some cell) as Hd'.
  { by rewrite (legacy_kept derives _ _ _ _ (legacy_track_derives _) Htr). }
  rewrite (bind_Ok _ _ _ _ _ (legacy_deref_Some _ _ _ _ Hd')). rewrite Hclean.
  rewrite bind_ret_l. by rewrite (bind_Ok _ _ _ _ _ (legacy_deref_Some _ _ _ _ Hd')).
Qed.

Lemma derive_get_clean_computes rec d s cell :
  derives s !! d = Some cell -> isDirty cell = false ->
  computes d (trace (derive_get rec d s).2) = computes d (trace s).
Proof.
  intros Hd Hclean. rewrite (derive_get_clean rec d s cell Hd Hclean).
  unfold bind. destruct (track (der_tracker cell) s) as [[[]|e|] s'] eqn:Htr; simpl;
    by rewrite (legacy_kept trace _ _ _ _ (legacy_track_trace _) Htr).
Qed.

Lemma derive_get_dirty rec d s context cell s1 :
  derive_enter d s = (Ok (Some (context, cell)), s1) ->
  derive_get rec d s
    = (v <- rec (CallUser (der_cb cell)) ;;
       derive_leave d (Some (context, cell, the_value v))) s1.
Proof.
  intros Henter. rewrite derive_get_phases. by rewrite (bind_Ok _ _ _ _ _ Henter).
Qed.

Lemma derive_get_dirty_computes rec d s context cell s1 r s2 :
  derive_enter d s = (Ok (Some (context, cell)), s1) ->
  rec (CallUser (der_cb cell)) s1 = (r, s2) ->
  computes d (trace s1) = computes d (trace s) + 1 /\
  computes d (trace (derive_get rec d s).2) = computes d (trace s2).
Proof.
  intros Henter Hcb. split.
  - rewrite (derive_enter_trace _ _ _ _ _ Henter), legacy_computes_app,
      legacy_computes_one. done.
  - rewrite (derive_get_dirty rec _ _ _ _ _ Henter). unfold bind. rewrite Hcb.
    destruct r as [v|e|]; [|done..].
    destruct (derive_leave d (Some (context, cell, the_value v)) s2) as [r' s3] eqn:Hl.
    simpl. by rewrite (legacy_kept trace _ _ _ _ (derive_leave_trace _ _) Hl).
Qed.

(** The closure that [derive] subscribed, without and with listeners. *)
Lemma derive_notification_idle rec c s ctx d cell :
  contexts s !! c = Some ctx -> _onUpdate ctx = Some (OnDerive d) ->
  derives s !! d = Some cell -> has_listeners (der_listeners cell) = false ->
  ObserverContext_notify rec c s
    = (rec (CallNotify (der_tracker cell)) ;;
       cell' <- deref derives d ;;
       call_listeners rec (der_listeners cell')
         (c <- deref derives d ;; ret (der_value c)) (der_value cell))
        (marked_dirty c d s).
Proof.
  intros Hc Hu Hd Hl. unfold ObserverContext_notify.
  cbv [bind gets modify emit]. cbv beta iota.
  unfold deref at 1. simpl. rewrite list_lookup_alter_eq, Hc. simpl. rewrite Hu.
  unfold derive_onUpdate. cbv [bind modify]. cbv beta iota.
  unfold deref at 1. simpl. rewrite list_lookup_alter_eq, Hd. simpl. rewrite Hl.
  reflexivity.
Qed.

Lemma derive_notification_eager rec c s ctx d cell :
  contexts s !! c = Some ctx -> _onUpdate ctx = Some (OnDerive d) ->
  derives s !! d = Some cell -> has_listeners (der_listeners cell) = true ->
  ObserverContext_notify rec c s
    = (v <- rec (CallUser (der_cb cell)) ;;
       modify (upd_derives (alter (set_der_value (the_value v)) d)) ;;
       rec (CallNotify (der_tracker cell)) ;;
       cell' <- deref derives d ;;
       call_listeners rec (der_listeners cell')
         (c <- deref derives d ;; ret (der_value c)) (der_value cell))
        (recomputing c d s).
Proof.
  intros Hc Hu Hd Hl. unfold ObserverContext_notify.
  cbv [bind gets modify emit]. cbv beta iota.
  unfold deref at 1. simpl. rewrite list_lookup_alter_eq, Hc. simpl. rewrite Hu.
  unfold derive_onUpdate. cbv [bind modify]. cbv beta iota.
  unfold deref at 1. simpl. rewrite list_lookup_alter_eq, Hd. simpl. rewrite Hl.
  unfold recomputing, marked_dirty.
  destruct (rec (CallUser (der_cb cell)) _) as [[?|?|] ?]; reflexivity.
Qed.

Lemma legacy_marked_dirty_computes c d s :
  computes d (trace (marked_dirty c d s)) = computes d (trace s).
Proof.
  unfold marked_dirty. simpl. rewrite legacy_computes_app.
  change (computes d [EvUpdate c]) with 0. lia.
Qed.

Lemma recomputing_computes c d s :
  computes d (trace (recomputing c d s)) = computes d (trace s) + 1.
Proof.
  unfold recomputing. simpl. rewrite !legacy_computes_app, legacy_computes_one.
  change (computes d [EvUpdate c]) with 0. lia.
Qed.




End LegacyFacts.

(** ** The engine at work *)

Module Examples.
Import JS.

(** The derived is computed on the first read, again on the first read
    after the write, and not on the read that follows. *)
Example count_double_values :
  (Instances.IR.count_double (ImpactReact.initial Instances.IR.no_hooks false false)).1
    = Ok [VNum 0; VNum 10; VNum 10].
Proof. vm_compute. reflexivity. Qed.

Example count_double_computes :
  ImpactReactProps.computes 0
    (ImpactReact.trace
       (Instances.IR.count_double
          (ImpactReact.initial Instances.IR.no_hooks false false)).2) = 2.
Proof. vm_compute. reflexivity. Qed.

(** A promise that was fulfilled before it was assigned: the handler and
    the deferred check are queued in that order, the handler notifies, the
    check finds a fulfilled wrapper and keeps quiet. *)
Example resolved_input_notifies_once :
  ImpactReact.trace
    (ImpactReactProps.run 4
       [ImpactReactProps.DoSet 0 (VPromise 0 NoStatus);
        ImpactReactProps.DoMicrotask; ImpactReactProps.DoMicrotask;
        ImpactReactProps.DoMicrotask]
       Instances.IR.resolved_input)
    = ImpactReact.trace Instances.IR.resolved_input
      ++ [ImpactReact.EvNotify 0; ImpactReact.EvUpdate 0 0; ImpactReact.EvEffect 0].
Proof. vm_compute. reflexivity. Qed.

(** The first of two assigned promises settles after the second was
    assigned: once the two deferred checks have run, its jobs leave the
    record and the stored wrapper as they are. *)
Example superseded_settlement_is_silent :
  let s := ImpactReactProps.run 4
             [ImpactReactProps.DoMicrotask; ImpactReactProps.DoMicrotask]
             Instances.IR.second_assigned in
  let s' := ImpactReactProps.run 4
              [ImpactReactProps.DoSettle 0 (Fulfill (VNum 1));
               ImpactReactProps.DoMicrotask; ImpactReactProps.DoMicrotask]
              s in
  ImpactReact.trace s' = ImpactReact.trace s /\
  ImpactReact.signals s' = ImpactReact.signals s /\
  ImpactReact.microtasks s' = [].
Proof. vm_compute. repeat split. Qed.

End Examples.

(** ** The claims *)

Module IRP := ImpactReactProps.
Module IRF := ImpactReactFacts.

(** C1.  A context never holds a tracker both as a getter and as a setter:
    [registerSetter T] takes [T] out of the getters and puts it among the
    setters, a [registerGetter T] that follows (or any [registerGetter T]
    while [T] is a setter) leaves the context as it is, both methods keep the
    getters and the setters disjoint, and so every context of every state
    the engine reaches has them disjoint. *)
Theorem C1_read_write_exclusive :
  (forall (this : ImpactReact.ObserverContext) (T : nat),
     JS.Set_has T (ImpactReact._getters (ImpactReact.registerSetter T this)) = false /\
     JS.Set_has T (ImpactReact._setters (ImpactReact.registerSetter T this)) = true /\
     ImpactReact.registerGetter T (ImpactReact.registerSetter T this)
       = ImpactReact.registerSetter T this /\
     (JS.Set_has T (ImpactReact._setters this) = true ->
        ImpactReact.registerGetter T this = this) /\
     (IRP.exclusive this ->
        IRP.exclusive (ImpactReact.registerSetter T this) /\
        IRP.exclusive (ImpactReact.registerGetter T this)))
  /\
  (forall h dev store fuel script c this,
     ImpactReact.contexts (IRP.run fuel script (ImpactReact.initial h dev store)) !! c
       = Some this ->
     IRP.exclusive this).
Proof.
  split.
  - intros this T. repeat split.
    + apply IRF.registerSetter_getters.
    + apply IRF.registerSetter_setters.
    + apply IRF.registerGetter_after_registerSetter.
    + apply IRF.registerGetter_blocked.
    + by apply IRF.exclusive_registerSetter.
    + by apply IRF.exclusive_registerGetter.
  - intros h dev store fuel script c this Hc.
    assert (IRP.all_exclusive (IRP.run fuel script (ImpactReact.initial h dev store))) as Hall.
    { apply IRF.stable_run; [apply IRF.all_exclusive_stable|]. constructor. }
    eapply Forall_lookup_1; [exact Hall|exact Hc].
Qed.

Lemma C1_witness :
  IRP.exclusive (ImpactReact.registerSetter 3 Instances.IR.reader_of_3) /\
  IRP.exclusive
    (ImpactReact.mkContext ImpactReact.Effect [None] [Some 0] (ImpactReact.OnEffect 0) false).
Proof.
  split.
  - apply (proj1 C1_read_write_exclusive Instances.IR.reader_of_3 3).
    intros T _ H. vm_compute in H. discriminate.
  - apply (proj2 C1_read_write_exclusive
             (ImpactReact.mkHooks false true false) false false 3
             Instances.IR.read_then_write_script 0).
    vm_compute. reflexivity.
Defined.

Module LP := LegacyProps.
Module LF := LegacyFacts.

(** C3.  Writing a value that is [===] to the stored one is a no-op in both
    engines: the setter returns without consulting any callback, the only
    component of the state that can differ is the console (the
    development-mode warning for objects), so the stored value, the trackers,
    the version counter, the microtask queue and the record of notifications
    are as before.  In particular writing the stored value itself again,
    primitive or object (anything but [NaN], which is not [===] to itself),
    notifies nobody. *)
Theorem C3_equality_short_circuit :
  (forall rec s sg cell v,
     ImpactReact.signals s !! sg = Some cell ->
     JS.strict_eq (ImpactReact.sig_value cell) v = true ->
     ImpactReact.signal_set rec sg v s = (JS.Ok tt, IRP.warned v s) /\
     ImpactReact.signals (IRP.warned v s) = ImpactReact.signals s /\
     ImpactReact.trackers (IRP.warned v s) = ImpactReact.trackers s /\
     ImpactReact.version (IRP.warned v s) = ImpactReact.version s /\
     ImpactReact.microtasks (IRP.warned v s) = ImpactReact.microtasks s /\
     ImpactReact.trace (IRP.warned v s) = ImpactReact.trace s)
  /\
  (forall rec s sg cell,
     ImpactReact.signals s !! sg = Some cell ->
     ImpactReact.sig_value cell <> JS.VNaN ->
     ImpactReact.signal_set rec sg (ImpactReact.sig_value cell) s
       = (JS.Ok tt, IRP.warned (ImpactReact.sig_value cell) s))
  /\
  (forall rec s sg cell v,
     Legacy.signals s !! sg = Some cell ->
     JS.strict_eq (Legacy.sig_value cell) v = true ->
     Legacy.signal_set rec sg v s = (JS.Ok tt, LP.warned v s) /\
     Legacy.signals (LP.warned v s) = Legacy.signals s /\
     Legacy.trackers (LP.warned v s) = Legacy.trackers s /\
     Legacy.derives (LP.warned v s) = Legacy.derives s /\
     Legacy.trace (LP.warned v s) = Legacy.trace s)
  /\
  (forall rec s sg cell,
     Legacy.signals s !! sg = Some cell ->
     Legacy.sig_value cell <> JS.VNaN ->
     Legacy.signal_set rec sg (Legacy.sig_value cell) s
       = (JS.Ok tt, LP.warned (Legacy.sig_value cell) s)).
Proof.
  repeat apply conj.
  - intros rec s sg cell v Hsg Heq.
    split; [by eapply IRF.signal_set_same|].
    unfold IRP.warned. by destruct (_ && _).
  - intros rec s sg cell Hsg Hnan.
    eapply IRF.signal_set_same; [done|]. by apply Facts.strict_eq_refl.
  - intros rec s sg cell v Hsg Heq.
    split; [by eapply LF.legacy_signal_set_same|].
    unfold LP.warned. by destruct (_ && _).
  - intros rec s sg cell Hsg Hnan.
    eapply LF.legacy_signal_set_same; [done|]. by apply Facts.strict_eq_refl.
Qed.

Lemma C3_witness :
  ImpactReact.signal_set (ImpactReact.eval 0) 0 (JS.VNum 7) Instances.IR.one_signal
    = (JS.Ok tt, Instances.IR.one_signal) /\
  Legacy.signal_set (Legacy.eval 0) 0 (JS.VNum 7) Instances.L.one_signal
    = (JS.Ok tt, Instances.L.one_signal).
Proof.
  split.
  - apply (proj1 (proj1 C3_equality_short_circuit (ImpactReact.eval 0)
             Instances.IR.one_signal 0
             (ImpactReact.mkSignal (JS.VNum 7) None 0) (JS.VNum 7)
             eq_refl eq_refl)).
  - apply (proj1 (proj1 (proj2 (proj2 C3_equality_short_circuit)) (Legacy.eval 0)
             Instances.L.one_signal 0
             (Legacy.mkSignal (JS.VNum 7) 0 None) (JS.VNum 7)
             eq_refl eq_refl)).
Defined.

(** C6.  In both engines, reading a signal while the context stack is empty
    returns the stored value and leaves the whole state as it was: no
    context hears of the read, no tracker gains a dependent, and whatever is
    done next (a write to that signal for one) runs exactly as if the read
    had not happened. *)
Theorem C6_read_isolation :
  (forall s sg cell,
     ImpactReact.stack s = [] ->
     ImpactReact.signals s !! sg = Some cell ->
     ImpactReact.signal_get sg s = (JS.Ok (ImpactReact.sig_value cell), s) /\
     forall rec v,
       JS.bind (ImpactReact.signal_get sg) (fun _ => ImpactReact.signal_set rec sg v) s
         = ImpactReact.signal_set rec sg v s)
  /\
  (forall s sg cell,
     Legacy.stack s = [] ->
     Legacy.signals s !! sg = Some cell ->
     Legacy.signal_get sg s = (JS.Ok (Legacy.sig_value cell), s) /\
     forall rec v,
       JS.bind (Legacy.signal_get sg) (fun _ => Legacy.signal_set rec sg v) s
         = Legacy.signal_set rec sg v s).
Proof.
  split.
  - intros s sg cell Hst Hsg.
    pose proof (IRF.signal_get_empty s sg cell Hst Hsg) as Hget.
    split; [done|]. intros rec v. unfold JS.bind at 1. by rewrite Hget.
  - intros s sg cell Hst Hsg.
    pose proof (LF.legacy_signal_get_empty s sg cell Hst Hsg) as Hget.
    split; [done|]. intros rec v. unfold JS.bind at 1. by rewrite Hget.
Qed.

Lemma C6_witness :
  ImpactReact.signal_get 0 Instances.IR.one_signal
    = (JS.Ok (JS.VNum 7), Instances.IR.one_signal) /\
  Legacy.signal_get 0 Instances.L.one_signal
    = (JS.Ok (JS.VNum 7), Instances.L.one_signal).
Proof.
  split.
  - apply (proj1 (proj1 C6_read_isolation Instances.IR.one_signal 0
             (ImpactReact.mkSignal (JS.VNum 7) None 0) eq_refl eq_refl)).
  - apply (proj1 (proj2 C6_read_isolation Instances.L.one_signal 0
             (Legacy.mkSignal (JS.VNum 7) 0 None) eq_refl eq_refl)).
Defined.

(** C7.  [use] returns the value of a fulfilled wrapper, throws the reason
    of a rejected one, and throws the wrapper itself when it is pending; in
    user code the throw ends the computation there, with the state as it
    stood, and a fulfilled read continues with the value. *)
Theorem C7_use :
  forall ref v reason,
    ImpactReact.use (JS.VPromise ref (JS.Fulfilled v)) = JS.Ok v /\
    ImpactReact.use (JS.VPromise ref (JS.Rejected reason)) = JS.Thrown reason /\
    ImpactReact.use (JS.VPromise ref JS.Pending) = JS.Thrown (JS.VPromise ref JS.Pending) /\
    forall rec k s,
      ImpactReact.exec rec (ImpactReact.Use (JS.VPromise ref (JS.Fulfilled v)) k) s
        = ImpactReact.exec rec (k v) s /\
      ImpactReact.exec rec (ImpactReact.Use (JS.VPromise ref (JS.Rejected reason)) k) s
        = (JS.Thrown reason, s) /\
      ImpactReact.exec rec (ImpactReact.Use (JS.VPromise ref JS.Pending) k) s
        = (JS.Thrown (JS.VPromise ref JS.Pending), s).
Proof. intros ref v reason. repeat split. Qed.



(** C4, as stated, fails on [src/Signal.ts]: with an [onChange] listener
    on a derived that was read once, the notification of its context starts
    [cb] again, and so does a write to the signal it depends on, though
    nobody reads the derived. *)
Lemma C4_counterexample :
  LP.computes 0 (Legacy.trace Instances.L.doubled_listened) = 1 /\
  LP.computes 0
    (Legacy.trace
       (Legacy.ObserverContext_notify (Legacy.eval 3) 0 Instances.L.doubled_listened).2)
    <> LP.computes 0 (Legacy.trace Instances.L.doubled_listened) /\
  LP.computes 0
    (Legacy.trace
       (Legacy.signal_set (Legacy.eval 4) 0 (JS.VNum 5) Instances.L.doubled_listened).2)
    = 2.
Proof. vm_compute. repeat split; discriminate. Qed.

(** C4, amended.  In both engines a read of a clean derived is the tracked
    read followed by the cached value, whatever the callbacks are, and
    starts [cb] no time; a read of a dirty derived starts [cb] once, and
    all that follows the return of [cb] starts it no more.  In
    [impact-react] the notification of a derived's context sets the dirty
    flag and calls the [notify] of the derived's tracker, nothing else; in
    [src/Signal.ts] it does the same when the derived has no [onChange]
    listener, and with a listener it starts [cb] once itself, leaving the
    derived clean. *)
Theorem C4_lazy_recompute :
  (forall rec d s cell,
     ImpactReact.deriveds s !! d = Some cell -> ImpactReact.isDirty cell = false ->
     ImpactReact.derived_get rec d s
       = JS.bind (ImpactReact.track (ImpactReact.der_tracker cell))
           (fun _ => JS.ret (ImpactReact.der_value cell)) s /\
     IRP.computes d (ImpactReact.trace (ImpactReact.derived_get rec d s).2)
       = IRP.computes d (ImpactReact.trace s))
  /\
  (forall rec d s context cell s1 r s2,
     IRP.derived_enter d s = (JS.Ok (Some (context, cell)), s1) ->
     rec (ImpactReact.CallUser (ImpactReact.der_cb cell)) s1 = (r, s2) ->
     ImpactReact.derived_get rec d s
       = JS.bind (rec (ImpactReact.CallUser (ImpactReact.der_cb cell)))
           (fun v => IRP.derived_leave d (Some (context, cell, v))) s1 /\
     IRP.computes d (ImpactReact.trace s1) = IRP.computes d (ImpactReact.trace s) + 1 /\
     IRP.computes d (ImpactReact.trace (ImpactReact.derived_get rec d s).2)
       = IRP.computes d (ImpactReact.trace s2))
  /\
  (forall rec c s ctx d cell,
     ImpactReact.contexts s !! c = Some ctx ->
     ImpactReact._onUpdate ctx = ImpactReact.OnDerived d ->
     ImpactReact.deriveds s !! d = Some cell ->
     ImpactReact.ObserverContext_notify rec c s
       = JS.bind (rec (ImpactReact.CallNotify (ImpactReact.der_tracker cell)))
           (fun _ => JS.ret tt) (IRP.marked_dirty c d s) /\
     IRP.computes d (ImpactReact.trace (IRP.marked_dirty c d s))
       = IRP.computes d (ImpactReact.trace s) /\
     ImpactReact.deriveds (IRP.marked_dirty c d s) !! d
       = Some (ImpactReact.set_isDirty true cell))
  /\
  (forall rec d s cell,
     Legacy.derives s !! d = Some cell -> Legacy.isDirty cell = false ->
     Legacy.derive_get rec d s
       = JS.bind (Legacy.track (Legacy.der_tracker cell))
           (fun _ => JS.ret (Legacy.der_value cell)) s /\
     LP.computes d (Legacy.trace (Legacy.derive_get rec d s).2)
       = LP.computes d (Legacy.trace s))
  /\
  (forall rec d s context cell s1 r s2,
     LP.derive_enter d s = (JS.Ok (Some (context, cell)), s1) ->
     rec (Legacy.CallUser (Legacy.der_cb cell)) s1 = (r, s2) ->
     Legacy.derive_get rec d s
       = JS.bind (rec (Legacy.CallUser (Legacy.der_cb cell)))
           (fun v => LP.derive_leave d (Some (context, cell, Legacy.the_value v))) s1 /\
     LP.computes d (Legacy.trace s1) = LP.computes d (Legacy.trace s) + 1 /\
     LP.computes d (Legacy.trace (Legacy.derive_get rec d s).2)
       = LP.computes d (Legacy.trace s2))
  /\
  (forall rec c s ctx d cell,
     Legacy.contexts s !! c = Some ctx ->
     Legacy._onUpdate ctx = Some (Legacy.OnDerive d) ->
     Legacy.derives s !! d = Some cell ->
     Legacy.has_listeners (Legacy.der_listeners cell) = false ->
     Legacy.ObserverContext_notify rec c s
       = JS.bind (rec (Legacy.CallNotify (Legacy.der_tracker cell)))
           (fun _ =>
              JS.bind (Legacy.deref Legacy.derives d)
                (fun cell' =>
                   Legacy.call_listeners rec (Legacy.der_listeners cell')
                     (JS.bind (Legacy.deref Legacy.derives d)
                        (fun c => JS.ret (Legacy.der_value c)))
                     (Legacy.der_value cell)))
           (LP.marked_dirty c d s) /\
     LP.computes d (Legacy.trace (LP.marked_dirty c d s))
       = LP.computes d (Legacy.trace s) /\
     Legacy.derives (LP.marked_dirty c d s) !! d = Some (Legacy.set_isDirty true cell))
  /\
  (forall rec c s ctx d cell,
     Legacy.contexts s !! c = Some ctx ->
     Legacy._onUpdate ctx = Some (Legacy.OnDerive d) ->
     Legacy.derives s !! d = Some cell ->
     Legacy.has_listeners (Legacy.der_listeners cell) = true ->
     Legacy.ObserverContext_notify rec c s
       = JS.bind (rec (Legacy.CallUser (Legacy.der_cb cell)))
           (fun v =>
              JS.bind (JS.modify (Legacy.upd_derives
                         (alter (Legacy.set_der_value (Legacy.the_value v)) d)))
                (fun _ =>
                   JS.bind (rec (Legacy.CallNotify (Legacy.der_tracker cell)))
                     (fun _ =>
                        JS.bind (Legacy.deref Legacy.derives d)
                          (fun cell' =>
                             Legacy.call_listeners rec (Legacy.der_listeners cell')
                               (JS.bind (Legacy.deref Legacy.derives d)
                                  (fun c => JS.ret (Legacy.der_value c)))
                               (Legacy.der_value cell)))))
           (LP.recomputing c d s) /\
     LP.computes d (Legacy.trace (LP.recomputing c d s))
       = LP.computes d (Legacy.trace s) + 1 /\
     Legacy.derives (LP.recomputing c d s) !! d = Some (Legacy.set_isDirty false cell)).
Proof.
  repeat apply conj.
  - intros rec d s cell Hd Hclean. split.
    + by apply IRF.derived_get_clean.
    + by eapply IRF.derived_get_clean_computes.
  - intros rec d s context cell s1 r s2 Henter Hcb. split.
    + by apply IRF.derived_get_dirty.
    + by eapply IRF.derived_get_dirty_computes.
  - intros rec c s ctx d cell Hc Hu Hd. split; [by eapply IRF.derived_notification|].
    split; [apply IRF.marked_dirty_computes|].
    unfold IRP.marked_dirty. simpl. by rewrite list_lookup_alter_eq, Hd.
  - intros rec d s cell Hd Hclean. split.
    + by apply LF.derive_get_clean.
    + by eapply LF.derive_get_clean_computes.
  - intros rec d s context cell s1 r s2 Henter Hcb. split.
    + by apply LF.derive_get_dirty.
    + by eapply LF.derive_get_dirty_computes.
  - intros rec c s ctx d cell Hc Hu Hd Hl.
    split; [by eapply LF.derive_notification_idle|].
    split; [apply LF.legacy_marked_dirty_computes|].
    unfold LP.marked_dirty. simpl. by rewrite list_lookup_alter_eq, Hd.
  - intros rec c s ctx d cell Hc Hu Hd Hl.
    split; [by eapply LF.derive_notification_eager|].
    split; [apply LF.recomputing_computes|].
    unfold LP.recomputing, LP.marked_dirty. simpl.
    by rewrite !list_lookup_alter_eq, Hd.
Qed.

Lemma C4_witness :
  (IRP.computes 0 (ImpactReact.trace Instances.IR.doubled_read) = 1 /\
   IRP.computes 0
     (ImpactReact.trace
        (ImpactReact.derived_get (ImpactReact.eval 2) 0 Instances.IR.doubled_read).2) = 1 /\
   IRP.computes 0
     (ImpactReact.trace (IRP.marked_dirty 0 0 Instances.IR.doubled_read)) = 1) /\
  (LP.computes 0 (Legacy.trace Instances.L.doubled_read) = 1 /\
   LP.computes 0 (Legacy.trace (LP.recomputing 0 0 Instances.L.doubled_listened)) = 2).
Proof.
  destruct C4_lazy_recompute as (Ha & Hb & Hc & La & Lb & Lc & Ld).
  split; [split; [|split]|split].
  - destruct (Hb (ImpactReact.eval 2) 0 Instances.IR.with_doubled 0
               Instances.IR.doubled_dirty Instances.IR.doubled_entered
               (JS.Ok (JS.VNum 14)) Instances.IR.doubled_computed eq_refl eq_refl)
      as (_ & _ & H).
    exact H.
  - destruct (Ha (ImpactReact.eval 2) 0 Instances.IR.doubled_read
               Instances.IR.doubled_clean eq_refl eq_refl) as (_ & H).
    exact H.
  - destruct (Hc (ImpactReact.eval 2) 0 Instances.IR.doubled_read
               Instances.IR.doubled_context 0 Instances.IR.doubled_clean
               eq_refl eq_refl eq_refl) as (_ & H & _).
    exact H.
  - destruct (Lb (Legacy.eval 2) 0 Instances.L.with_doubled 0
               Instances.L.doubled_dirty Instances.L.doubled_entered
               (JS.Ok (Legacy.AValue (JS.VNum 14))) Instances.L.doubled_computed
               eq_refl eq_refl) as (_ & _ & H).
    exact H.
  - destruct (Ld (Legacy.eval 2) 0 Instances.L.doubled_listened
               Instances.L.doubled_context 0 Instances.L.doubled_with_listener
               eq_refl eq_refl eq_refl eq_refl) as (_ & H & _).
    exact H.
Defined.

(** C5.  Assigning a promise to a signal whose previous operation runs
    under controller [c1] aborts [c1] and installs a fresh controller that
    is not aborted; an aborted controller stays aborted whatever the module
    is asked to do next, and in every state the module reaches the
    controller installed in a signal (that of its latest operation) is not
    aborted; the settlement of a promise and the settlement jobs of an
    operation whose controller is aborted change nothing but the promises
    and the queue (no stored value, no registration, no notification); and
    the settlement jobs of the operation whose controller is live store the
    settled wrapper and call the [notify] of the signal's tracker. *)
Theorem C5_async_supersession :
  (forall rec sg p st s cell pst c1 b,
     ImpactReact.signals s !! sg = Some cell ->
     ImpactReact.currentAbortController cell = Some c1 ->
     ImpactReact.controllers s !! c1 = Some b ->
     ImpactReact.promises s !! p = Some pst ->
     JS.strict_eq (ImpactReact.sig_value cell) (JS.VPromise p st) = false ->
     IRP.allocated s (ImpactReact.sig_value cell) ->
     ImpactReact.signal_set rec sg (JS.VPromise p st) s
       = (JS.Ok tt, IRP.stored_promise sg p cell pst s) /\
     IRP.aborted c1 (IRP.stored_promise sg p cell pst s) /\
     ImpactReact.controllers (IRP.stored_promise sg p cell pst s)
       !! length (ImpactReact.controllers s) = Some false /\
     ImpactReact.signals (IRP.stored_promise sg p cell pst s) !! sg
       = Some (ImpactReact.mkSignal
                 (JS.VPromise (length (ImpactReact.promises s)) JS.Pending)
                 (Some (length (ImpactReact.controllers s)))
                 (ImpactReact.sig_tracker cell)))
  /\
  (forall c fuel script s, IRP.aborted c s -> IRP.aborted c (IRP.run fuel script s))
  /\
  (forall h dev store fuel script sg cell c,
     ImpactReact.signals (IRP.run fuel script (ImpactReact.initial h dev store)) !! sg
       = Some cell ->
     ImpactReact.currentAbortController cell = Some c ->
     ImpactReact.controllers (IRP.run fuel script (ImpactReact.initial h dev store)) !! c
       = Some false)
  /\
  (forall p o s, IRP.same_graph s (ImpactReact.settle p o s).2)
  /\
  (forall rec sg c w o s,
     IRP.aborted c s ->
     IRP.same_graph s
       (ImpactReact.run_task rec (ImpactReact.TThen (ImpactReact.Handlers sg c w) o) s).2 /\
     IRP.same_graph s (ImpactReact.run_task rec (ImpactReact.TCatch sg c w o) s).2)
  /\
  (forall rec sg c w s cell,
     ImpactReact.controllers s !! c = Some false ->
     ImpactReact.signals s !! sg = Some cell ->
     (forall v,
        ImpactReact.run_task rec
          (ImpactReact.TThen (ImpactReact.Handlers sg c w) (JS.Fulfill v)) s
        = JS.bind
            (JS.attempt
               (JS.bind (ImpactReact.SignalTracker_notify rec (ImpactReact.sig_tracker cell))
                  (fun _ => JS.ret v)))
            (fun r =>
               match r with
               | inl v' => ImpactReact.enqueue (ImpactReact.TCatch sg c w (JS.Fulfill v'))
               | inr e => ImpactReact.enqueue (ImpactReact.TCatch sg c w (JS.Reject e))
               end)
            (IRP.settled_state sg (JS.Fulfill v) s)) /\
     (forall e,
        ImpactReact.run_task rec (ImpactReact.TCatch sg c w (JS.Reject e)) s
        = JS.bind
            (JS.attempt
               (JS.bind (ImpactReact.SignalTracker_notify rec (ImpactReact.sig_tracker cell))
                  (fun _ =>
                     JS.ret (JS.VPromise (length (ImpactReact.promises s)) (JS.Rejected e)))))
            (fun r =>
               match r with
               | inl v => ImpactReact.resolve w v
               | inr e' => ImpactReact.settle w (JS.Reject e')
               end)
            (IRP.settled_state sg (JS.Reject e) s)) /\
     (forall o,
        ImpactReact.signals (IRP.settled_state sg o s) !! sg
        = Some (ImpactReact.set_sig_value
                  (JS.VPromise (length (ImpactReact.promises s)) (IRP.as_status o)) cell))).
Proof.
  repeat apply conj.
  - intros rec sg p st s cell pst c1 b Hsg Hc Hc1 Hp Hne Hall.
    split; [by apply IRF.signal_set_promise|].
    destruct (IRF.stored_promise_facts sg p cell pst s c1 b Hsg Hc Hc1)
      as (H1 & H2 & H3 & _).
    done.
  - intros c fuel script s. apply IRF.stable_run, IRF.aborted_stable.
  - intros h dev store fuel script sg cell c Hsg Hc.
    assert (IRP.controllers_live (IRP.run fuel script (ImpactReact.initial h dev store)))
      as Hlive.
    { apply IRF.stable_run; [apply IRF.controllers_live_stable|].
      intros sg0 cell0 c0 H0. done. }
    by destruct (Hlive sg cell c Hsg Hc).
  - intros p o s. apply IRF.settle_same_graph, IRF.same_graph_refl.
  - intros rec sg c w o s Hab.
    split; [by apply IRF.aborted_then|by apply IRF.aborted_catch].
  - intros rec sg c w s cell Hc Hsg. repeat split.
    + intros v. by apply IRF.live_then.
    + intros e. by apply IRF.live_catch.
    + intros o. unfold IRP.settled_state. simpl.
      by rewrite list_lookup_alter_eq, Hsg.
Qed.

Lemma C5_witness :
  IRP.aborted 0 Instances.IR.second_assigned /\
  IRP.same_graph Instances.IR.second_assigned
    (ImpactReact.run_task (ImpactReact.eval 4)
       (ImpactReact.TThen (ImpactReact.Handlers 0 0 2) (JS.Fulfill (JS.VNum 1)))
       Instances.IR.second_assigned).2 /\
  ImpactReact.signals
    (IRP.settled_state 0 (JS.Fulfill (JS.VNum 2)) Instances.IR.second_assigned) !! 0
    = Some (ImpactReact.mkSignal (JS.VPromise 4 (JS.Fulfilled (JS.VNum 2))) (Some 1) 0).
Proof.
  destruct C5_async_supersession as (H1 & H2 & _ & _ & H3 & H4).
  assert (IRP.aborted 0 Instances.IR.second_assigned) as Hab.
  { destruct (H1 (ImpactReact.eval 4) 0 1 JS.NoStatus Instances.IR.first_assigned
                Instances.IR.first_cell (ImpactReact.Unsettled []) 0 false
                eq_refl eq_refl eq_refl eq_refl eq_refl) as (Hset & H & _).
    - vm_compute. lia.
    - unfold Instances.IR.second_assigned. rewrite Hset. exact H. }
  split; [exact Hab|]. split.
  - apply (H3 (ImpactReact.eval 4) 0 0 2 (JS.Fulfill (JS.VNum 1))
             Instances.IR.second_assigned Hab).
  - destruct (H4 (ImpactReact.eval 4) 0 1 3 Instances.IR.second_assigned
                Instances.IR.second_cell eq_refl eq_refl) as (_ & _ & H).
    apply (H (JS.Fulfill (JS.VNum 2))).
Defined.

(** C8, as stated, fails: a promise that is not settled yet is an accepted
    write outside the class the claim defers, and the setter does not
    notify within the write; the notification comes from the deferred
    check, one job later. *)
Lemma C8_counterexample :
  ImpactReact.promises Instances.IR.watched !! 0 = Some (ImpactReact.Unsettled []) /\
  ImpactReact.trace Instances.IR.first_assigned = ImpactReact.trace Instances.IR.watched /\
  ImpactReact.microtasks Instances.IR.first_assigned = [ImpactReact.TCheck 0] /\
  ImpactReact.trace
    (ImpactReact.run_microtask (ImpactReact.eval 4) Instances.IR.first_assigned).2
    = ImpactReact.trace Instances.IR.watched
      ++ [ImpactReact.EvNotify 0; ImpactReact.EvUpdate 0 0; ImpactReact.EvEffect 0].
Proof. vm_compute. repeat split. Qed.

(** C8, amended.  An accepted write of a promise, settled or not, returns
    without notifying: the pending wrapper is stored, the record of
    notifications and the version are as before, and the queue has gained
    the settlement job (when the promise was settled already) followed by
    the deferred check.  The check, when its turn comes, calls the [notify]
    of the tracker if the value then stored in the signal is a pending
    wrapper and does nothing otherwise.  An accepted write of any other
    value stores it and calls [notify] within the write. *)
Theorem C8_deferred_notification :
  (forall rec sg p st s cell pst,
     ImpactReact.signals s !! sg = Some cell ->
     ImpactReact.promises s !! p = Some pst ->
     JS.strict_eq (ImpactReact.sig_value cell) (JS.VPromise p st) = false ->
     IRP.allocated s (ImpactReact.sig_value cell) ->
     ImpactReact.signal_set rec sg (JS.VPromise p st) s
       = (JS.Ok tt, IRP.stored_promise sg p cell pst s) /\
     ImpactReact.trace (IRP.stored_promise sg p cell pst s) = ImpactReact.trace s /\
     ImpactReact.version (IRP.stored_promise sg p cell pst s) = ImpactReact.version s /\
     ImpactReact.microtasks (IRP.stored_promise sg p cell pst s)
       = ImpactReact.microtasks s ++
         match pst with
         | ImpactReact.Settled o =>
             [ImpactReact.TThen
                (ImpactReact.Handlers sg (length (ImpactReact.controllers s))
                   (length (ImpactReact.promises s))) o]
         | ImpactReact.Unsettled _ => []
         end ++ [ImpactReact.TCheck sg] /\
     exists cell',
       ImpactReact.signals (IRP.stored_promise sg p cell pst s) !! sg = Some cell' /\
       ImpactReact.sig_value cell'
         = JS.VPromise (length (ImpactReact.promises s)) JS.Pending)
  /\
  (forall rec sg s cell,
     ImpactReact.signals s !! sg = Some cell ->
     ImpactReact.run_task rec (ImpactReact.TCheck sg) s
       = if JS.is_pending (ImpactReact.sig_value cell)
         then JS.bind (ImpactReact.SignalTracker_notify rec (ImpactReact.sig_tracker cell))
                (fun _ => JS.ret tt) s
         else (JS.Ok tt, s))
  /\
  (forall rec t q s,
     ImpactReact.microtasks s = t :: q ->
     ImpactReact.run_microtask rec s
       = JS.bind (JS.attempt (ImpactReact.run_task rec t)) (fun _ => JS.ret true)
           (ImpactReact.upd_microtasks (fun q => tail q) s))
  /\
  (forall rec sg v s cell,
     ImpactReact.signals s !! sg = Some cell ->
     JS.strict_eq (ImpactReact.sig_value cell) v = false ->
     JS.instanceof_Promise v = false ->
     ImpactReact.signal_set rec sg v s
       = JS.bind (ImpactReact.SignalTracker_notify rec (ImpactReact.sig_tracker cell))
           (fun _ => JS.ret tt) (IRP.stored sg v cell s) /\
     ImpactReact.signals (IRP.stored sg v cell s) !! sg
       = Some (ImpactReact.set_sig_value v cell) /\
     ImpactReact.microtasks (IRP.stored sg v cell s) = ImpactReact.microtasks s).
Proof.
  repeat apply conj.
  - intros rec sg p st s cell pst Hsg Hp Hne Hall.
    split; [by apply IRF.signal_set_promise|].
    by apply IRF.stored_promise_quiet.
  - intros rec sg s cell Hsg. by apply IRF.run_check.
  - intros rec t q s Hq. by eapply IRF.run_microtask_next.
  - intros rec sg v s cell Hsg Hne Hnp.
    split; [by apply IRF.signal_set_plain|].
    destruct (IRF.stored_facts sg v cell s Hsg) as (H1 & H2 & _). done.
Qed.

Lemma C8_witness :
  (ImpactReact.microtasks
     (ImpactReact.signal_set (ImpactReact.eval 4) 0 (JS.VPromise 0 JS.NoStatus)
        Instances.IR.resolved_input).2
   = [ImpactReact.TThen (ImpactReact.Handlers 0 0 2) (JS.Fulfill (JS.VNum 9));
      ImpactReact.TCheck 0]) /\
  (ImpactReact.run_task (ImpactReact.eval 4) (ImpactReact.TCheck 0) Instances.IR.watched
   = (JS.Ok tt, Instances.IR.watched)) /\
  (ImpactReact.trace
     (ImpactReact.signal_set (ImpactReact.eval 4) 0 (JS.VNum 1) Instances.IR.watched).2
   = ImpactReact.trace Instances.IR.watched
     ++ [ImpactReact.EvNotify 0; ImpactReact.EvUpdate 0 0; ImpactReact.EvEffect 0]).
Proof.
  destruct C8_deferred_notification as (H1 & H2 & _ & H4).
  split; [|split].
  - destruct (H1 (ImpactReact.eval 4) 0 0 JS.NoStatus Instances.IR.resolved_input
                Instances.IR.plain_cell
                (ImpactReact.Settled (JS.Fulfill (JS.VNum 9)))
                eq_refl eq_refl eq_refl I) as (Hset & _ & _ & Hq & _).
    rewrite Hset. exact Hq.
  - apply (H2 (ImpactReact.eval 4) 0 Instances.IR.watched Instances.IR.plain_cell eq_refl).
  - destruct (H4 (ImpactReact.eval 4) 0 (JS.VNum 1) Instances.IR.watched
                Instances.IR.plain_cell eq_refl eq_refl eq_refl) as (Hset & _).
    rewrite Hset. vm_compute. reflexivity.
Defined.

(** C2 on [src/Signal.ts]: the pass runs over the live set.  The tracker
    of the signal has one subscribed context, and only one context exists;
    the pass visits it and then visits a second context, which the listener
    of the first created and subscribed while the pass was under way. *)
Theorem C2_legacy_pass_visits_added_context :
  Legacy.trackers Instances.L.listening !! 0
    = Some (Legacy.mkTracker (Legacy.OfSignal 0) [Some 0]) /\
  length (Legacy.contexts Instances.L.listening) = 1 /\
  (Legacy.SignalTracker_notify (Legacy.eval 6) 0 Instances.L.listening).1
    = JS.Ok [0; 1] /\
  Legacy.trace (Legacy.signal_set (Legacy.eval 6) 0 (JS.VNum 1) Instances.L.listening).2
    = Legacy.trace Instances.L.listening
      ++ [Legacy.EvNotify 0; Legacy.EvUpdate 0; Legacy.EvCompute 1; Legacy.EvNotify 2;
          Legacy.EvListener 0 (JS.VNum 1) (JS.VNum 0); Legacy.EvCompute 0;
          Legacy.EvUpdate 1; Legacy.EvNotify 1].
Proof. vm_compute. repeat split. Qed.

(** C9 on [impact-react/src/signal.ts]: an effect reads a signal and then
    writes it.  Without the [onSetValue] hook its context keeps the tracker
    among its getters and is subscribed; with the hook installed the write
    goes through [registerSetter], the tracker leaves the getters and the
    context is not subscribed.  A later write to the signal then re-runs the
    effect in the first run and not in the second, and the stored values
    end up different. *)
Theorem C9_hook_changes_registrations :
  ImpactReact.contexts Instances.IR.hook_off !! 0
    = Some (ImpactReact.mkContext ImpactReact.Effect [Some 0] []
              (ImpactReact.OnEffect 0) false) /\
  ImpactReact.contexts Instances.IR.hook_on !! 0
    = Some (ImpactReact.mkContext ImpactReact.Effect [None] [Some 0]
              (ImpactReact.OnEffect 0) false) /\
  ImpactReact.trackers Instances.IR.hook_off
    = [ImpactReact.mkTracker (ImpactReact.OfSignal 0) [Some 0]] /\
  ImpactReact.trackers Instances.IR.hook_on
    = [ImpactReact.mkTracker (ImpactReact.OfSignal 0) []] /\
  ImpactReact.trace (IRP.run 5 Instances.IR.later_write Instances.IR.hook_off)
    = ImpactReact.trace Instances.IR.hook_off
      ++ [ImpactReact.EvNotify 0; ImpactReact.EvUpdate 0 0; ImpactReact.EvEffect 0;
          ImpactReact.EvNotify 0] /\
  ImpactReact.trace (IRP.run 5 Instances.IR.later_write Instances.IR.hook_on)
    = ImpactReact.trace Instances.IR.hook_on ++ [ImpactReact.EvNotify 0] /\
  ImpactReact.sig_value <$>
    ImpactReact.signals (IRP.run 5 Instances.IR.later_write Instances.IR.hook_off)
    = [JS.VNum 1] /\
  ImpactReact.sig_value <$>
    ImpactReact.signals (IRP.run 5 Instances.IR.later_write Instances.IR.hook_on)
    = [JS.VNum 2].
Proof. vm_compute. repeat split. Qed.

(** ** Subscriptions *)

Module SubscriptionFacts.
Import JS Props Facts ImpactReact ImpactReactProps ImpactReactFacts.
Import MoreProps.IR.

(** Applying a tracker method to the trackers listed in [ts]. *)
Lemma forEach_on_tracker f ts s :
  Array_forEach (fun t => on_tracker t f) ts s
    = (Ok ts, upd_trackers (fun h => foldl (fun h t => alter f t h) h ts) s).
Proof.
  revert s. induction ts as [|t ts IH]; intros s; simpl.
  - by destruct s.
  - unfold on_tracker at 1. rewrite bind_modify, (bind_Ok _ _ _ _ _ (IH _)).
    reflexivity.
Qed.

Lemma foldl_alter_lookup {A} (f : A -> A) ts (h : list A) t :
  (forall x, f (f x) = f x) ->
  foldl (fun h t => alter f t h) h ts !! t
    = if decide (t ∈ ts) then f <$> h !! t else h !! t.
Proof.
  intros Hf. revert h. induction ts as [|t0 ts IH]; intros h; cbn [foldl].
  - destruct (decide (t ∈ [])) as [H|H]; [by apply elem_of_nil in H|done].
  - rewrite IH, list_lookup_alter.
    destruct (decide (t ∈ ts)) as [Hin|Hin], (decide (t0 = t)) as [->|Hne],
      (decide (t ∈ _ :: ts)) as [Hc|Hc]; try done.
    + destruct (h !! t); simpl; by rewrite ?Hf.
    + exfalso. apply Hc. by left.
    + exfalso. apply Hc. by right.
    + exfalso. apply Hc. by left.
    + apply elem_of_cons in Hc as [->|?]; done.
Qed.

Lemma foldl_alter_idem {A} (f : A -> A) ts (h : list A) :
  (forall x, f (f x) = f x) ->
  foldl (fun h t => alter f t h) (foldl (fun h t => alter f t h) h ts) ts
    = foldl (fun h t => alter f t h) h ts.
Proof.
  intros Hf. apply list_eq. intros t. rewrite !foldl_alter_lookup by done.
  case_decide; [|done]. destruct (h !! t); simpl; by rewrite ?Hf.
Qed.

Lemma Set_delete_idem {A} `{EqDecision A} (x : A) d :
  Set_delete x (Set_delete x d) = Set_delete x d.
Proof.
  unfold Set_delete. rewrite <- list_fmap_compose. apply list_fmap_ext.
  intros i e _. simpl. repeat case_decide; congruence.
Qed.

Lemma Set_add_idem {A} `{EqDecision A} (x : A) d :
  Set_add x (Set_add x d) = Set_add x d.
Proof. apply Set_add_has, Set_has_add_same. Qed.

Lemma addContext_idem c tr : addContext c (addContext c tr) = addContext c tr.
Proof. unfold addContext. simpl. by rewrite Set_add_idem. Qed.

Lemma removeContext_idem c tr :
  removeContext c (removeContext c tr) = removeContext c tr.
Proof. unfold removeContext. simpl. by rewrite Set_delete_idem. Qed.

Lemma Array_from_add {A} `{EqDecision A} (x : A) d :
  Array_from (Set_add x d)
    = if Set_has x d then Array_from d else Array_from d ++ [x].
Proof.
  unfold Set_add. destruct (Set_has x d); [done|].
  unfold Array_from. by rewrite omap_app.
Qed.

Lemma Array_from_delete {A} `{EqDecision A} (x : A) d :
  Array_from (Set_delete x d) = filter (fun y => y <> x) (Array_from d).
Proof.
  unfold Array_from, Set_delete. induction d as [|[y|] d IH]; csimpl; [done|..].
  - destruct (decide (Some y = Some x)) as [[= ->]|Hne]; csimpl.
    + rewrite filter_cons_False by (intros H; by apply H). exact IH.
    + rewrite filter_cons_True by congruence. by rewrite IH.
  - destruct (decide (None = Some x)) as [?|_]; [done|]. exact IH.
Qed.

Lemma Set_has_Array_from {A} `{EqDecision A} (x : A) d :
  Set_has x d = bool_decide (x ∈ Array_from d).
Proof. unfold Set_has. apply bool_decide_ext. by rewrite Array_from_elem. Qed.

Lemma filter_ne_id {A} `{EqDecision A} (x : A) (l : list A) :
  x ∉ l -> filter (fun y => y <> x) l = l.
Proof.
  induction l as [|y l IH]; intros Hx; [done|].
  apply not_elem_of_cons in Hx as [Hne Hx].
  rewrite filter_cons_True by done. by rewrite IH.
Qed.

Lemma filter_ne_snoc {A} `{EqDecision A} (x : A) (l : list A) :
  filter (fun y => y <> x) (l ++ [x]) = filter (fun y => y <> x) l.
Proof.
  rewrite filter_app, filter_cons_False by (intros H; by apply H).
  by rewrite filter_nil, app_nil_r.
Qed.

(** What [dispose] and the closure it returns do to the state. *)
Lemma dispose_eq c s ctx :
  contexts s !! c = Some ctx ->
  dispose c s
    = (Ok c,
       upd_trackers
         (fun h => foldl (fun h t => alter (addContext c) t h) h
                     (Array_from (_getters ctx)))
         (upd_stack (fun st => List.removelast st) s)).
Proof.
  intros Hc. unfold dispose, subscribe. rewrite bind_modify.
  erewrite bind_deref by (simpl; exact Hc).
  by rewrite (bind_Ok _ _ _ _ _ (forEach_on_tracker _ _ _)).
Qed.

Lemma unsubscribe_eq c s ctx :
  contexts s !! c = Some ctx ->
  unsubscribe c s
    = (Ok tt,
       upd_trackers
         (fun h => foldl (fun h t => alter (removeContext c) t h) h
                     (Array_from (_getters ctx)))
         s).
Proof.
  intros Hc. unfold unsubscribe. rewrite (bind_deref _ _ _ _ _ Hc).
  by rewrite (bind_Ok _ _ _ _ _ (forEach_on_tracker _ _ _)).
Qed.

Lemma dependents_subscribed c ts t s tr :
  trackers s !! t = Some tr ->
  dependents t
    (upd_trackers (fun h => foldl (fun h t => alter (addContext c) t h) h ts) s)
  = if bool_decide (t ∈ ts) && negb (Set_has c (tracker_contexts tr))
    then dependents t s ++ [c] else dependents t s.
Proof.
  intros Ht. unfold dependents. simpl.
  rewrite foldl_alter_lookup by apply addContext_idem. rewrite Ht.
  destruct (decide (t ∈ ts)) as [Hin|Hin].
  - rewrite bool_decide_eq_true_2 by done. simpl. rewrite Array_from_add.
    by destruct (Set_has c (tracker_contexts tr)).
  - by rewrite bool_decide_eq_false_2.
Qed.

Lemma dependents_unsubscribed c ts t s :
  dependents t
    (upd_trackers (fun h => foldl (fun h t => alter (removeContext c) t h) h ts) s)
  = if bool_decide (t ∈ ts)
    then filter (fun c' => c' <> c) (dependents t s) else dependents t s.
Proof.
  unfold dependents. simpl.
  rewrite foldl_alter_lookup by apply removeContext_idem.
  destruct (decide (t ∈ ts)) as [Hin|Hin].
  - rewrite bool_decide_eq_true_2 by done.
    destruct (trackers s !! t) as [tr|]; simpl; [|done].
    apply Array_from_delete.
  - by rewrite bool_decide_eq_false_2.
Qed.

Lemma dependents_missing f ts t s :
  trackers s !! t = None ->
  dependents t (upd_trackers (fun h => foldl (fun h t => alter f t h) h ts) s)
    = [].
Proof.
  intros Ht. unfold dependents. simpl.
  assert (Hl : forall h : list SignalTracker,
             length (foldl (fun h t => alter f t h) h ts) = length h).
  { induction ts as [|x ts IH]; intros h; simpl; [done|].
    by rewrite IH, length_alter. }
  assert (H : foldl (fun h t => alter f t h) (trackers s) ts !! t = None).
  { apply lookup_ge_None. rewrite Hl. by apply lookup_ge_None. }
  by rewrite H.
Qed.

End SubscriptionFacts.

(** ** Subscribing and unsubscribing a context (impact-react) *)

(** X1. Disposing a context pops the context stack and subscribes the
    context to the trackers it has read, and to no other: on a tracker
    among its getters that does not list it yet the context is appended
    after the existing dependents; every other tracker keeps its
    dependents.  The contexts themselves are not changed. *)
Theorem X1_dispose_subscribes_getters c s ctx :
  ImpactReact.contexts s !! c = Some ctx ->
  exists s',
    ImpactReact.dispose c s = (JS.Ok c, s') /\
    ImpactReact.stack s' = List.removelast (ImpactReact.stack s) /\
    ImpactReact.contexts s' = ImpactReact.contexts s /\
    forall t tr, ImpactReact.trackers s !! t = Some tr ->
      MoreProps.IR.dependents t s'
      = if JS.Set_has t (ImpactReact._getters ctx)
           && negb (JS.Set_has c (ImpactReact.tracker_contexts tr))
        then MoreProps.IR.dependents t s ++ [c]
        else MoreProps.IR.dependents t s.
Proof.
  intros Hc. eexists. split; [apply (SubscriptionFacts.dispose_eq _ _ _ Hc)|].
  split; [done|]. split; [done|]. intros t tr Ht.
  rewrite (SubscriptionFacts.dependents_subscribed c _ t _ tr) by exact Ht.
  by rewrite <- (SubscriptionFacts.Set_has_Array_from t).
Qed.

Lemma X1_witness :
  exists s',
    ImpactReact.dispose 0 Instances.IR.doubled_computed = (JS.Ok 0, s') /\
    ImpactReact.stack s' = [] /\
    MoreProps.IR.dependents 0 s' = [0].
Proof.
  destruct (X1_dispose_subscribes_getters 0 Instances.IR.doubled_computed
              Instances.IR.doubled_context eq_refl) as (s' & H & Hs & _ & Hd).
  exists s'. split; [exact H|]. split; [rewrite Hs; reflexivity|].
  rewrite (Hd 0 (ImpactReact.mkTracker (ImpactReact.OfSignal 0) []) eq_refl).
  reflexivity.
Defined.

(** X2. The closure returned by [subscribe] removes the context from
    the trackers it has read and from no other, keeps the order of the
    remaining dependents, and calling it a second time changes nothing. *)
Theorem X2_unsubscribe_removes_once c s ctx :
  ImpactReact.contexts s !! c = Some ctx ->
  exists s',
    ImpactReact.unsubscribe c s = (JS.Ok tt, s') /\
    (forall t,
       MoreProps.IR.dependents t s'
       = if JS.Set_has t (ImpactReact._getters ctx)
         then filter (fun c' => c' <> c) (MoreProps.IR.dependents t s)
         else MoreProps.IR.dependents t s) /\
    ImpactReact.unsubscribe c s' = (JS.Ok tt, s').
Proof.
  intros Hc. eexists. split; [apply (SubscriptionFacts.unsubscribe_eq _ _ _ Hc)|].
  split.
  - intros t. rewrite SubscriptionFacts.dependents_unsubscribed.
    by rewrite <- (SubscriptionFacts.Set_has_Array_from t).
  - rewrite (SubscriptionFacts.unsubscribe_eq c _ ctx) by exact Hc.
    f_equal. unfold ImpactReact.upd_trackers. simpl.
    rewrite SubscriptionFacts.foldl_alter_idem
      by apply SubscriptionFacts.removeContext_idem.
    reflexivity.
Qed.

Lemma X2_witness :
  exists s',
    ImpactReact.unsubscribe 0 Instances.IR.doubled_read = (JS.Ok tt, s') /\
    MoreProps.IR.dependents 0 s' = [] /\
    ImpactReact.unsubscribe 0 s' = (JS.Ok tt, s').
Proof.
  destruct (X2_unsubscribe_removes_once 0 Instances.IR.doubled_read
              Instances.IR.doubled_context eq_refl) as (s' & H & Hd & H2).
  exists s'. split; [exact H|]. split; [|exact H2].
  rewrite (Hd 0). reflexivity.
Defined.

(** X3. Round trip: for a context that is not yet a dependent of the
    trackers it has read, disposing it and then calling the returned
    closure leaves every tracker with the dependents it had before. *)
Theorem X3_subscribe_unsubscribe_round_trip c s ctx :
  ImpactReact.contexts s !! c = Some ctx ->
  (forall t, JS.Set_has t (ImpactReact._getters ctx) = true ->
             c ∉ MoreProps.IR.dependents t s) ->
  exists s1 s2,
    ImpactReact.dispose c s = (JS.Ok c, s1) /\
    ImpactReact.unsubscribe c s1 = (JS.Ok tt, s2) /\
    forall t, MoreProps.IR.dependents t s2 = MoreProps.IR.dependents t s.
Proof.
  intros Hc Hfresh. do 2 eexists.
  split; [apply (SubscriptionFacts.dispose_eq _ _ _ Hc)|].
  split; [apply (SubscriptionFacts.unsubscribe_eq _ _ ctx); exact Hc|].
  intros t. rewrite SubscriptionFacts.dependents_unsubscribed.
  rewrite <- SubscriptionFacts.Set_has_Array_from.
  destruct (ImpactReact.trackers s !! t) as [tr|] eqn:Ht.
  - rewrite (SubscriptionFacts.dependents_subscribed c _ t _ tr) by exact Ht.
    rewrite <- SubscriptionFacts.Set_has_Array_from.
    destruct (JS.Set_has t (ImpactReact._getters ctx)) eqn:Hg; simpl; [|done].
    specialize (Hfresh t Hg).
    destruct (JS.Set_has c (ImpactReact.tracker_contexts tr)); simpl.
    + by apply SubscriptionFacts.filter_ne_id.
    + rewrite SubscriptionFacts.filter_ne_snoc.
      by apply SubscriptionFacts.filter_ne_id.
  - rewrite (SubscriptionFacts.dependents_missing (ImpactReact.addContext c))
      by exact Ht.
    unfold MoreProps.IR.dependents. rewrite Ht.
    by destruct (JS.Set_has _ _).
Qed.

Lemma X3_witness :
  exists s1 s2,
    ImpactReact.dispose 0 Instances.IR.doubled_computed = (JS.Ok 0, s1) /\
    ImpactReact.unsubscribe 0 s1 = (JS.Ok tt, s2) /\
    MoreProps.IR.dependents 0 s1 = [0] /\
    MoreProps.IR.dependents 0 s2 = [].
Proof.
  destruct (X3_subscribe_unsubscribe_round_trip 0 Instances.IR.doubled_computed
              Instances.IR.doubled_context eq_refl) as (s1 & s2 & H1 & H2 & Hd).
  - intros [|t] Ht; [vm_compute; apply not_elem_of_nil|discriminate Ht].
  - exists s1, s2. split; [exact H1|]. split; [exact H2|]. split.
    + pose proof H1 as H. vm_compute in H. injection H as <-. reflexivity.
    + rewrite (Hd 0). reflexivity.
Defined.

(** ** What a returning run leaves behind *)

Module LeavesFacts.
Import JS Facts MoreProps.

(** A run whose outcome is [Ok a] returned [a] in its final state. *)
Lemma run_returns {S A} (m : M S A) s a :
  (m s).1 = Ok a -> m s = (Ok a, (m s).2).
Proof. destruct (m s) as [r s']. simpl. by intros ->. Qed.

Section Leaves.
Context {S X : Type} (proj : S -> X).

Lemma leaves_ret {A} (a : A) x : leaves proj x (ret a) (fun _ => x).
Proof. intros s b s' Hs H. by injection H as <- <-. Qed.

Lemma leaves_throw {A} e x (Q : A -> X) : leaves proj x (throw e) Q.
Proof. intros s b s' Hs H. discriminate H. Qed.

Lemma leaves_out_of_fuel {A} x (Q : A -> X) : leaves proj x out_of_fuel Q.
Proof. intros s b s' Hs H. discriminate H. Qed.

Lemma leaves_gets {A} (f : S -> A) x : leaves proj x (gets f) (fun _ => x).
Proof. intros s b s' Hs H. by injection H as <- <-. Qed.

Lemma leaves_pure {A} (r : Res A) x : leaves proj x (fun s => (r, s)) (fun _ => x).
Proof. intros s b s' Hs H. by injection H as _ <-. Qed.

Lemma leaves_modify (f : S -> S) x y :
  (forall s, proj s = x -> proj (f s) = y) ->
  leaves proj x (modify f) (fun _ => y).
Proof. intros Hf s b s' Hs H. injection H as _ <-. by apply Hf. Qed.

Lemma leaves_bind {A B} (m : M S A) (k : A -> M S B) x Q1 Q :
  leaves proj x m Q1 -> (forall a, leaves proj (Q1 a) (k a) Q) ->
  leaves proj x (bind m k) Q.
Proof.
  intros Hm Hk s b s' Hs H. apply bind_Ok_inv in H as (a & s1 & H1 & H2).
  eapply Hk; [|exact H2]. by eapply Hm.
Qed.

Lemma leaves_bindc {A B} (m : M S A) (k : A -> M S B) x y Q :
  leaves proj x m (fun _ => y) -> (forall a, leaves proj y (k a) Q) ->
  leaves proj x (bind m k) Q.
Proof. intros Hm Hk. by eapply leaves_bind. Qed.

Lemma leaves_assoc {A B C} (m : M S A) (f : A -> M S B) (g : B -> M S C) x Q :
  leaves proj x (bind m (fun a => bind (f a) g)) Q ->
  leaves proj x (bind (bind m f) g) Q.
Proof. intros H s b s' Hs Hr. rewrite bind_assoc in Hr. by eapply H. Qed.

Lemma leaves_ret_l {A B} (a : A) (k : A -> M S B) x Q :
  leaves proj x (k a) Q -> leaves proj x (bind (ret a) k) Q.
Proof. intros H s b s' Hs Hr. by eapply H. Qed.

Lemma leaves_when b (m : M S unit) x :
  leaves proj x m (fun _ => x) -> leaves proj x (when b m) (fun _ => x).
Proof. destruct b; simpl; auto using leaves_ret. Qed.

Lemma leaves_forEach {A} (f : A -> M S unit) l x :
  (forall a, leaves proj x (f a) (fun _ => x)) ->
  leaves proj x (Array_forEach f l) (fun _ => x).
Proof.
  intros Hf. induction l as [|a l IH]; simpl.
  - apply leaves_ret.
  - eapply leaves_bindc; [apply Hf|intros _].
    eapply leaves_bindc; [apply IH|intros vs]. apply leaves_ret.
Qed.

(** The handler of [try]/[catch] starts wherever the body threw, so
    only the returning body is covered. *)
Lemma leaves_attempt {A} (m : M S A) x (Q : A -> X) :
  leaves proj x m Q ->
  forall s a s', proj s = x -> attempt m s = (Ok (inl a), s') -> proj s' = Q a.
Proof.
  intros Hm s a s' Hs H. unfold attempt in H.
  destruct (m s) as [[b|e|] s1] eqn:E; try done.
  injection H as <- <-. by eapply Hm.
Qed.

End Leaves.

End LeavesFacts.

(** ** The context stack across a returning call (impact-react) *)

Module StackFacts.
Import JS Props Facts ImpactReact ImpactReactProps ImpactReactFacts.
Import MoreProps LeavesFacts.

Lemma leaves_deref {X A} (proj : State -> X) (h : State -> list A) i x :
  leaves proj x (deref h i) (fun _ => x).
Proof.
  intros s a s' Hs H. unfold deref in H.
  destruct (h s !! i); [|done]. by injection H as _ <-.
Qed.

(** What a state update does to the stack. *)
Ltac stack_side :=
  let s := fresh "s" in
  let Hs := fresh "Hs" in
  intros s Hs; simpl; rewrite ?Hs, ?removelast_last; reflexivity.

Ltac bal_step :=
  lazymatch goal with
  | |- leaves _ _ (bind (bind _ _) _) _ => apply leaves_assoc
  | |- leaves _ _ (bind (ret _) _) _ => apply leaves_ret_l
  | |- leaves _ _ (bind _ _) _ => eapply leaves_bindc; [|intros ?]
  | |- leaves _ _ (ret _) _ => apply leaves_ret
  | |- leaves _ _ (throw _) _ => apply leaves_throw
  | |- leaves _ _ out_of_fuel _ => apply leaves_out_of_fuel
  | |- leaves _ _ (gets _) _ => apply leaves_gets
  | |- leaves _ _ (deref _ _) _ => apply leaves_deref
  | |- leaves _ _ (when _ _) _ => apply leaves_when
  | |- leaves _ _ (Array_forEach _ _) _ => apply leaves_forEach; intros ?
  | |- leaves _ _ (modify _) _ => apply leaves_modify; stack_side
  | |- leaves _ _ (match ?x with _ => _ end) _ => destruct x
  | |- leaves _ _ (fun s => (_, s)) _ => apply leaves_pure
  end.

Ltac bal := cbv zeta; repeat (first [progress unfold_engine | bal_step]; cbv zeta).

Section Balanced.
Variable rec : Call -> Eng value.
Hypothesis rec_ok : forall c st, leaves stack st (rec c) (fun _ => st).

Ltac go := bal; try apply rec_ok.

Lemma balanced_track t st : leaves stack st (track t) (fun _ => st).
Proof. go. Qed.

Lemma balanced_unsubscribe c st : leaves stack st (unsubscribe c) (fun _ => st).
Proof. go. Qed.



Lemma balanced_createPromise sg p st :
  leaves stack st (createPromise sg p) (fun _ => st).
Proof. unfold createPromise. go. Qed.

Lemma balanced_signal v st : leaves stack st (signal v) (fun _ => st).
Proof. unfold signal. go; apply balanced_createPromise. Qed.



Lemma balanced_derived cb st : leaves stack st (derived cb) (fun _ => st).
Proof. unfold derived. go. Qed.





End Balanced.


End StackFacts.

(** ** The context stack across a returning call (src/Signal.ts) *)

Module LegacyStackFacts.
Import JS Props Facts Legacy LegacyProps LegacyFacts.
Import MoreProps LeavesFacts.

Lemma legacy_leaves_deref {X A} (proj : State -> X) (h : State -> list A) i x :
  leaves proj x (deref h i) (fun _ => x).
Proof.
  intros s a s' Hs H. unfold deref in H.
  destruct (h s !! i); [|done]. by injection H as _ <-.
Qed.

Ltac legacy_stack_side :=
  let s := fresh "s" in
  let Hs := fresh "Hs" in
  intros s Hs; simpl; rewrite ?Hs, ?removelast_last; reflexivity.

Ltac legacy_bal_step :=
  lazymatch goal with
  | |- leaves _ _ (bind (bind _ _) _) _ => apply leaves_assoc
  | |- leaves _ _ (bind (ret _) _) _ => apply leaves_ret_l
  | |- leaves _ _ (bind _ _) _ => eapply leaves_bindc; [|intros ?]
  | |- leaves _ _ (ret _) _ => apply leaves_ret
  | |- leaves _ _ (throw _) _ => apply leaves_throw
  | |- leaves _ _ out_of_fuel _ => apply leaves_out_of_fuel
  | |- leaves _ _ (gets _) _ => apply leaves_gets
  | |- leaves _ _ (deref _ _) _ => apply legacy_leaves_deref
  | |- leaves _ _ (when _ _) _ => apply leaves_when
  | |- leaves _ _ (Array_forEach _ _) _ => apply leaves_forEach; intros ?
  | |- leaves _ _ (modify _) _ => apply leaves_modify; legacy_stack_side
  | |- leaves _ _ (match ?x with _ => _ end) _ => destruct x
  end.

Ltac legacy_bal :=
  cbv zeta;
  repeat (first [progress legacy_unfold_engine | legacy_bal_step]; cbv zeta).

Section Balanced.
Variable rec : Call -> Eng Answer.
Hypothesis rec_ok : forall c st, leaves stack st (rec c) (fun _ => st).

Ltac go := legacy_bal; try apply rec_ok.

Lemma legacy_balanced_track t st : leaves stack st (track t) (fun _ => st).
Proof. go. Qed.











End Balanced.


End LegacyStackFacts.

(** ** The context stack is restored by every call that returns *)





(** ** Reads while a component resolves a store (impact-react) *)

Module TrackFacts.
Import JS Props Facts ImpactReact ImpactReactProps ImpactReactFacts.
Import MoreProps.IR.

(** The head of both getters under an active context. *)
Lemma track_active t s c ctx :
  last (stack s) = Some c -> contexts s !! c = Some ctx ->
  track t s =
    (Ok tt,
     if resolving ctx s then s
     else
       (if onGetValue (hooks s)
        then upd_hook_calls (fun l => l ++ [HookGetValue c t])
        else fun s => s)
         (upd_contexts (alter (registerGetter t) c) s)).
Proof.
  intros Hlast Hc. unfold track, bind, current, gets. rewrite Hlast.
  rewrite (deref_Some _ _ _ _ Hc).
  unfold isResolvingContextFromComponent, resolving, bind, gets, ret.
  destruct (match type ctx with Component => activeStoreContainer s | _ => false end);
    [done|].
  unfold on_context, call_hook, modify, bind, gets, when. simpl.
  by destruct (onGetValue (hooks s)).
Qed.

End TrackFacts.

(** X6. A signal read under an active context: while a component
    context is on top and a store container is being resolved
    ([isResolvingContextFromComponent]), the read returns the value and
    changes nothing at all; under any other active context it registers
    the tracker with [registerGetter] and calls [onGetValue] if that hook
    is installed. *)
Theorem X6_store_resolution_reads_untracked s c ctx sg cell :
  last (ImpactReact.stack s) = Some c ->
  ImpactReact.contexts s !! c = Some ctx ->
  ImpactReact.signals s !! sg = Some cell ->
  exists s',
    ImpactReact.signal_get sg s = (JS.Ok (ImpactReact.sig_value cell), s') /\
    if MoreProps.IR.resolving ctx s then s' = s
    else
      ImpactReact.contexts s' !! c
        = Some (ImpactReact.registerGetter (ImpactReact.sig_tracker cell) ctx) /\
      ImpactReact.hook_calls s'
        = ImpactReact.hook_calls s ++
          (if ImpactReact.onGetValue (ImpactReact.hooks s)
           then [ImpactReact.HookGetValue c (ImpactReact.sig_tracker cell)]
           else []).
Proof.
  intros Hlast Hc Hsg. unfold ImpactReact.signal_get.
  rewrite (IRF.bind_deref _ _ _ _ _ Hsg).
  rewrite (Facts.bind_Ok _ _ _ _ _
             (TrackFacts.track_active (ImpactReact.sig_tracker cell) s c ctx Hlast Hc)).
  destruct (MoreProps.IR.resolving ctx s).
  - exists s. by rewrite (IRF.bind_deref _ _ _ _ _ Hsg).
  - eexists. split.
    + erewrite IRF.bind_deref; [reflexivity|].
      destruct (ImpactReact.onGetValue (ImpactReact.hooks s)); exact Hsg.
    + destruct (ImpactReact.onGetValue (ImpactReact.hooks s)); simpl;
        rewrite list_lookup_alter_eq, Hc, ?app_nil_r; done.
Qed.

Lemma X6_witness :
  ImpactReact.signal_get 0 MoreInstances.IR.resolving_component
  = (JS.Ok (JS.VNum 7), MoreInstances.IR.resolving_component).
Proof.
  destruct (X6_store_resolution_reads_untracked
              MoreInstances.IR.resolving_component
              0 (ImpactReact.mkContext ImpactReact.Component [] []
                   (ImpactReact.OnComponent 0) false)
              0 (ImpactReact.mkSignal (JS.VNum 7) None 0)
              eq_refl eq_refl eq_refl) as (s' & H & Hs).
  simpl in Hs. rewrite Hs in H. exact H.
Defined.

(** ** A write reaching components (impact-react) *)

Module ComponentFacts.
Import JS Props Facts ImpactReact ImpactReactProps ImpactReactFacts.
Import MoreProps.IR.

Lemma setState_calls_ext ctxs ctxs' cs v :
  (forall c, _onUpdate <$> ctxs' !! c = _onUpdate <$> ctxs !! c) ->
  setState_calls ctxs' cs v = setState_calls ctxs cs v.
Proof.
  intros H. revert v. induction cs as [|c cs IH]; intros v; simpl; [done|].
  specialize (H c). rewrite IH.
  destruct (ctxs' !! c) as [x'|], (ctxs !! c) as [x|]; simpl in H; try done.
  by injection H as ->.
Qed.

Lemma setState_calls_hooked t v s cs n :
  setState_calls (contexts (hooked t v s)) cs n = setState_calls (contexts s) cs n.
Proof.
  apply setState_calls_ext. intros c. unfold hooked.
  destruct (onSetValue (hooks s)); [|done].
  destruct (last (stack s)) as [c0|]; [|done]. simpl.
  rewrite list_lookup_alter. case_decide; [subst c0|done].
  by destruct (contexts s !! c).
Qed.

Lemma notified_eq s c host rest n :
  upd_trace (fun t => t ++ rest)
    (upd_version (fun v => n + v)
       (upd_trace (fun t => t ++ [EvSetState host (version s)])
          (upd_trace (fun t => t ++ [EvUpdate c (version s)])
             (upd_version S s))))
  = upd_trace
      (fun t => t ++ EvUpdate c (version s) :: EvSetState host (version s) :: rest)
      (upd_version (fun v => S n + v) s).
Proof.
  unfold upd_trace, upd_version. simpl. f_equal; [lia|].
  by rewrite <- !app_assoc.
Qed.

(** Notifying component contexts does not re-enter the engine. *)
Lemma notify_components rec cs s evs :
  setState_calls (contexts s) cs (version s) = Some evs ->
  Array_forEach (ObserverContext_notify rec) cs s
    = (Ok cs, upd_trace (fun t => t ++ evs)
                (upd_version (fun v => length cs + v) s)).
Proof.
  revert s evs. induction cs as [|c cs IH]; intros s evs H; simpl in H.
  - injection H as <-. simpl. unfold ret. f_equal.
    destruct s; unfold upd_trace, upd_version; simpl. by rewrite app_nil_r.
  - destruct (contexts s !! c) as [ctx|] eqn:Hc; [|done].
    destruct (_onUpdate ctx) as [| |host] eqn:Hu; try done.
    destruct (setState_calls (contexts s) cs (S (version s))) as [rest|] eqn:Hr;
      [|done].
    injection H as <-.
    cbn [Array_forEach]. unfold ObserverContext_notify.
    rewrite bind_assoc, (bind_deref _ _ _ _ _ Hc). rewrite Hu. unfold emit. mrun.
    erewrite bind_Ok; [|apply IH; simpl; exact Hr].
    unfold ret. f_equal. apply notified_eq.
Qed.

End ComponentFacts.

(** X7. A write of a new value that is not a promise to a signal whose
    dependents are all component contexts returns without running any
    callback of the engine: the value is stored, the tracker is notified
    once, and each dependent's [setState] is called exactly once, in
    subscription order, each with its own version number. *)
Theorem X7_write_updates_components rec sg v s cell tr evs :
  ImpactReact.signals s !! sg = Some cell ->
  JS.strict_eq (ImpactReact.sig_value cell) v = false ->
  JS.instanceof_Promise v = false ->
  ImpactReact.trackers s !! ImpactReact.sig_tracker cell = Some tr ->
  MoreProps.IR.setState_calls (ImpactReact.contexts s)
    (JS.Array_from (ImpactReact.tracker_contexts tr)) (ImpactReact.version s)
    = Some evs ->
  exists s',
    ImpactReact.signal_set rec sg v s = (JS.Ok tt, s') /\
    ImpactReact.signals s' !! sg = Some (ImpactReact.set_sig_value v cell) /\
    ImpactReact.version s'
      = length (JS.Array_from (ImpactReact.tracker_contexts tr))
        + ImpactReact.version s /\
    ImpactReact.trace s'
      = ImpactReact.trace s
        ++ ImpactReact.EvNotify (ImpactReact.sig_tracker cell) :: evs.
Proof.
  intros Hsg Hne Hnp Ht Hcalls.
  rewrite (IRF.signal_set_plain rec sg v s cell Hsg Hne Hnp).
  destruct (IRF.stored_facts sg v cell s Hsg) as (Hsg' & _ & Htr).
  set (s1 := IRP.stored sg v cell s) in *.
  assert (Ht1 : ImpactReact.trackers s1 !! ImpactReact.sig_tracker cell = Some tr).
  { unfold s1, IRP.stored. by rewrite IRF.hooked_trackers. }
  assert (Hv1 : ImpactReact.version s1 = ImpactReact.version s).
  { unfold s1, IRP.stored. by rewrite IRF.hooked_version. }
  unfold ImpactReact.SignalTracker_notify.
  rewrite Facts.bind_assoc, (IRF.bind_deref _ _ _ _ _ Ht1).
  unfold ImpactReact.emit. rewrite Facts.bind_assoc, Facts.bind_modify.
  cbv zeta.
  erewrite Facts.bind_Ok;
    [|apply ComponentFacts.notify_components; simpl; rewrite Hv1;
      unfold s1, IRP.stored; rewrite ComponentFacts.setState_calls_hooked;
      exact Hcalls].
  eexists. split; [reflexivity|]. simpl.
  rewrite Hsg', Hv1, Htr, <- app_assoc. done.
Qed.

Lemma X7_witness :
  exists s',
    ImpactReact.signal_set (ImpactReact.eval 0) 0 (JS.VNum 8)
      MoreInstances.IR.subscribed_component = (JS.Ok tt, s') /\
    ImpactReact.version s' = 1 /\
    ImpactReact.trace s'
      = [ImpactReact.EvNotify 0; ImpactReact.EvUpdate 0 0;
         ImpactReact.EvSetState 5 0].
Proof.
  destruct (X7_write_updates_components (ImpactReact.eval 0) 0 (JS.VNum 8)
              MoreInstances.IR.subscribed_component
              (ImpactReact.mkSignal (JS.VNum 7) None 0)
              (ImpactReact.mkTracker (ImpactReact.OfSignal 0) [Some 0])
              [ImpactReact.EvUpdate 0 0; ImpactReact.EvSetState 5 0]
              eq_refl eq_refl eq_refl eq_refl eq_refl)
    as (s' & H & _ & Hv & Ht).
  exists s'. split; [exact H|]. split; [rewrite Hv|rewrite Ht]; reflexivity.
Defined.

(** ** Relations between the start and the end of a run *)

Module RelatesFacts.
Import JS Facts MoreProps.

Section Relates.
Context {S : Type} (R : S -> S -> Prop).
Hypothesis R_refl : forall s, R s s.
Hypothesis R_trans : forall a b c, R a b -> R b c -> R a c.

Lemma relates_ret {A} (a : A) : relates R (ret a).
Proof. intros s. apply R_refl. Qed.

Lemma relates_throw {A} e : relates R (throw (A:=A) e).
Proof. intros s. apply R_refl. Qed.

Lemma relates_out_of_fuel {A} : relates R (out_of_fuel (A:=A)).
Proof. intros s. apply R_refl. Qed.

Lemma relates_gets {A} (f : S -> A) : relates R (gets f).
Proof. intros s. apply R_refl. Qed.

Lemma relates_pure {A} (r : Res A) : relates R (fun s => (r, s)).
Proof. intros s. apply R_refl. Qed.

Lemma relates_modify (f : S -> S) : (forall s, R s (f s)) -> relates R (modify f).
Proof. intros Hf s. apply Hf. Qed.

Lemma relates_bind {A B} (m : M S A) (k : A -> M S B) :
  relates R m -> (forall a, relates R (k a)) -> relates R (bind m k).
Proof.
  intros Hm Hk s. unfold bind. specialize (Hm s).
  destruct (m s) as [[a|e|] s']; simpl in *; auto.
  eapply R_trans; [exact Hm|apply Hk].
Qed.

Lemma relates_when b (m : M S unit) : relates R m -> relates R (when b m).
Proof. destruct b; simpl; auto using relates_ret. Qed.

Lemma relates_attempt {A} (m : M S A) : relates R m -> relates R (attempt m).
Proof.
  intros Hm s. unfold attempt. specialize (Hm s).
  by destruct (m s) as [[a|e|] s'].
Qed.

Lemma relates_try_catch {A} (m : M S A) h :
  relates R m -> (forall e, relates R (h e)) -> relates R (try_catch m h).
Proof.
  intros Hm Hh s. unfold try_catch. specialize (Hm s).
  destruct (m s) as [[a|e|] s']; simpl in *; auto.
  eapply R_trans; [exact Hm|apply Hh].
Qed.

Lemma relates_forEach {A} (f : A -> M S unit) l :
  (forall x, relates R (f x)) -> relates R (Array_forEach f l).
Proof.
  intros Hf. induction l as [|x l IH]; simpl.
  - apply relates_ret.
  - apply relates_bind; [apply Hf|intros _].
    apply relates_bind; [apply IH|intros vs]. apply relates_ret.
Qed.

Lemma relates_after {A} (m : M S A) s s1 :
  R s s1 -> relates R m -> R s (m s1).2.
Proof. intros H Hm. eapply R_trans; [exact H|apply Hm]. Qed.
End Relates.

End RelatesFacts.

(** ** Versions handed to [_onUpdate] (impact-react) *)

Module VersionFacts.
Import JS Props Facts ImpactReact ImpactReactProps ImpactReactFacts.
Import MoreProps MoreProps.IR RelatesFacts.

Lemma update_versions_app t1 t2 :
  update_versions (t1 ++ t2) = update_versions t1 ++ update_versions t2.
Proof. apply omap_app. Qed.

Lemma versions_in_step_refl s : versions_in_step s s.
Proof. exists []. simpl. by rewrite app_nil_r, Nat.add_0_r. Qed.

Lemma versions_in_step_trans a b c :
  versions_in_step a b -> versions_in_step b c -> versions_in_step a c.
Proof.
  intros (n1 & Ht1 & Hv1 & He1) (n2 & Ht2 & Hv2 & He2).
  exists (n1 ++ n2). rewrite Ht2, Ht1, <- app_assoc. split; [done|].
  rewrite update_versions_app, length_app, seq_app, <- Hv1, <- He1, <- Hv2.
  split; [done|]. lia.
Qed.

(** Updates that touch neither the trace nor the version. *)
Lemma versions_in_step_frame s s' :
  trace s' = trace s -> version s' = version s -> versions_in_step s s'.
Proof.
  intros Ht Hv. exists []. simpl. by rewrite app_nil_r, Nat.add_0_r.
Qed.

Lemma relates_deref {A} (R : State -> State -> Prop) (h : State -> list A) i :
  (forall s, R s s) -> relates R (deref h i).
Proof. intros Hr s. unfold deref. destruct (h s !! i); apply Hr. Qed.

Lemma versions_emit ev :
  match ev with EvUpdate _ _ => False | _ => True end ->
  relates versions_in_step (emit ev).
Proof.
  intros Hev s. exists [ev]. simpl. split; [done|].
  unfold update_versions. destruct ev; simpl; try done;
    by rewrite Nat.add_0_r.
Qed.

Ltac unfold_calls :=
  unfold current, new_ObserverContext, on_context, on_tracker,
    new_SignalTracker, subscribe, unsubscribe, dispose, call_hook,
    isResolvingContextFromComponent, track, enqueue, new_promise, react,
    settle, resolve.

Ltac ver_step :=
  lazymatch goal with
  | |- relates _ (bind _ _) =>
      apply (relates_bind _ versions_in_step_trans); [|intros ?]
  | |- relates _ (ret _) => apply (relates_ret _ versions_in_step_refl)
  | |- relates _ (throw _) => apply (relates_throw _ versions_in_step_refl)
  | |- relates _ out_of_fuel => apply (relates_out_of_fuel _ versions_in_step_refl)
  | |- relates _ (gets _) => apply (relates_gets _ versions_in_step_refl)
  | |- relates _ (deref _ _) => apply relates_deref, versions_in_step_refl
  | |- relates _ (when _ _) => apply (relates_when _ versions_in_step_refl)
  | |- relates _ (attempt _) => apply relates_attempt
  | |- relates _ (Array_forEach _ _) =>
      apply (relates_forEach _ versions_in_step_refl versions_in_step_trans);
      intros ?
  | |- relates _ (emit _) => apply versions_emit; exact I
  | |- relates _ (modify _) =>
      apply relates_modify; intros ?; apply versions_in_step_frame; reflexivity
  | |- relates _ (match ?x with _ => _ end) => destruct x
  | |- relates _ (fun s => (_, s)) => apply (relates_pure _ versions_in_step_refl)
  end.

Ltac ver := cbv zeta; repeat (first [ver_step | progress unfold_calls]; cbv zeta).

Section Versions.
Variable rec : Call -> Eng value.
Hypothesis rec_ok : forall c, relates versions_in_step (rec c).

Ltac go := ver; try apply rec_ok.

Lemma versions_unsubscribe c : relates versions_in_step (unsubscribe c).
Proof. go. Qed.

Lemma versions_ObserverContext_notify c :
  relates versions_in_step (ObserverContext_notify rec c).
Proof.
  intros s. unfold ObserverContext_notify.
  destruct (contexts s !! c) as [this|] eqn:Hc.
  - rewrite (bind_deref _ _ _ _ _ Hc). unfold emit at 1. mrun.
    apply (relates_after _ versions_in_step_trans).
    + exists [EvUpdate c (version s)]. simpl. split; [done|]. split; [done|]. lia.
    + go.
  - unfold bind, deref. rewrite Hc. apply versions_in_step_refl.
Qed.

Lemma versions_SignalTracker_notify t :
  relates versions_in_step (SignalTracker_notify rec t).
Proof.
  unfold SignalTracker_notify. go. apply versions_ObserverContext_notify.
Qed.

Lemma versions_createPromise sg p : relates versions_in_step (createPromise sg p).
Proof. unfold createPromise. go. Qed.

Lemma versions_on_fulfilled sg c v :
  relates versions_in_step (on_fulfilled rec sg c v).
Proof. unfold on_fulfilled. go. apply versions_SignalTracker_notify. Qed.

Lemma versions_on_rejected sg c v :
  relates versions_in_step (on_rejected rec sg c v).
Proof. unfold on_rejected. go. apply versions_SignalTracker_notify. Qed.

Lemma versions_signal v : relates versions_in_step (signal v).
Proof. unfold signal. go; apply versions_createPromise. Qed.

Lemma versions_signal_get sg : relates versions_in_step (signal_get sg).
Proof. unfold signal_get. go. Qed.

Lemma versions_signal_set sg v : relates versions_in_step (signal_set rec sg v).
Proof.
  unfold signal_set. go;
    first [apply versions_createPromise | apply versions_SignalTracker_notify].
Qed.

Lemma versions_derived_get d : relates versions_in_step (derived_get rec d).
Proof. unfold derived_get. go. Qed.

Lemma versions_updater e : relates versions_in_step (updater rec e).
Proof. unfold updater. go. Qed.

Lemma versions_effect cb : relates versions_in_step (effect rec cb).
Proof. unfold effect. go. apply versions_updater. Qed.

Lemma versions_exec p : relates versions_in_step (exec rec p).
Proof.
  induction p; simpl.
  - apply (relates_ret _ versions_in_step_refl).
  - apply (relates_throw _ versions_in_step_refl).
  - apply (relates_bind _ versions_in_step_trans); [apply versions_signal_get|auto].
  - apply (relates_bind _ versions_in_step_trans); [apply versions_signal_set|auto].
  - apply (relates_bind _ versions_in_step_trans); [apply versions_derived_get|auto].
  - apply (relates_bind _ versions_in_step_trans);
      [apply (relates_pure _ versions_in_step_refl)|auto].
Qed.

Lemma versions_step c : relates versions_in_step (step rec c).
Proof.
  destruct c; simpl.
  - apply (relates_bind _ versions_in_step_trans);
      [apply versions_SignalTracker_notify|intros].
    apply (relates_ret _ versions_in_step_refl).
  - go. apply versions_updater.
  - apply versions_exec.
Qed.

Lemma versions_run_task t : relates versions_in_step (run_task rec t).
Proof.
  destruct t as [[sg c w|p] [v|e]|sg c w [v|e]|p q|sg]; simpl; go;
    first [ apply versions_on_fulfilled | apply versions_on_rejected
          | apply versions_SignalTracker_notify ].
Qed.

Lemma versions_run_microtask : relates versions_in_step (run_microtask rec).
Proof. unfold run_microtask. go. apply versions_run_task. Qed.
End Versions.

Lemma versions_eval fuel c : relates versions_in_step (eval fuel c).
Proof.
  revert c. induction fuel as [|n IH]; intros c; simpl.
  - apply (relates_out_of_fuel _ versions_in_step_refl).
  - by apply versions_step.
Qed.

Lemma versions_perform fuel a : relates versions_in_step (perform fuel a).
Proof.
  pose proof (versions_eval fuel) as Hrec.
  destruct a; simpl; unfold observer; ver;
    first [ apply versions_signal | apply versions_effect, Hrec
          | apply versions_signal_get | apply versions_signal_set, Hrec
          | apply versions_derived_get, Hrec
          | apply versions_run_microtask, Hrec | idtac ].
  unfold derived. ver.
Qed.

Lemma versions_run fuel script s : versions_in_step s (run fuel script s).
Proof.
  revert s. induction script as [|a script IH]; intros s; simpl.
  - apply versions_in_step_refl.
  - eapply versions_in_step_trans; [apply versions_perform|apply IH].
Qed.

End VersionFacts.

(** X8. [ObserverContext.version++]: over any sequence of calls into the
    module (creating signals, deriveds, effects and component contexts,
    reads, writes, settlements, microtasks), whatever their outcome, every
    call of a context's [_onUpdate] is given a version number of its own:
    the numbers handed out between two states are exactly the versions
    from the first state's up to the second state's, in order.  Counted
    from a freshly loaded module they are 0, 1, 2, ... *)
Theorem X8_versions_are_consecutive fuel script :
  (forall s, MoreProps.IR.versions_in_step s (IRP.run fuel script s)) /\
  (forall h dev store,
     MoreProps.IR.update_versions
       (ImpactReact.trace (IRP.run fuel script (ImpactReact.initial h dev store)))
     = seq 0 (ImpactReact.version
                (IRP.run fuel script (ImpactReact.initial h dev store)))).
Proof.
  split; [apply VersionFacts.versions_run|]. intros h dev store.
  destruct (VersionFacts.versions_run fuel script
              (ImpactReact.initial h dev store)) as (new & Ht & Hv & He).
  rewrite Ht, He. exact Hv.
Qed.

(** ** Creating a signal (impact-react) *)

Module CreationFacts.
Import JS Props Facts ImpactReact ImpactReactProps ImpactReactFacts.
Import MoreProps.IR.

Lemma signal_eq v s :
  signal v s =
    (match v with
     | VPromise p _ =>
         w <- createPromise (length (signals s)) p ;;
         modify (upd_signals (alter (set_sig_value w) (length (signals s))))
     | _ => ret tt
     end ;; ret (length (signals s))) (allocated_signal v s).
Proof. unfold signal, new_SignalTracker. mrun. reflexivity. Qed.

Lemma lookup_snoc {A} (l : list A) x : (l ++ [x]) !! length l = Some x.
Proof. rewrite lookup_app_r by done. by rewrite Nat.sub_diag. Qed.

End CreationFacts.

(** X9. [signal(initialValue)] returns a new signal with a tracker of
    its own that has no dependents, and notifies nobody.  Given a promise
    it never stores the promise itself: the cell holds a fresh pending
    wrapper, a fresh abort controller that is not aborted is installed,
    and the handlers are attached to the promise (registered when it is
    unsettled, queued as a job when it is settled already).  Any other
    value is stored as it is, with no controller. *)
Theorem X9_signal_creation v s :
  IRP.allocated s v ->
  exists s',
    ImpactReact.signal v s = (JS.Ok (length (ImpactReact.signals s)), s') /\
    ImpactReact.trackers s' !! length (ImpactReact.trackers s)
      = Some (ImpactReact.mkTracker
                (ImpactReact.OfSignal (length (ImpactReact.signals s))) []) /\
    ImpactReact.trace s' = ImpactReact.trace s /\
    ImpactReact.version s' = ImpactReact.version s /\
    match v with
    | JS.VPromise p _ =>
        forall pst, ImpactReact.promises s !! p = Some pst ->
          ImpactReact.signals s' !! length (ImpactReact.signals s)
            = Some (ImpactReact.mkSignal
                      (JS.VPromise (length (ImpactReact.promises s)) JS.Pending)
                      (Some (length (ImpactReact.controllers s)))
                      (length (ImpactReact.trackers s))) /\
          ImpactReact.controllers s' !! length (ImpactReact.controllers s)
            = Some false /\
          ImpactReact.promises s' !! length (ImpactReact.promises s)
            = Some (ImpactReact.Unsettled []) /\
          match pst with
          | ImpactReact.Settled o =>
              ImpactReact.microtasks s'
              = ImpactReact.microtasks s ++
                [ImpactReact.TThen
                   (ImpactReact.Handlers (length (ImpactReact.signals s))
                      (length (ImpactReact.controllers s))
                      (length (ImpactReact.promises s))) o]
          | ImpactReact.Unsettled rs =>
              ImpactReact.microtasks s' = ImpactReact.microtasks s /\
              ImpactReact.promises s' !! p
              = Some (ImpactReact.Unsettled
                        (rs ++ [ImpactReact.Handlers
                                  (length (ImpactReact.signals s))
                                  (length (ImpactReact.controllers s))
                                  (length (ImpactReact.promises s))]))
          end
    | _ =>
        ImpactReact.signals s' !! length (ImpactReact.signals s)
          = Some (ImpactReact.mkSignal v None (length (ImpactReact.trackers s))) /\
        ImpactReact.controllers s' = ImpactReact.controllers s /\
        ImpactReact.promises s' = ImpactReact.promises s /\
        ImpactReact.microtasks s' = ImpactReact.microtasks s
    end.
Proof.
  intros Halloc. rewrite CreationFacts.signal_eq.
  assert (Hplain :
    exists s',
      (JS.bind (JS.ret tt) (fun _ => JS.ret (length (ImpactReact.signals s))))
        (MoreProps.IR.allocated_signal v s)
        = (JS.Ok (length (ImpactReact.signals s)), s') /\
      ImpactReact.trackers s' !! length (ImpactReact.trackers s)
        = Some (ImpactReact.mkTracker
                  (ImpactReact.OfSignal (length (ImpactReact.signals s))) []) /\
      ImpactReact.trace s' = ImpactReact.trace s /\
      ImpactReact.version s' = ImpactReact.version s /\
      ImpactReact.signals s' !! length (ImpactReact.signals s)
        = Some (ImpactReact.mkSignal v None (length (ImpactReact.trackers s))) /\
      ImpactReact.controllers s' = ImpactReact.controllers s /\
      ImpactReact.promises s' = ImpactReact.promises s /\
      ImpactReact.microtasks s' = ImpactReact.microtasks s).
  { eexists. split; [reflexivity|]. simpl.
    rewrite !CreationFacts.lookup_snoc. done. }
  destruct v as [| | | | | | | |p st]; try exact Hplain. clear Hplain.
  simpl in Halloc. apply lookup_lt_is_Some in Halloc as [pst Hp].
  set (s1 := MoreProps.IR.allocated_signal (JS.VPromise p st) s).
  assert (Hsg : ImpactReact.signals s1 !! length (ImpactReact.signals s)
                = Some (ImpactReact.mkSignal (JS.VPromise p st) None
                          (length (ImpactReact.trackers s)))).
  { simpl. apply CreationFacts.lookup_snoc. }
  assert (Hp1 : ImpactReact.promises s1 !! p = Some pst) by exact Hp.
  rewrite Facts.bind_assoc.
  rewrite (Facts.bind_Ok _ _ _ _ _ (IRF.createPromise_eq _ _ _ _ _ Hsg Hp1)).
  rewrite Facts.bind_modify. eexists. split; [reflexivity|].
  unfold IRP.created, IRP.installed. simpl.
  assert (p < length (ImpactReact.promises s)) by by eapply lookup_lt_Some.
  destruct pst as [rs|o]; simpl; rewrite ?CreationFacts.lookup_snoc.
  - split; [done|]. split; [done|]. split; [done|].
    intros pst Hpst. rewrite Hp in Hpst. injection Hpst as <-.
    rewrite !list_lookup_alter_eq.
    rewrite CreationFacts.lookup_snoc. simpl.
    split; [done|]. split; [done|].
    rewrite list_lookup_insert_ne by lia.
    rewrite CreationFacts.lookup_snoc. split; [done|]. split; [done|].
    rewrite list_lookup_insert_eq by (rewrite length_app; simpl; lia). done.
  - split; [done|]. split; [done|]. split; [done|].
    intros pst Hpst. rewrite Hp in Hpst. injection Hpst as <-.
    rewrite !list_lookup_alter_eq.
    rewrite CreationFacts.lookup_snoc. simpl. done.
Qed.

Lemma X9_witness :
  exists s',
    ImpactReact.signal (JS.VPromise 0 JS.NoStatus) Instances.IR.watched
      = (JS.Ok 1, s') /\
    ImpactReact.signals s' !! 1
      = Some (ImpactReact.mkSignal (JS.VPromise 2 JS.Pending) (Some 0) 1).
Proof.
  destruct (X9_signal_creation (JS.VPromise 0 JS.NoStatus) Instances.IR.watched)
    as (s' & H & _ & _ & _ & Hp).
  - vm_compute. lia.
  - destruct (Hp (ImpactReact.Unsettled []) eq_refl) as (Hcell & _).
    exists s'. split; [exact H|exact Hcell].
Defined.

(** ** Subscribing and unsubscribing a context (src/Signal.ts) *)

Module LegacySubscriptionFacts.
Import JS Props Facts Legacy LegacyProps LegacyFacts.
Import MoreProps.L.

Lemma legacy_forEach_on_tracker f ts s :
  Array_forEach (fun t => on_tracker t f) ts s
    = (Ok ts, upd_trackers (fun h => foldl (fun h t => alter f t h) h ts) s).
Proof.
  revert s. induction ts as [|t ts IH]; intros s; simpl.
  - by destruct s.
  - unfold on_tracker at 1. rewrite bind_modify, (bind_Ok _ _ _ _ _ (IH _)).
    reflexivity.
Qed.

Lemma legacy_addContext_idem c tr : addContext c (addContext c tr) = addContext c tr.
Proof. unfold addContext. simpl. by rewrite SubscriptionFacts.Set_add_idem. Qed.

Lemma legacy_removeContext_idem c tr :
  removeContext c (removeContext c tr) = removeContext c tr.
Proof. unfold removeContext. simpl. by rewrite SubscriptionFacts.Set_delete_idem. Qed.

Lemma legacy_subscribe_eq c u s ctx :
  contexts s !! c = Some ctx ->
  subscribe c u s
    = (Ok c,
       upd_trackers
         (fun h => foldl (fun h t => alter (addContext c) t h) h
                     (Array_from (_signals ctx)))
         (upd_contexts (alter (installed_onUpdate u) c) s)).
Proof.
  intros Hc. unfold subscribe. rewrite bind_modify.
  erewrite bind_Ok;
    [|apply legacy_deref_Some; simpl; rewrite list_lookup_alter_eq, Hc; reflexivity].
  simpl. by rewrite (bind_Ok _ _ _ _ _ (legacy_forEach_on_tracker _ _ _)).
Qed.

Lemma legacy_unsubscribe_eq c s ctx :
  contexts s !! c = Some ctx ->
  unsubscribe c s
    = (Ok tt,
       upd_trackers
         (fun h => foldl (fun h t => alter (removeContext c) t h) h
                     (Array_from (_signals ctx)))
         s).
Proof.
  intros Hc. unfold unsubscribe.
  rewrite (bind_Ok _ _ _ _ _ (legacy_deref_Some _ _ _ _ Hc)).
  by rewrite (bind_Ok _ _ _ _ _ (legacy_forEach_on_tracker _ _ _)).
Qed.

Lemma legacy_dependents_subscribed c ts t s tr :
  trackers s !! t = Some tr ->
  dependents t
    (upd_trackers (fun h => foldl (fun h t => alter (addContext c) t h) h ts) s)
  = if bool_decide (t ∈ ts) && negb (Set_has c (tracker_contexts tr))
    then dependents t s ++ [c] else dependents t s.
Proof.
  intros Ht. unfold dependents. simpl.
  rewrite SubscriptionFacts.foldl_alter_lookup by apply legacy_addContext_idem.
  rewrite Ht. destruct (decide (t ∈ ts)) as [Hin|Hin].
  - rewrite bool_decide_eq_true_2 by done. simpl.
    rewrite SubscriptionFacts.Array_from_add.
    by destruct (Set_has c (tracker_contexts tr)).
  - by rewrite bool_decide_eq_false_2.
Qed.

Lemma legacy_dependents_unsubscribed c ts t s :
  dependents t
    (upd_trackers (fun h => foldl (fun h t => alter (removeContext c) t h) h ts) s)
  = if bool_decide (t ∈ ts)
    then filter (fun c' => c' <> c) (dependents t s) else dependents t s.
Proof.
  unfold dependents. simpl.
  rewrite SubscriptionFacts.foldl_alter_lookup by apply legacy_removeContext_idem.
  destruct (decide (t ∈ ts)) as [Hin|Hin].
  - rewrite bool_decide_eq_true_2 by done.
    destruct (trackers s !! t) as [tr|]; simpl; [|done].
    apply SubscriptionFacts.Array_from_delete.
  - by rewrite bool_decide_eq_false_2.
Qed.

Lemma legacy_dependents_missing f ts t s :
  trackers s !! t = None ->
  dependents t (upd_trackers (fun h => foldl (fun h t => alter f t h) h ts) s)
    = [].
Proof.
  intros Ht. unfold dependents. simpl.
  assert (Hl : forall h : list SignalTracker,
             length (foldl (fun h t => alter f t h) h ts) = length h).
  { induction ts as [|x ts IH]; intros h; simpl; [done|].
    by rewrite IH, length_alter. }
  assert (H : foldl (fun h t => alter f t h) (trackers s) ts !! t = None).
  { apply lookup_ge_None. rewrite Hl. by apply lookup_ge_None. }
  by rewrite H.
Qed.

End LegacySubscriptionFacts.

(** X10. In src/Signal.ts [subscribe(onUpdate)] installs [onUpdate] in
    place of whatever callback the context had (a context has a single
    subscriber), and appends the context to the dependents of every
    tracker it has read, and of no other.  For a context that was not a
    dependent of those trackers, calling the returned closure gives every
    tracker its earlier dependents back; the callback stays installed. *)
Theorem X10_legacy_subscribe_round_trip c u s ctx :
  Legacy.contexts s !! c = Some ctx ->
  (forall t, JS.Set_has t (Legacy._signals ctx) = true ->
             c ∉ MoreProps.L.dependents t s) ->
  exists s1 s2,
    Legacy.subscribe c u s = (JS.Ok c, s1) /\
    Legacy.unsubscribe c s1 = (JS.Ok tt, s2) /\
    (forall t tr, Legacy.trackers s !! t = Some tr ->
       MoreProps.L.dependents t s1
       = if JS.Set_has t (Legacy._signals ctx)
         then MoreProps.L.dependents t s ++ [c]
         else MoreProps.L.dependents t s) /\
    (forall t, MoreProps.L.dependents t s2 = MoreProps.L.dependents t s) /\
    Legacy.contexts s1 !! c
      = Some (Legacy.mkContext (Legacy._signals ctx) (Some u)
                (Legacy._snapshot ctx) (Legacy.snapshot_signals ctx)) /\
    Legacy.contexts s2 = Legacy.contexts s1.
Proof.
  intros Hc Hfresh. do 2 eexists.
  split; [apply (LegacySubscriptionFacts.legacy_subscribe_eq _ _ _ _ Hc)|].
  split.
  { apply (LegacySubscriptionFacts.legacy_unsubscribe_eq _ _
             (MoreProps.L.installed_onUpdate u ctx)).
    simpl. by rewrite list_lookup_alter_eq, Hc. }
  simpl.
  assert (Hsub : forall t tr, Legacy.trackers s !! t = Some tr ->
    MoreProps.L.dependents t
      (Legacy.upd_trackers
         (fun h => foldl (fun h t => alter (Legacy.addContext c) t h) h
                     (JS.Array_from (Legacy._signals ctx)))
         (Legacy.upd_contexts
            (alter (MoreProps.L.installed_onUpdate u) c) s))
    = if JS.Set_has t (Legacy._signals ctx)
      then MoreProps.L.dependents t s ++ [c]
      else MoreProps.L.dependents t s).
  { intros t tr Ht.
    rewrite (LegacySubscriptionFacts.legacy_dependents_subscribed c _ t _ tr)
      by exact Ht.
    rewrite <- (SubscriptionFacts.Set_has_Array_from t).
    destruct (JS.Set_has t (Legacy._signals ctx)) eqn:Hg; simpl; [|done].
    specialize (Hfresh t Hg). unfold MoreProps.L.dependents in Hfresh.
    rewrite Ht in Hfresh.
    rewrite (SubscriptionFacts.Set_has_Array_from c).
    by rewrite bool_decide_eq_false_2. }
  split; [exact Hsub|]. split.
  - intros t. rewrite LegacySubscriptionFacts.legacy_dependents_unsubscribed.
    rewrite <- (SubscriptionFacts.Set_has_Array_from t).
    destruct (Legacy.trackers s !! t) as [tr|] eqn:Ht.
    + rewrite (Hsub t tr Ht).
      destruct (JS.Set_has t (Legacy._signals ctx)) eqn:Hg; [|done].
      rewrite SubscriptionFacts.filter_ne_snoc.
      by apply SubscriptionFacts.filter_ne_id, Hfresh.
    + rewrite (LegacySubscriptionFacts.legacy_dependents_missing
                 (Legacy.addContext c)) by exact Ht.
      unfold MoreProps.L.dependents. rewrite Ht.
      by destruct (JS.Set_has _ _).
  - split; [|done]. by rewrite list_lookup_alter_eq, Hc.
Qed.

Lemma X10_witness :
  exists s1 s2,
    Legacy.subscribe 0 (Legacy.OnHost 0) MoreInstances.L.reading = (JS.Ok 0, s1) /\
    Legacy.unsubscribe 0 s1 = (JS.Ok tt, s2) /\
    MoreProps.L.dependents 0 s1 = [0] /\
    MoreProps.L.dependents 0 s2 = [].
Proof.
  destruct (X10_legacy_subscribe_round_trip 0 (Legacy.OnHost 0)
              MoreInstances.L.reading MoreInstances.L.reading_context eq_refl)
    as (s1 & s2 & H1 & H2 & Hd1 & Hd2 & _).
  - intros [|t] Ht; [vm_compute; apply not_elem_of_nil|discriminate Ht].
  - exists s1, s2. split; [exact H1|]. split; [exact H2|]. split.
    + rewrite (Hd1 0 (Legacy.mkTracker (Legacy.OfSignal 0) []) eq_refl).
      reflexivity.
    + rewrite (Hd2 0). reflexivity.
Defined.

(** ** What a context's snapshot records (src/Signal.ts) *)

Module SnapshotFacts.
Import JS Props Facts Legacy LegacyProps LegacyFacts.
Import MoreProps.L.

Lemma getValue_eq t s v :
  tracked_value t s = Some v -> SignalTracker_getValue t s = (Ok v, s).
Proof.
  unfold tracked_value, SignalTracker_getValue. intros H.
  destruct (trackers s !! t) as [tr|] eqn:Ht; [|done].
  rewrite (bind_Ok _ _ _ _ _ (legacy_deref_Some _ _ _ _ Ht)).
  destruct (getValue tr) as [sg|d].
  - destruct (signals s !! sg) as [cell|] eqn:Hsg; [|done].
    injection H as <-.
    by rewrite (bind_Ok _ _ _ _ _ (legacy_deref_Some _ _ _ _ Hsg)).
  - destruct (derives s !! d) as [cell|] eqn:Hd; [|done].
    injection H as <-.
    by rewrite (bind_Ok _ _ _ _ _ (legacy_deref_Some _ _ _ _ Hd)).
Qed.

Lemma legacy_track_active c t v s :
  last (stack s) = Some c -> tracked_value t s = Some v ->
  track t s = (Ok tt, tracked c t v s).
Proof.
  intros Hlast Hv. unfold track, current. rewrite bind_gets, Hlast.
  unfold registerSignal. rewrite bind_assoc.
  rewrite (bind_Ok _ _ _ _ _ (getValue_eq _ _ _ Hv)).
  rewrite bind_modify. unfold debug, tracked. rewrite bind_gets.
  simpl. by destruct (development s).
Qed.

Lemma tracked_facts c t v s :
  stack (tracked c t v s) = stack s /\
  contexts (tracked c t v s) = alter (registered t v) c (contexts s) /\
  trackers (tracked c t v s) = trackers s /\
  signals (tracked c t v s) = signals s /\
  derives (tracked c t v s) = derives s /\
  trace (tracked c t v s) = trace s.
Proof. unfold tracked. by destruct (development s). Qed.

Lemma legacy_unsubscribe_contexts c cs :
  preserves (fun s => contexts s = cs) (unsubscribe c).
Proof. legacy_pres legacy_frame_side. Qed.

Lemma legacy_unsubscribe_derives c ds :
  preserves (fun s => derives s = ds) (unsubscribe c).
Proof. legacy_pres legacy_frame_side. Qed.

End SnapshotFacts.

(** X11. [registerSignal]: a signal read under an active context adds
    the tracker to the context's [_signals] and pushes the value read onto
    the [signals] array of its snapshot.  Reading the same signal again
    leaves [_signals] as it is, a set, but pushes the value once more: the
    snapshot records every read.  The reads themselves subscribe nothing
    and change neither the stack nor the snapshot's identity. *)
Theorem X11_legacy_snapshot_records_every_read c sg s ctx cell cs :
  last (Legacy.stack s) = Some c ->
  Legacy.contexts s !! c = Some ctx ->
  Legacy.signals s !! sg = Some cell ->
  Legacy.trackers s !! Legacy.sig_tracker cell
    = Some (Legacy.mkTracker (Legacy.OfSignal sg) cs) ->
  exists s1 s2,
    Legacy.signal_get sg s = (JS.Ok (Legacy.sig_value cell), s1) /\
    Legacy.signal_get sg s1 = (JS.Ok (Legacy.sig_value cell), s2) /\
    Legacy.contexts s1 !! c
      = Some (Legacy.mkContext
                (JS.Set_add (Legacy.sig_tracker cell) (Legacy._signals ctx))
                (Legacy._onUpdate ctx) (Legacy._snapshot ctx)
                (Legacy.snapshot_signals ctx ++ [Legacy.sig_value cell])) /\
    Legacy.contexts s2 !! c
      = Some (Legacy.mkContext
                (JS.Set_add (Legacy.sig_tracker cell) (Legacy._signals ctx))
                (Legacy._onUpdate ctx) (Legacy._snapshot ctx)
                (Legacy.snapshot_signals ctx
                   ++ [Legacy.sig_value cell; Legacy.sig_value cell])) /\
    Legacy.trackers s2 = Legacy.trackers s /\
    Legacy.stack s2 = Legacy.stack s.
Proof.
  intros Hlast Hc Hsg Ht.
  set (t := Legacy.sig_tracker cell). set (v := Legacy.sig_value cell).
  assert (Hget : forall s0,
    last (Legacy.stack s0) = Some c ->
    Legacy.signals s0 = Legacy.signals s ->
    Legacy.trackers s0 = Legacy.trackers s ->
    Legacy.signal_get sg s0 = (JS.Ok v, MoreProps.L.tracked c t v s0)).
  { intros s0 Hl0 Hs0 Ht0.
    assert (Hsg0 : Legacy.signals s0 !! sg = Some cell) by by rewrite Hs0.
    assert (Hv : MoreProps.L.tracked_value t s0 = Some v).
    { unfold MoreProps.L.tracked_value. rewrite Ht0. fold t in Ht.
      rewrite Ht. simpl. by rewrite Hsg0. }
    unfold Legacy.signal_get.
    rewrite (Facts.bind_Ok _ _ _ _ _ (LF.legacy_deref_Some _ _ _ _ Hsg0)).
    fold t. rewrite (Facts.bind_Ok _ _ _ _ _
                       (SnapshotFacts.legacy_track_active c t v s0 Hl0 Hv)).
    destruct (SnapshotFacts.tracked_facts c t v s0) as (_ & _ & _ & Hs1 & _).
    assert (Hsg1 : Legacy.signals (MoreProps.L.tracked c t v s0) !! sg = Some cell)
      by by rewrite Hs1.
    by rewrite (Facts.bind_Ok _ _ _ _ _ (LF.legacy_deref_Some _ _ _ _ Hsg1)). }
  destruct (SnapshotFacts.tracked_facts c t v s) as (Hst1 & Hc1 & Ht1 & Hs1 & _).
  destruct (SnapshotFacts.tracked_facts c t v (MoreProps.L.tracked c t v s))
    as (Hst2 & Hc2 & Ht2 & Hs2 & _).
  exists (MoreProps.L.tracked c t v s),
         (MoreProps.L.tracked c t v (MoreProps.L.tracked c t v s)).
  split; [by apply Hget|].
  split; [apply Hget; [by rewrite Hst1|done..]|].
  split; [rewrite Hc1, list_lookup_alter_eq, Hc; done|].
  split.
  - rewrite Hc2, Hc1, !list_lookup_alter_eq, Hc. simpl.
    unfold MoreProps.L.registered. simpl.
    by rewrite SubscriptionFacts.Set_add_idem, <- app_assoc.
  - split; [by rewrite Ht2|by rewrite Hst2].
Qed.

Lemma X11_witness :
  exists s1 s2,
    Legacy.signal_get 0 MoreInstances.L.opened = (JS.Ok (JS.VNum 7), s1) /\
    Legacy.signal_get 0 s1 = (JS.Ok (JS.VNum 7), s2) /\
    Legacy.contexts s2 !! 0
      = Some (Legacy.mkContext [Some 0] None 0 [JS.VNum 7; JS.VNum 7]).
Proof.
  destruct (X11_legacy_snapshot_records_every_read 0 0 MoreInstances.L.opened
              (Legacy.mkContext [] None 0 [])
              (Legacy.mkSignal (JS.VNum 7) 0 None) []
              eq_refl eq_refl eq_refl eq_refl)
    as (s1 & s2 & H1 & H2 & _ & Hc2 & _).
  exists s1, s2. split; [exact H1|]. split; [exact H2|exact Hc2].
Defined.

(** X12. The getter of a derived registers its tracker before it looks
    at [isDirty]: what [registerSignal] pushes onto the reading context's
    snapshot is the value the derived held before this read ([undefined]
    on the first read), also when the read goes on to recompute.  This is
    the state in which [cb] is started. *)
Theorem X12_legacy_derive_read_records_old_value c d s ctx cell cs r s1 :
  last (Legacy.stack s) = Some c ->
  Legacy.contexts s !! c = Some ctx ->
  Legacy.derives s !! d = Some cell ->
  Legacy.trackers s !! Legacy.der_tracker cell
    = Some (Legacy.mkTracker (Legacy.OfDerive d) cs) ->
  LP.derive_enter d s = (JS.Ok r, s1) ->
  Legacy.contexts s1 !! c
    = Some (Legacy.mkContext
              (JS.Set_add (Legacy.der_tracker cell) (Legacy._signals ctx))
              (Legacy._onUpdate ctx) (Legacy._snapshot ctx)
              (Legacy.snapshot_signals ctx ++ [Legacy.der_value cell])) /\
  Legacy.derives s1 !! d = Some cell.
Proof.
  intros Hlast Hc Hd Ht H. unfold LP.derive_enter in H.
  rewrite (Facts.bind_Ok _ _ _ _ _ (LF.legacy_deref_Some _ _ _ _ Hd)) in H.
  assert (Hv : MoreProps.L.tracked_value (Legacy.der_tracker cell) s
               = Some (Legacy.der_value cell)).
  { unfold MoreProps.L.tracked_value. rewrite Ht. simpl. by rewrite Hd. }
  rewrite (Facts.bind_Ok _ _ _ _ _
             (SnapshotFacts.legacy_track_active c _ _ s Hlast Hv)) in H.
  destruct (SnapshotFacts.tracked_facts c (Legacy.der_tracker cell)
              (Legacy.der_value cell) s) as (_ & Hc1 & _ & _ & Hd1 & _).
  set (s0 := MoreProps.L.tracked c (Legacy.der_tracker cell)
               (Legacy.der_value cell) s) in *.
  assert (Hd0 : Legacy.derives s0 !! d = Some cell) by by rewrite Hd1.
  assert (Hc0 : Legacy.contexts s0 !! c
                = Some (MoreProps.L.registered (Legacy.der_tracker cell)
                          (Legacy.der_value cell) ctx)).
  { by rewrite Hc1, list_lookup_alter_eq, Hc. }
  rewrite (Facts.bind_Ok _ _ _ _ _ (LF.legacy_deref_Some _ _ _ _ Hd0)) in H.
  destruct (Legacy.isDirty cell).
  - apply Facts.bind_Ok_inv in H as ([] & sd & Hu & H).
    assert (Hkeep : Legacy.contexts sd = Legacy.contexts s0 /\
                    Legacy.derives sd = Legacy.derives s0).
    { destruct (Legacy.disposer cell) as [old|].
      - split.
        + apply (LF.legacy_kept Legacy.contexts _ _ _ _
                   (SnapshotFacts.legacy_unsubscribe_contexts old) Hu).
        + apply (LF.legacy_kept Legacy.derives _ _ _ _
                   (SnapshotFacts.legacy_unsubscribe_derives old) Hu).
      - by injection Hu as <-. }
    destruct Hkeep as [Hcd Hdd].
    apply Facts.bind_Ok_inv in H as (c' & se & Hnew & H).
    rewrite LF.legacy_new_ObserverContext_eq in Hnew. injection Hnew as <- <-.
    unfold Legacy.emit in H. cbv [JS.bind JS.modify JS.ret] in H.
    injection H as <- <-. simpl. rewrite Hcd, Hdd. split; [|done].
    by apply lookup_app_l_Some.
  - injection H as <- <-. done.
Qed.

Lemma X12_witness :
  Legacy.contexts (LP.derive_enter 0 MoreInstances.L.doubled_observed).2 !! 0
  = Some (Legacy.mkContext [Some 1] None 0 [JS.VUndefined]).
Proof.
  apply (X12_legacy_derive_read_records_old_value 0 0
           MoreInstances.L.doubled_observed (Legacy.mkContext [] None 0 [])
           Instances.L.doubled_dirty []
           (Some (1, Instances.L.doubled_dirty))
           (LP.derive_enter 0 MoreInstances.L.doubled_observed).2
           eq_refl eq_refl eq_refl eq_refl).
  apply LeavesFacts.run_returns. reflexivity.
Defined.

(** ** The identity of a context's snapshot (src/Signal.ts) *)

Module SnapshotIdentityFacts.
Import JS Props Facts Legacy LegacyProps LegacyFacts.
Import MoreProps.L.

Lemma allocated_new_ObserverContext :
  preserves snapshots_allocated new_ObserverContext.
Proof.
  intros s H. rewrite legacy_new_ObserverContext_eq.
  unfold snapshots_allocated in *. simpl. apply Forall_app. split.
  - eapply Forall_impl; [exact H|]. simpl. intros; lia.
  - apply Forall_singleton. simpl. lia.
Qed.

(** The head of [ObserverContext.notify()]: the new snapshot object. *)
Lemma allocated_renewed c s :
  snapshots_allocated s ->
  snapshots_allocated
    (upd_contexts (alter (fun this =>
       mkContext (_signals this) (_onUpdate this) (snapshots s)
         (snapshot_signals this)) c) (upd_snapshots S s)).
Proof.
  intros H. unfold snapshots_allocated in *. simpl.
  apply Forall_alter.
  - eapply Forall_impl; [exact H|]. simpl. intros; lia.
  - intros x _ _. simpl. lia.
Qed.

Ltac alloc_side :=
  let s := fresh "s" in
  let H := fresh "H" in
  intros s H; unfold snapshots_allocated in *; simpl;
  first [ exact H
        | apply Forall_alter; [exact H|intros ? ? ?; simpl; assumption] ].

Ltac alloc :=
  cbv zeta;
  repeat (first [ apply allocated_new_ObserverContext
                | legacy_pres_step alloc_side
                | progress unfold emit, debug, current, SignalTracker_getValue,
                    registerSignal, on_tracker, new_SignalTracker, subscribe,
                    unsubscribe, dispose, track, useSyncExternalStore ];
          cbv zeta).

Section Allocated.
Variable rec : Call -> Eng Answer.
Hypothesis rec_ok : forall c, preserves snapshots_allocated (rec c).

Ltac go := alloc; try apply rec_ok.

Lemma allocated_call_listeners ls read prev :
  preserves snapshots_allocated read ->
  preserves snapshots_allocated (call_listeners rec ls read prev).
Proof. intros Hread. unfold call_listeners. go. exact Hread. Qed.

Lemma allocated_derive_onUpdate d :
  preserves snapshots_allocated (derive_onUpdate rec d).
Proof. unfold derive_onUpdate. go. apply allocated_call_listeners. go. Qed.

Lemma allocated_ObserverContext_notify c :
  preserves snapshots_allocated (ObserverContext_notify rec c).
Proof.
  intros s H. unfold ObserverContext_notify.
  rewrite bind_gets, bind_modify, bind_modify. cbv beta.
  assert (Hrest : preserves snapshots_allocated
    (emit (EvUpdate c) ;;
     this <- deref contexts c ;;
     match _onUpdate this with
     | Some (OnDerive d) => derive_onUpdate rec d
     | Some (OnHost store) => emit (EvHostUpdate store)
     | None => ret tt
     end)).
  { go. apply allocated_derive_onUpdate. }
  apply Hrest. by apply allocated_renewed.
Qed.

Lemma allocated_notify_from t i :
  preserves snapshots_allocated (notify_from rec t i).
Proof. unfold notify_from. go. apply allocated_ObserverContext_notify. Qed.

Lemma allocated_SignalTracker_notify t :
  preserves snapshots_allocated (SignalTracker_notify rec t).
Proof. unfold SignalTracker_notify. go. apply allocated_notify_from. Qed.

Lemma allocated_signal_get sg : preserves snapshots_allocated (signal_get sg).
Proof. unfold signal_get. go. Qed.

Lemma allocated_signal_set sg v :
  preserves snapshots_allocated (signal_set rec sg v).
Proof.
  unfold signal_set. go.
  - apply allocated_SignalTracker_notify.
  - apply allocated_call_listeners. go.
Qed.

Lemma allocated_derive_get d : preserves snapshots_allocated (derive_get rec d).
Proof. unfold derive_get. go. Qed.

Lemma allocated_observe_wrapper cb :
  preserves snapshots_allocated (observe_wrapper rec cb).
Proof.
  unfold observe_wrapper. go.
  apply preserves_try_catch; [go|intros e; go].
Qed.

Lemma allocated_exec p : preserves snapshots_allocated (exec rec p).
Proof.
  induction p; simpl.
  - apply preserves_ret.
  - apply preserves_throw.
  - apply preserves_bind; [apply allocated_signal_get|auto].
  - apply preserves_bind; [apply allocated_signal_set|auto].
  - apply preserves_bind; [apply allocated_derive_get|auto].
Qed.

Lemma allocated_step c : preserves snapshots_allocated (step rec c).
Proof.
  destruct c; simpl.
  - apply preserves_bind; [apply allocated_SignalTracker_notify|].
    intros; apply preserves_ret.
  - apply preserves_bind; [apply allocated_notify_from|].
    intros; apply preserves_ret.
  - apply preserves_bind; [apply allocated_exec|].
    intros; apply preserves_ret.
Qed.
End Allocated.

Lemma allocated_eval fuel c : preserves snapshots_allocated (eval fuel c).
Proof.
  revert c. induction fuel as [|n IH]; intros c; simpl.
  - apply preserves_out_of_fuel.
  - by apply allocated_step.
Qed.

Lemma allocated_creation :
  (forall v, preserves snapshots_allocated (signal v)) /\
  (forall cb, preserves snapshots_allocated (derive cb)) /\
  (forall sg l, preserves snapshots_allocated (signal_onChange sg l)) /\
  (forall d l, preserves snapshots_allocated (derive_onChange d l)) /\
  preserves snapshots_allocated observe /\
  (forall c, preserves snapshots_allocated (host_subscribe c)) /\
  (forall c, preserves snapshots_allocated (unsubscribe c)) /\
  preserves snapshots_allocated dispose.
Proof.
  repeat split; intros;
    unfold signal, derive, signal_onChange, derive_onChange, observe,
      host_subscribe; alloc.
Qed.

(** Notifying a context that the host subscribed. *)
Lemma notify_host rec c s ctx store :
  contexts s !! c = Some ctx -> _onUpdate ctx = Some (OnHost store) ->
  ObserverContext_notify rec c s
    = (Ok tt,
       upd_trace (fun t => t ++ [EvUpdate c; EvHostUpdate store])
         (upd_contexts (alter (fun this =>
            mkContext (_signals this) (_onUpdate this) (snapshots s)
              (snapshot_signals this)) c) (upd_snapshots S s))).
Proof.
  intros Hc Hu. unfold ObserverContext_notify, emit.
  rewrite bind_gets, !bind_modify.
  erewrite bind_Ok;
    [|apply legacy_deref_Some; simpl; rewrite list_lookup_alter_eq, Hc; reflexivity].
  simpl. rewrite Hu. unfold modify. f_equal.
  unfold upd_trace. simpl. by rewrite <- app_assoc.
Qed.

End SnapshotIdentityFacts.

(** X13. [ObserverContext.notify()] replaces the context's snapshot by
    a new object over the same [signals] array.  From a freshly loaded
    module on, every snapshot a context holds was made earlier (a property
    that every call into the module keeps), so the snapshot that a
    notified host context presents to [useSyncExternalStore] differs in
    identity from the one it presented before and from every snapshot of
    every other context; its contents are the same, and the host's
    [update] callback is called once. *)
Theorem X13_legacy_notify_renews_snapshot :
  (forall dev immer,
     MoreProps.L.snapshots_allocated (Legacy.initial dev immer)) /\
  (forall fuel,
     (forall c, Props.preserves MoreProps.L.snapshots_allocated (Legacy.eval fuel c)) /\
     (forall sg v, Props.preserves MoreProps.L.snapshots_allocated
                     (Legacy.signal_set (Legacy.eval fuel) sg v)) /\
     (forall d, Props.preserves MoreProps.L.snapshots_allocated
                  (Legacy.derive_get (Legacy.eval fuel) d)) /\
     (forall cb, Props.preserves MoreProps.L.snapshots_allocated
                   (Legacy.observe_wrapper (Legacy.eval fuel) cb))) /\
  (forall sg, Props.preserves MoreProps.L.snapshots_allocated (Legacy.signal_get sg)) /\
  (forall v, Props.preserves MoreProps.L.snapshots_allocated (Legacy.signal v)) /\
  (forall cb, Props.preserves MoreProps.L.snapshots_allocated (Legacy.derive cb)) /\
  Props.preserves MoreProps.L.snapshots_allocated Legacy.observe /\
  (forall c, Props.preserves MoreProps.L.snapshots_allocated (Legacy.host_subscribe c)) /\
  (forall rec c s ctx store,
     MoreProps.L.snapshots_allocated s ->
     Legacy.contexts s !! c = Some ctx ->
     Legacy._onUpdate ctx = Some (Legacy.OnHost store) ->
     exists s' ctx',
       Legacy.ObserverContext_notify rec c s = (JS.Ok tt, s') /\
       Legacy.contexts s' !! c = Some ctx' /\
       Legacy.snapshot_signals ctx' = Legacy.snapshot_signals ctx /\
       Legacy._signals ctx' = Legacy._signals ctx /\
       (forall c0 ctx0, Legacy.contexts s !! c0 = Some ctx0 ->
          Legacy._snapshot ctx' <> Legacy._snapshot ctx0) /\
       Legacy.trace s'
         = Legacy.trace s ++ [Legacy.EvUpdate c; Legacy.EvHostUpdate store]).
Proof.
  destruct SnapshotIdentityFacts.allocated_creation
    as (Hs & Hd & _ & _ & Ho & Hh & _ & _).
  split; [intros; apply Forall_nil_2|].
  split.
  { intros fuel.
    pose proof (SnapshotIdentityFacts.allocated_eval fuel) as Hrec.
    split; [exact Hrec|].
    split; [intros; by apply SnapshotIdentityFacts.allocated_signal_set|].
    split; [intros; by apply SnapshotIdentityFacts.allocated_derive_get|].
    intros; by apply SnapshotIdentityFacts.allocated_observe_wrapper. }
  split; [apply SnapshotIdentityFacts.allocated_signal_get|].
  split; [exact Hs|]. split; [exact Hd|]. split; [exact Ho|].
  split; [exact Hh|].
  intros rec c s ctx store HP Hc Hu.
  rewrite (SnapshotIdentityFacts.notify_host rec c s ctx store Hc Hu).
  do 2 eexists. split; [reflexivity|]. simpl.
  rewrite list_lookup_alter_eq, Hc. simpl.
  split; [reflexivity|]. simpl. split; [done|]. split; [done|].
  split; [|done].
  intros c0 ctx0 Hc0.
  unfold MoreProps.L.snapshots_allocated in HP.
  rewrite Forall_lookup in HP. specialize (HP c0 ctx0 Hc0). simpl in HP. lia.
Qed.

Lemma X13_witness :
  exists s' ctx',
    Legacy.ObserverContext_notify (Legacy.eval 0) 0 MoreInstances.L.hosted
      = (JS.Ok tt, s') /\
    Legacy.contexts s' !! 0 = Some ctx' /\
    Legacy._snapshot ctx' <> 0.
Proof.
  destruct (proj2 (proj2 (proj2 (proj2 (proj2 (proj2 (proj2
              X13_legacy_notify_renews_snapshot))))))
              (Legacy.eval 0) 0 MoreInstances.L.hosted
              (Legacy.mkContext [Some 0] (Some (Legacy.OnHost 0)) 0 [JS.VNum 7])
              0)
    as (s' & ctx' & H & Hc & _ & _ & Hne & _).
  - repeat constructor.
  - reflexivity.
  - reflexivity.
  - exists s', ctx'. split; [exact H|]. split; [exact Hc|].
    apply (Hne 0 (Legacy.mkContext [Some 0] (Some (Legacy.OnHost 0)) 0
                    [JS.VNum 7]) eq_refl).
Defined.

(** ** The record of the engine's calls only grows (src/Signal.ts) *)

Module LegacyTraceFacts.
Import JS Props Facts Legacy LegacyProps LegacyFacts.
Import MoreProps MoreProps.L RelatesFacts.

Lemma extended_refl s : extended s s.
Proof. unfold extended. reflexivity. Qed.

Lemma extended_trans a b c : extended a b -> extended b c -> extended a c.
Proof. unfold extended. intros H1 H2. by etrans. Qed.

Lemma extended_deref {A} (h : State -> list A) i : relates extended (deref h i).
Proof. intros s. unfold deref. destruct (h s !! i); apply extended_refl. Qed.

Ltac ext_side :=
  let s := fresh "s" in
  intros s; unfold extended; simpl;
  first [reflexivity | apply prefix_app_r; reflexivity].

Ltac ext_step :=
  lazymatch goal with
  | |- relates _ (bind _ _) =>
      apply (relates_bind _ extended_trans); [|intros ?]
  | |- relates _ (ret _) => apply (relates_ret _ extended_refl)
  | |- relates _ (throw _) => apply (relates_throw _ extended_refl)
  | |- relates _ out_of_fuel => apply (relates_out_of_fuel _ extended_refl)
  | |- relates _ (gets _) => apply (relates_gets _ extended_refl)
  | |- relates _ (deref _ _) => apply extended_deref
  | |- relates _ (when _ _) => apply (relates_when _ extended_refl)
  | |- relates _ (Array_forEach _ _) =>
      apply (relates_forEach _ extended_refl extended_trans); intros ?
  | |- relates _ (modify _) => apply relates_modify; ext_side
  | |- relates _ (match ?x with _ => _ end) => destruct x
  end.

Ltac ext :=
  cbv zeta;
  repeat (first [ext_step | progress legacy_unfold_engine]; cbv zeta).

Section Extended.
Variable rec : Call -> Eng Answer.
Hypothesis rec_ok : forall c, relates extended (rec c).

Ltac go := ext; try apply rec_ok.

Lemma extended_call_listeners ls read prev :
  relates extended read -> relates extended (call_listeners rec ls read prev).
Proof. intros Hread. unfold call_listeners. go. exact Hread. Qed.

Lemma extended_derive_onUpdate d : relates extended (derive_onUpdate rec d).
Proof. unfold derive_onUpdate. go. apply extended_call_listeners. go. Qed.

Lemma extended_ObserverContext_notify c :
  relates extended (ObserverContext_notify rec c).
Proof. unfold ObserverContext_notify. go. apply extended_derive_onUpdate. Qed.

Lemma extended_notify_from t i : relates extended (notify_from rec t i).
Proof. unfold notify_from. go. apply extended_ObserverContext_notify. Qed.

Lemma extended_SignalTracker_notify t :
  relates extended (SignalTracker_notify rec t).
Proof. unfold SignalTracker_notify. go. apply extended_notify_from. Qed.

Lemma extended_signal_get sg : relates extended (signal_get sg).
Proof. unfold signal_get. go. Qed.

Lemma extended_signal_set sg v : relates extended (signal_set rec sg v).
Proof.
  unfold signal_set. go.
  - apply extended_SignalTracker_notify.
  - apply extended_call_listeners. go.
Qed.

Lemma extended_derive_get d : relates extended (derive_get rec d).
Proof. unfold derive_get. go. Qed.

Lemma extended_exec p : relates extended (exec rec p).
Proof.
  induction p; simpl.
  - apply (relates_ret _ extended_refl).
  - apply (relates_throw _ extended_refl).
  - apply (relates_bind _ extended_trans); [apply extended_signal_get|auto].
  - apply (relates_bind _ extended_trans); [apply extended_signal_set|auto].
  - apply (relates_bind _ extended_trans); [apply extended_derive_get|auto].
Qed.

Lemma extended_step c : relates extended (step rec c).
Proof.
  destruct c; simpl.
  - apply (relates_bind _ extended_trans); [apply extended_SignalTracker_notify|].
    intros; apply (relates_ret _ extended_refl).
  - apply (relates_bind _ extended_trans); [apply extended_notify_from|].
    intros; apply (relates_ret _ extended_refl).
  - apply (relates_bind _ extended_trans); [apply extended_exec|].
    intros; apply (relates_ret _ extended_refl).
Qed.
End Extended.

Lemma extended_eval fuel c : relates extended (eval fuel c).
Proof.
  revert c. induction fuel as [|n IH]; intros c; simpl.
  - apply (relates_out_of_fuel _ extended_refl).
  - by apply extended_step.
Qed.

(** The setter from the store of a new value on. *)
Lemma signal_set_new rec sg v s cell :
  signals s !! sg = Some cell -> strict_eq (sig_value cell) v = false ->
  signal_set rec sg v s
    = (notify_from rec (sig_tracker cell) 0 ;;
       cell' <- deref signals sg ;;
       call_listeners rec (sig_listeners cell')
         (c <- deref signals sg ;; ret (sig_value c)) (sig_value cell))
        (upd_trace (fun t => t ++ [EvNotify (sig_tracker cell)])
           (written sg v cell s)).
Proof.
  intros Hsg Hne. unfold signal_set.
  rewrite (bind_Ok _ _ _ _ _ (legacy_deref_Some _ _ _ _ Hsg)), Hne.
  rewrite bind_gets. cbv zeta. rewrite bind_modify.
  unfold written, debug, SignalTracker_notify, emit.
  rewrite bind_assoc, bind_gets.
  unfold to_store.
  change (development (upd_signals ?f s)) with (development s).
  destruct (development s); cbn [when]; rewrite ?bind_modify, ?bind_ret_l;
    rewrite bind_assoc, bind_modify; reflexivity.
Qed.

End LegacyTraceFacts.

(** X14. A write to a signal of src/Signal.ts that is not strictly equal
    to the stored value stores [produce(value, newValue)] when the new
    value is a function and the new value itself otherwise, and then calls
    [signal.notify()] before anything else happens, without comparing what
    it stored with the old value: a function write notifies also when
    [produce] gave the old value back.  With no dependents and no listener
    the write returns at once and nothing else has been called. *)
Theorem X14_legacy_write_notifies_without_comparing fuel sg v s cell :
  Legacy.signals s !! sg = Some cell ->
  JS.strict_eq (Legacy.sig_value cell) v = false ->
  (Legacy.trace s ++ [Legacy.EvNotify (Legacy.sig_tracker cell)])
    `prefix_of`
    Legacy.trace (Legacy.signal_set (Legacy.eval fuel) sg v s).2 /\
  (forall o,
     Legacy.sig_listeners cell = None ->
     Legacy.trackers s !! Legacy.sig_tracker cell = Some (Legacy.mkTracker o []) ->
     exists s',
       Legacy.signal_set (Legacy.eval fuel) sg v s = (JS.Ok tt, s') /\
       Legacy.signals s' !! sg
         = Some (Legacy.set_sig_value
                   (MoreProps.L.to_store s (Legacy.sig_value cell) v) cell) /\
       Legacy.trace s'
         = Legacy.trace s ++ [Legacy.EvNotify (Legacy.sig_tracker cell)]).
Proof.
  intros Hsg Hne.
  rewrite (LegacyTraceFacts.signal_set_new _ sg v s cell Hsg Hne).
  assert (Htr : Legacy.trace (MoreProps.L.written sg v cell s) = Legacy.trace s).
  { unfold MoreProps.L.written. by destruct (Legacy.development s). }
  assert (Hsig : Legacy.signals (MoreProps.L.written sg v cell s) !! sg
                 = Some (Legacy.set_sig_value
                           (MoreProps.L.to_store s (Legacy.sig_value cell) v) cell)).
  { unfold MoreProps.L.written.
    destruct (Legacy.development s); simpl; by rewrite list_lookup_alter_eq, Hsg. }
  assert (Htk : Legacy.trackers (MoreProps.L.written sg v cell s)
                = Legacy.trackers s).
  { unfold MoreProps.L.written. by destruct (Legacy.development s). }
  split.
  - pose proof (LegacyTraceFacts.extended_eval fuel) as Hrec.
    match goal with |- _ `prefix_of` Legacy.trace (?m ?s0).2 =>
      assert (Hm : MoreProps.relates MoreProps.L.extended m) end.
    { apply (RelatesFacts.relates_bind _ LegacyTraceFacts.extended_trans);
        [by apply LegacyTraceFacts.extended_notify_from|intros ?].
      apply (RelatesFacts.relates_bind _ LegacyTraceFacts.extended_trans);
        [apply LegacyTraceFacts.extended_deref|intros ?].
      apply LegacyTraceFacts.extended_call_listeners; [exact Hrec|].
      apply (RelatesFacts.relates_bind _ LegacyTraceFacts.extended_trans);
        [apply LegacyTraceFacts.extended_deref|intros ?].
      apply (RelatesFacts.relates_ret _ LegacyTraceFacts.extended_refl). }
    match goal with |- _ `prefix_of` Legacy.trace (?m ?s0).2 =>
      specialize (Hm s0) end.
    unfold MoreProps.L.extended in Hm. simpl in Hm. by rewrite Htr in Hm.
  - intros o Hl Ht. unfold Legacy.notify_from.
    rewrite Facts.bind_assoc.
    erewrite Facts.bind_Ok;
      [|apply LF.legacy_deref_Some; simpl; rewrite Htk; exact Ht].
    simpl. rewrite Facts.bind_ret_l.
    erewrite Facts.bind_Ok; [|apply LF.legacy_deref_Some; simpl; exact Hsig].
    simpl. rewrite Hl. simpl. eexists. split; [reflexivity|]. simpl.
    by rewrite Hsig, Htr.
Qed.

Lemma X14_witness :
  exists s',
    Legacy.signal_set (Legacy.eval 0) 0 (JS.VFun 3) Instances.L.one_signal
      = (JS.Ok tt, s') /\
    Legacy.signals s' !! 0 = Some (Legacy.mkSignal (JS.VNum 7) 0 None) /\
    Legacy.trace s' = [Legacy.EvNotify 0].
Proof.
  destruct (X14_legacy_write_notifies_without_comparing 0 0 (JS.VFun 3)
              Instances.L.one_signal (Legacy.mkSignal (JS.VNum 7) 0 None)
              eq_refl eq_refl) as [_ H].
  destruct (H (Legacy.OfSignal 0) eq_refl eq_refl) as (s' & H1 & H2 & H3).
  exists s'. split; [exact H1|]. split; [exact H2|exact H3].
Defined.

(** ** Listeners of [onChange] (src/Signal.ts) *)

Module ListenerFacts.
Import JS Props Facts Legacy LegacyProps LegacyFacts LegacyListeners.
Import MoreProps.L.



End ListenerFacts.





(** ** The previous subscription is dropped before a re-run (impact-react) *)

Module ResubscriptionFacts.
Import JS Props Facts ImpactReact ImpactReactProps ImpactReactFacts.
Import MoreProps.IR.

(** After the closure returned by [subscribe] ran, the context is a
    dependent of none of the trackers it read. *)
Lemma unsubscribed c s ctx s' :
  contexts s !! c = Some ctx ->
  unsubscribe c s = (Ok tt, s') ->
  contexts s' = contexts s /\ stack s' = stack s /\ version s' = version s /\
  trace s' = trace s /\ effects s' = effects s /\ deriveds s' = deriveds s /\
  forall t, Set_has t (_getters ctx) = true -> c ∉ dependents t s'.
Proof.
  intros Hc H. rewrite (SubscriptionFacts.unsubscribe_eq c s ctx Hc) in H.
  injection H as <-. repeat (split; [done|]).
  intros t Ht. rewrite SubscriptionFacts.dependents_unsubscribed.
  rewrite <- (SubscriptionFacts.Set_has_Array_from t), Ht.
  intros Hin. apply list_elem_of_filter in Hin as [Hne _]. by apply Hne.
Qed.

End ResubscriptionFacts.

(** X17. Before the callback of a derived or of an effect is run again,
    the subscription of its previous run is removed.  For a derived: in
    the state in which a dirty read starts [cb], the context of the
    previous computation is a dependent of none of the trackers it had
    read.  For an effect: the [_onUpdate] of its context first calls
    [currentSubscriptionDisposer()], so the previous context is a dependent
    of nothing it had read when [updater()] starts, one version later. *)
Theorem X17_previous_subscription_dropped_before_rerun :
  (forall d s context cell s1 old octx,
     IRP.derived_enter d s = (JS.Ok (Some (context, cell)), s1) ->
     ImpactReact.disposer cell = Some old ->
     ImpactReact.contexts s1 !! old = Some octx ->
     forall t, JS.Set_has t (ImpactReact._getters octx) = true ->
               old ∉ MoreProps.IR.dependents t s1) /\
  (forall rec c s ctx e cell old octx,
     ImpactReact.contexts s !! c = Some ctx ->
     ImpactReact._onUpdate ctx = ImpactReact.OnEffect e ->
     ImpactReact.effects s !! e = Some cell ->
     ImpactReact.currentSubscriptionDisposer cell = Some old ->
     ImpactReact.contexts s !! old = Some octx ->
     exists s1,
       ImpactReact.ObserverContext_notify rec c s
         = JS.bind (rec (ImpactReact.CallUpdater e)) (fun _ => JS.ret tt) s1 /\
       ImpactReact.version s1 = S (ImpactReact.version s) /\
       ImpactReact.trace s1
         = ImpactReact.trace s ++ [ImpactReact.EvUpdate c (ImpactReact.version s)] /\
       forall t, JS.Set_has t (ImpactReact._getters octx) = true ->
                 old ∉ MoreProps.IR.dependents t s1).
Proof.
  split.
  - intros d s context cell s1 old octx H Hold Hoctx t Ht.
    unfold IRP.derived_enter in H.
    apply Facts.bind_Ok_inv in H as (c0 & sa & Ha & H).
    apply IRF.deref_inv in Ha as [-> _].
    apply Facts.bind_Ok_inv in H as ([] & sb & _ & H).
    apply Facts.bind_Ok_inv in H as (c1 & sc & Hc & H).
    apply IRF.deref_inv in Hc as [-> _].
    destruct (ImpactReact.isDirty c1); [|done].
    apply Facts.bind_Ok_inv in H as ([] & sd & Hu & H).
    apply Facts.bind_Ok_inv in H as (c & se & Hnew & H).
    rewrite IRF.new_ObserverContext_eq in Hnew. injection Hnew as <- <-.
    unfold ImpactReact.emit in H. cbv [JS.bind JS.modify JS.ret] in H.
    injection H as <- <- <-. rewrite Hold in Hu.
    destruct (ImpactReact.contexts sb !! old) as [ob|] eqn:Hob.
    + destruct (ResubscriptionFacts.unsubscribed old sb ob sd Hob Hu)
        as (Hcs & _ & _ & _ & _ & _ & Hdep).
      simpl in Hoctx. rewrite Hcs in Hoctx.
      assert (ob = octx) as ->.
      { apply lookup_app_Some in Hoctx as [Hl|[Hge Hl]]; [congruence|].
        apply lookup_lt_Some in Hob. lia. }
      apply (Hdep t Ht).
    + unfold ImpactReact.unsubscribe, JS.bind, ImpactReact.deref in Hu.
      by rewrite Hob in Hu.
  - intros rec c s ctx e cell old octx Hc Hu He Hold Hoctx.
    unfold ImpactReact.ObserverContext_notify.
    rewrite (IRF.bind_deref _ _ _ _ _ Hc). unfold ImpactReact.emit at 1.
    rewrite Facts.bind_gets, Facts.bind_modify, Facts.bind_modify. rewrite Hu.
    erewrite IRF.bind_deref; [|simpl; exact He]. rewrite Hold.
    set (sa := ImpactReact.upd_trace _ _).
    assert (Hoa : ImpactReact.contexts sa !! old = Some octx) by exact Hoctx.
    pose proof (SubscriptionFacts.unsubscribe_eq old sa octx Hoa) as Hun.
    destruct (ResubscriptionFacts.unsubscribed old sa octx _ Hoa Hun)
      as (_ & _ & Hv & Htr & _ & _ & Hdep).
    eexists. split.
    + rewrite (Facts.bind_Ok _ _ _ _ _ Hun). reflexivity.
    + split; [by rewrite Hv|]. split; [by rewrite Htr|]. exact Hdep.
Qed.

Lemma X17_witness :
  exists s1,
    ImpactReact.ObserverContext_notify (ImpactReact.eval 0) 0 Instances.IR.watched
      = JS.bind (ImpactReact.eval 0 (ImpactReact.CallUpdater 0))
          (fun _ => JS.ret tt) s1 /\
    ImpactReact.version s1 = 1 /\
    0 ∉ MoreProps.IR.dependents 0 s1.
Proof.
  destruct (proj2 X17_previous_subscription_dropped_before_rerun
              (ImpactReact.eval 0) 0 Instances.IR.watched
              (ImpactReact.mkContext ImpactReact.Effect [Some 0] []
                 (ImpactReact.OnEffect 0) false)
              0 (ImpactReact.mkEffect Instances.IR.watcher (Some 0)) 0
              (ImpactReact.mkContext ImpactReact.Effect [Some 0] []
                 (ImpactReact.OnEffect 0) false)
              eq_refl eq_refl eq_refl eq_refl eq_refl)
    as (s1 & H & Hv & _ & Hd).
  exists s1. split; [exact H|]. split; [exact Hv|]. apply (Hd 0). reflexivity.
Defined.

(** ** Objects last (impact-react) *)

Module LastingFacts.
Import JS Props Facts ImpactReact ImpactReactProps ImpactReactFacts.
Import MoreProps MoreProps.IR RelatesFacts.

Section Lasts.
Context {A : Type} (same : A -> A -> Prop).
Hypothesis same_refl : forall x, same x x.
Hypothesis same_trans : forall x y z, same x y -> same y z -> same x z.

Lemma lasts_refl h : lasts same h h.
Proof. intros i x Hx. eauto. Qed.

Lemma lasts_trans h1 h2 h3 :
  lasts same h1 h2 -> lasts same h2 h3 -> lasts same h1 h3.
Proof.
  intros H1 H2 i x Hx. destruct (H1 i x Hx) as (y & Hy & Hxy).
  destruct (H2 i y Hy) as (z & Hz & Hyz). eauto.
Qed.

Lemma lasts_app h l : lasts same h (h ++ l).
Proof. intros i x Hx. exists x. split; [by apply lookup_app_l_Some|done]. Qed.

Lemma lasts_alter f j h : (forall x, same x (f x)) -> lasts same h (alter f j h).
Proof.
  intros Hf i x Hx. rewrite list_lookup_alter. case_decide as Hd.
  - subst j. rewrite Hx. simpl. eauto.
  - eauto.
Qed.
End Lasts.

Lemma same_context_refl x : same_context x x.
Proof. done. Qed.
Lemma same_context_trans x y z :
  same_context x y -> same_context y z -> same_context x z.
Proof. unfold same_context. intros (?&?&?) (?&?&?). repeat split; congruence. Qed.
Lemma same_tracker_trans x y z :
  same_tracker x y -> same_tracker y z -> same_tracker x z.
Proof. unfold same_tracker. congruence. Qed.
Lemma same_signal_trans x y z :
  same_signal x y -> same_signal y z -> same_signal x z.
Proof. unfold same_signal. congruence. Qed.
Lemma same_derived_trans x y z :
  same_derived x y -> same_derived y z -> same_derived x z.
Proof. unfold same_derived. intros (?&?) (?&?). split; congruence. Qed.
Lemma same_effect_trans x y z :
  same_effect x y -> same_effect y z -> same_effect x z.
Proof. unfold same_effect. congruence. Qed.

Lemma lasting_refl s : lasting s s.
Proof. repeat split; by apply lasts_refl. Qed.

Lemma lasting_trans a b c : lasting a b -> lasting b c -> lasting a c.
Proof.
  intros (H1 & H2 & H3 & H4 & H5) (G1 & G2 & G3 & G4 & G5).
  repeat split.
  - eapply lasts_trans; [apply same_context_trans|exact H1|exact G1].
  - eapply lasts_trans; [apply same_tracker_trans|exact H2|exact G2].
  - eapply lasts_trans; [apply same_signal_trans|exact H3|exact G3].
  - eapply lasts_trans; [apply same_derived_trans|exact H4|exact G4].
  - eapply lasts_trans; [apply same_effect_trans|exact H5|exact G5].
Qed.

Lemma same_registerGetter T x : same_context x (registerGetter T x).
Proof. unfold registerGetter. by destruct (Set_has T (_setters x)). Qed.

Lemma same_registerSetter T x : same_context x (registerSetter T x).
Proof. done. Qed.

Lemma lasting_deref {A} (h : State -> list A) i : relates lasting (deref h i).
Proof. intros s. unfold deref. destruct (h s !! i); apply lasting_refl. Qed.

(** What a state update owes: every heap is left alone, extended at its
    end, or altered in place by something that keeps the identity. *)
Ltac last_heap :=
  first [ by apply lasts_refl
        | by apply lasts_app
        | apply lasts_alter; intros ?;
          first [ apply same_registerGetter | apply same_registerSetter | done ] ].

Ltac last_side :=
  let s := fresh "s" in
  intros s; unfold lasting; simpl; repeat split; last_heap.

Ltac last_step :=
  lazymatch goal with
  | |- relates _ (bind _ _) => apply (relates_bind _ lasting_trans); [|intros ?]
  | |- relates _ (ret _) => apply (relates_ret _ lasting_refl)
  | |- relates _ (throw _) => apply (relates_throw _ lasting_refl)
  | |- relates _ out_of_fuel => apply (relates_out_of_fuel _ lasting_refl)
  | |- relates _ (gets _) => apply (relates_gets _ lasting_refl)
  | |- relates _ (deref _ _) => apply lasting_deref
  | |- relates _ (when _ _) => apply (relates_when _ lasting_refl)
  | |- relates _ (attempt _) => apply relates_attempt
  | |- relates _ (Array_forEach _ _) =>
      apply (relates_forEach _ lasting_refl lasting_trans); intros ?
  | |- relates _ (modify _) => apply relates_modify; last_side
  | |- relates _ (match ?x with _ => _ end) => destruct x
  | |- relates _ (fun s => (_, s)) => apply (relates_pure _ lasting_refl)
  end.

Ltac lasting_go :=
  cbv zeta; repeat (first [last_step | progress unfold_engine]; cbv zeta).

Section Lasting.
Variable rec : Call -> Eng value.
Hypothesis rec_ok : forall c, relates lasting (rec c).

Ltac go := lasting_go; try apply rec_ok.

Lemma lasting_track t : relates lasting (track t).
Proof. go. Qed.

Lemma lasting_unsubscribe c : relates lasting (unsubscribe c).
Proof. go. Qed.

Lemma lasting_dispose c : relates lasting (dispose c).
Proof. go. Qed.

Lemma lasting_new_ObserverContext ty u : relates lasting (new_ObserverContext ty u).
Proof. go. Qed.


Lemma lasting_ObserverContext_notify c :
  relates lasting (ObserverContext_notify rec c).
Proof. unfold ObserverContext_notify. go. Qed.

Lemma lasting_SignalTracker_notify t :
  relates lasting (SignalTracker_notify rec t).
Proof. unfold SignalTracker_notify. go. apply lasting_ObserverContext_notify. Qed.

Lemma lasting_createPromise sg p : relates lasting (createPromise sg p).
Proof. unfold createPromise. go. Qed.

Lemma lasting_on_fulfilled sg c v : relates lasting (on_fulfilled rec sg c v).
Proof. unfold on_fulfilled. go. apply lasting_SignalTracker_notify. Qed.

Lemma lasting_on_rejected sg c v : relates lasting (on_rejected rec sg c v).
Proof. unfold on_rejected. go. apply lasting_SignalTracker_notify. Qed.

Lemma lasting_signal v : relates lasting (signal v).
Proof. unfold signal. go; apply lasting_createPromise. Qed.

Lemma lasting_signal_get sg : relates lasting (signal_get sg).
Proof. unfold signal_get. go. Qed.

Lemma lasting_signal_set sg v : relates lasting (signal_set rec sg v).
Proof.
  unfold signal_set. go;
    first [apply lasting_createPromise | apply lasting_SignalTracker_notify].
Qed.

Lemma lasting_derived cb : relates lasting (derived cb).
Proof. unfold derived. go. Qed.

Lemma lasting_derived_get d : relates lasting (derived_get rec d).
Proof. unfold derived_get. go. Qed.

Lemma lasting_updater e : relates lasting (updater rec e).
Proof. unfold updater. go. Qed.

Lemma lasting_effect cb : relates lasting (effect rec cb).
Proof. unfold effect. go. apply lasting_updater. Qed.

Lemma lasting_exec p : relates lasting (exec rec p).
Proof.
  induction p; simpl.
  - apply (relates_ret _ lasting_refl).
  - apply (relates_throw _ lasting_refl).
  - apply (relates_bind _ lasting_trans); [apply lasting_signal_get|auto].
  - apply (relates_bind _ lasting_trans); [apply lasting_signal_set|auto].
  - apply (relates_bind _ lasting_trans); [apply lasting_derived_get|auto].
  - apply (relates_bind _ lasting_trans); [apply (relates_pure _ lasting_refl)|auto].
Qed.

Lemma lasting_step c : relates lasting (step rec c).
Proof.
  destruct c; simpl.
  - apply (relates_bind _ lasting_trans); [apply lasting_SignalTracker_notify|intros].
    apply (relates_ret _ lasting_refl).
  - go. apply lasting_updater.
  - apply lasting_exec.
Qed.

Lemma lasting_run_task t : relates lasting (run_task rec t).
Proof.
  destruct t as [[sg c w|p] [v|e]|sg c w [v|e]|p q|sg]; simpl; go;
    first [ apply lasting_on_fulfilled | apply lasting_on_rejected
          | apply lasting_SignalTracker_notify ].
Qed.

Lemma lasting_run_microtask : relates lasting (run_microtask rec).
Proof. unfold run_microtask. go. apply lasting_run_task. Qed.
End Lasting.

Lemma lasting_eval fuel c : relates lasting (eval fuel c).
Proof.
  revert c. induction fuel as [|n IH]; intros c; simpl.
  - apply (relates_out_of_fuel _ lasting_refl).
  - by apply lasting_step.
Qed.

Lemma lasting_perform fuel a : relates lasting (perform fuel a).
Proof.
  pose proof (lasting_eval fuel) as Hrec.
  destruct a; simpl; unfold observer; lasting_go;
    first [ apply lasting_signal | apply lasting_effect, Hrec
          | apply lasting_signal_get | apply lasting_signal_set, Hrec
          | apply lasting_derived_get, Hrec
          | apply lasting_run_microtask, Hrec | idtac ].
  unfold derived. lasting_go.
Qed.

Lemma lasting_run fuel script s : lasting s (run fuel script s).
Proof.
  revert s. induction script as [|a script IH]; intros s; simpl.
  - apply lasting_refl.
  - eapply lasting_trans; [apply lasting_perform|apply IH].
Qed.

End LastingFacts.

(** X18. Over any sequence of calls into the module, whatever their
    outcome, every context, tracker, signal, derived and effect that
    exists stays and keeps what identifies it: a context its type, its
    [_onUpdate] and its captured stack, a tracker the variable its
    [getValue] reads, a signal and a derived their tracker, a derived and
    an effect their callback. *)
Theorem X18_objects_last fuel script s :
  MoreProps.IR.lasting s (IRP.run fuel script s).
Proof. apply LastingFacts.lasting_run. Qed.

(** ** Creating an effect (impact-react) *)

Module EffectFacts.
Import JS Props Facts ImpactReact ImpactReactProps ImpactReactFacts.
Import MoreProps MoreProps.IR.

Lemma subscribed_member c ts t s tr :
  trackers s !! t = Some tr -> t ∈ ts ->
  c ∈ dependents t
        (upd_trackers (fun h => foldl (fun h t => alter (addContext c) t h) h ts) s).
Proof.
  intros Ht Hin.
  rewrite (SubscriptionFacts.dependents_subscribed c ts t s tr Ht).
  rewrite bool_decide_eq_true_2 by done. simpl.
  destruct (Set_has c (tracker_contexts tr)) eqn:E; simpl.
  - unfold dependents. rewrite Ht. apply Array_from_elem. by apply Set_has_true.
  - apply elem_of_app. right. by apply list_elem_of_singleton.
Qed.



End EffectFacts.



(** ** Production builds are silent *)

Module ProductionFacts.
Import JS Props Facts ImpactReact ImpactReactProps ImpactReactFacts.
Import MoreProps.IR.

Ltac prod_side := intros ? [? ?]; split; simpl; assumption.

Section Production.
Variable k : list value.
Variable rec : Call -> Eng value.
Hypothesis rec_ok : forall c, preserves (production k) (rec c).

Ltac go := pres prod_side; try apply rec_ok.

Lemma production_ObserverContext_notify c :
  preserves (production k) (ObserverContext_notify rec c).
Proof. unfold ObserverContext_notify. go. Qed.

Lemma production_SignalTracker_notify t :
  preserves (production k) (SignalTracker_notify rec t).
Proof.
  unfold SignalTracker_notify. go. apply production_ObserverContext_notify.
Qed.

Lemma production_createPromise sg p : preserves (production k) (createPromise sg p).
Proof. unfold createPromise. go. Qed.

Lemma production_signal_get sg : preserves (production k) (signal_get sg).
Proof. unfold signal_get. go. Qed.

(** The warning of a write that is short-circuited. *)
Lemma production_warning v :
  preserves (production k)
    (dev <- gets development ;;
     when (dev && is_object v) (modify (upd_console (fun l => l ++ [v])))).
Proof.
  intros s H. rewrite bind_gets. destruct H as [Hd Hk]. rewrite Hd. simpl.
  by split.
Qed.

Lemma production_signal_set sg v : preserves (production k) (signal_set rec sg v).
Proof.
  unfold signal_set. apply preserves_bind; [apply preserves_deref|intros cell].
  destruct (strict_eq (sig_value cell) v); [apply production_warning|].
  go; first [apply production_createPromise | apply production_SignalTracker_notify].
Qed.

Lemma production_derived_get d : preserves (production k) (derived_get rec d).
Proof. unfold derived_get. go. Qed.

Lemma production_updater e : preserves (production k) (updater rec e).
Proof. unfold updater. go. Qed.

Lemma production_effect cb : preserves (production k) (effect rec cb).
Proof. unfold effect. go. apply production_updater. Qed.

Lemma production_on_fulfilled sg c v :
  preserves (production k) (on_fulfilled rec sg c v).
Proof. unfold on_fulfilled. go. apply production_SignalTracker_notify. Qed.

Lemma production_on_rejected sg c v :
  preserves (production k) (on_rejected rec sg c v).
Proof. unfold on_rejected. go. apply production_SignalTracker_notify. Qed.

Lemma production_exec p : preserves (production k) (exec rec p).
Proof.
  induction p; simpl.
  - apply preserves_ret.
  - apply preserves_throw.
  - apply preserves_bind; [apply production_signal_get|auto].
  - apply preserves_bind; [apply production_signal_set|auto].
  - apply preserves_bind; [apply production_derived_get|auto].
  - apply preserves_bind; [apply preserves_pure|auto].
Qed.

Lemma production_step c : preserves (production k) (step rec c).
Proof.
  destruct c; simpl.
  - apply preserves_bind; [apply production_SignalTracker_notify|].
    intros; apply preserves_ret.
  - go. apply production_updater.
  - apply production_exec.
Qed.

Lemma production_run_task t : preserves (production k) (run_task rec t).
Proof.
  destruct t as [[sg c w|p] [v|e]|sg c w [v|e]|p q|sg]; simpl; go;
    first [ apply production_on_fulfilled | apply production_on_rejected
          | apply production_SignalTracker_notify ].
Qed.

Lemma production_run_microtask : preserves (production k) (run_microtask rec).
Proof. unfold run_microtask. go. apply production_run_task. Qed.
End Production.

Lemma production_eval k fuel c : preserves (production k) (eval fuel c).
Proof.
  revert c. induction fuel as [|n IH]; intros c; simpl.
  - apply preserves_out_of_fuel.
  - by apply production_step.
Qed.

Lemma production_perform k fuel a : preserves (production k) (perform fuel a).
Proof.
  pose proof (production_eval k fuel) as Hrec.
  destruct a; simpl; unfold observer, signal, derived; pres prod_side;
    first [ apply production_createPromise | apply production_effect, Hrec
          | apply production_signal_get | apply production_signal_set, Hrec
          | apply production_derived_get, Hrec
          | apply production_run_microtask, Hrec | idtac ].
Qed.

Lemma production_run k fuel script s :
  production k s -> production k (run fuel script s).
Proof.
  revert s. induction script as [|a script IH]; intros s H; simpl; [done|].
  apply IH. by apply production_perform.
Qed.

End ProductionFacts.

Module LegacyProductionFacts.
Import JS Props Facts Legacy LegacyProps LegacyFacts.
Import MoreProps.L.

Ltac legacy_prod_side := intros ? (? & ? & ?); repeat split; simpl; assumption.

(** No call into [./debugger]. *)
Lemma production_debug k d e : preserves (production k d) (debug e).
Proof.
  intros s H. unfold debug. rewrite bind_gets. destruct H as (Hd & Hk & He).
  rewrite Hd. simpl. by repeat split.
Qed.

Ltac legacy_prod :=
  cbv zeta;
  repeat (first [ apply production_debug
                | legacy_pres_step legacy_prod_side
                | progress unfold emit, current, new_ObserverContext,
                    SignalTracker_getValue, registerSignal, on_tracker,
                    new_SignalTracker, subscribe, unsubscribe, dispose, track,
                    useSyncExternalStore ];
          cbv zeta).

Section Production.
Variable k : list value.
Variable d : list DebugEntry.
Variable rec : Call -> Eng Answer.
Hypothesis rec_ok : forall c, preserves (production k d) (rec c).

Ltac go := legacy_prod; try apply rec_ok.

Lemma legacy_production_call_listeners ls read prev :
  preserves (production k d) read ->
  preserves (production k d) (call_listeners rec ls read prev).
Proof. intros Hread. unfold call_listeners. go. exact Hread. Qed.

Lemma legacy_production_derive_onUpdate x :
  preserves (production k d) (derive_onUpdate rec x).
Proof. unfold derive_onUpdate. go. apply legacy_production_call_listeners. go. Qed.

Lemma legacy_production_ObserverContext_notify c :
  preserves (production k d) (ObserverContext_notify rec c).
Proof. unfold ObserverContext_notify. go. apply legacy_production_derive_onUpdate. Qed.

Lemma legacy_production_notify_from t i :
  preserves (production k d) (notify_from rec t i).
Proof. unfold notify_from. go. apply legacy_production_ObserverContext_notify. Qed.

Lemma legacy_production_SignalTracker_notify t :
  preserves (production k d) (SignalTracker_notify rec t).
Proof. unfold SignalTracker_notify. go. apply legacy_production_notify_from. Qed.

Lemma legacy_production_signal_get sg : preserves (production k d) (signal_get sg).
Proof. unfold signal_get. go. Qed.

Lemma legacy_production_warning v :
  preserves (production k d)
    (dev <- gets development ;;
     when (dev && is_object v) (modify (upd_console (fun l => l ++ [v])))).
Proof.
  intros s H. rewrite bind_gets. destruct H as (Hd & Hk & He). rewrite Hd.
  simpl. by repeat split.
Qed.

Lemma legacy_production_signal_set sg v :
  preserves (production k d) (signal_set rec sg v).
Proof.
  unfold signal_set.
  apply preserves_bind; [apply legacy_preserves_deref|intros cell].
  destruct (strict_eq (sig_value cell) v); [apply legacy_production_warning|].
  go.
  - apply legacy_production_SignalTracker_notify.
  - apply legacy_production_call_listeners. go.
Qed.

Lemma legacy_production_derive_get x : preserves (production k d) (derive_get rec x).
Proof. unfold derive_get. go. Qed.

Lemma legacy_production_observe_wrapper cb :
  preserves (production k d) (observe_wrapper rec cb).
Proof.
  unfold observe_wrapper. go.
  apply preserves_try_catch; [go|intros e; go].
Qed.

Lemma legacy_production_exec p : preserves (production k d) (exec rec p).
Proof.
  induction p; simpl.
  - apply preserves_ret.
  - apply preserves_throw.
  - apply preserves_bind; [apply legacy_production_signal_get|auto].
  - apply preserves_bind; [apply legacy_production_signal_set|auto].
  - apply preserves_bind; [apply legacy_production_derive_get|auto].
Qed.

Lemma legacy_production_step c : preserves (production k d) (step rec c).
Proof.
  destruct c; simpl.
  - apply preserves_bind; [apply legacy_production_SignalTracker_notify|].
    intros; apply preserves_ret.
  - apply preserves_bind; [apply legacy_production_notify_from|].
    intros; apply preserves_ret.
  - apply preserves_bind; [apply legacy_production_exec|].
    intros; apply preserves_ret.
Qed.
End Production.

Lemma legacy_production_eval k d fuel c : preserves (production k d) (eval fuel c).
Proof.
  revert c. induction fuel as [|n IH]; intros c; simpl.
  - apply preserves_out_of_fuel.
  - by apply legacy_production_step.
Qed.

End LegacyProductionFacts.

(** X20. Outside development mode the library is silent.  In
    impact-react, over any sequence of calls into a module whose
    [NODE_ENV] is not "development", nothing is written to the console.
    In src/Signal.ts, a read or write of a signal, a read of a derived, an
    observed component and every callback the engine runs write nothing to
    the console and make no call of the debugger, whatever their
    outcome. *)
Theorem X20_production_is_silent :
  (forall fuel script s,
     ImpactReact.development s = false ->
     ImpactReact.console (IRP.run fuel script s) = ImpactReact.console s) /\
  (forall fuel s,
     Legacy.development s = false ->
     (forall c,
        Legacy.console (Legacy.eval fuel c s).2 = Legacy.console s /\
        Legacy.debug_entries (Legacy.eval fuel c s).2 = Legacy.debug_entries s) /\
     (forall sg,
        Legacy.console (Legacy.signal_get sg s).2 = Legacy.console s /\
        Legacy.debug_entries (Legacy.signal_get sg s).2 = Legacy.debug_entries s) /\
     (forall sg v,
        Legacy.console (Legacy.signal_set (Legacy.eval fuel) sg v s).2
          = Legacy.console s /\
        Legacy.debug_entries (Legacy.signal_set (Legacy.eval fuel) sg v s).2
          = Legacy.debug_entries s) /\
     (forall d,
        Legacy.console (Legacy.derive_get (Legacy.eval fuel) d s).2
          = Legacy.console s /\
        Legacy.debug_entries (Legacy.derive_get (Legacy.eval fuel) d s).2
          = Legacy.debug_entries s) /\
     (forall cb,
        Legacy.console (Legacy.observe_wrapper (Legacy.eval fuel) cb s).2
          = Legacy.console s /\
        Legacy.debug_entries (Legacy.observe_wrapper (Legacy.eval fuel) cb s).2
          = Legacy.debug_entries s)).
Proof.
  split.
  - intros fuel script s Hd.
    by destruct (ProductionFacts.production_run (ImpactReact.console s) fuel
                   script s (conj Hd eq_refl)) as [_ H].
  - intros fuel s Hd.
    assert (HP : MoreProps.L.production (Legacy.console s)
                   (Legacy.debug_entries s) s) by done.
    pose proof (LegacyProductionFacts.legacy_production_eval
                  (Legacy.console s) (Legacy.debug_entries s) fuel) as Hrec.
    repeat split.
    + by destruct (Hrec c s HP) as (_ & H & _).
    + by destruct (Hrec c s HP) as (_ & _ & H).
    + by destruct (LegacyProductionFacts.legacy_production_signal_get
                     _ _ sg s HP) as (_ & H & _).
    + by destruct (LegacyProductionFacts.legacy_production_signal_get
                     _ _ sg s HP) as (_ & _ & H).
    + by destruct (LegacyProductionFacts.legacy_production_signal_set
                     _ _ _ Hrec sg v s HP) as (_ & H & _).
    + by destruct (LegacyProductionFacts.legacy_production_signal_set
                     _ _ _ Hrec sg v s HP) as (_ & _ & H).
    + by destruct (LegacyProductionFacts.legacy_production_derive_get
                     _ _ _ Hrec d s HP) as (_ & H & _).
    + by destruct (LegacyProductionFacts.legacy_production_derive_get
                     _ _ _ Hrec d s HP) as (_ & _ & H).
    + by destruct (LegacyProductionFacts.legacy_production_observe_wrapper
                     _ _ _ Hrec cb s HP) as (_ & H & _).
    + by destruct (LegacyProductionFacts.legacy_production_observe_wrapper
                     _ _ _ Hrec cb s HP) as (_ & _ & H).
Qed.

Lemma X20_witness : ImpactReact.console Instances.IR.hook_off = [].
Proof.
  apply (proj1 X20_production_is_silent 5 Instances.IR.read_then_write_script
           (ImpactReact.initial Instances.IR.no_hooks false false) eq_refl).
Defined.

(** ** A derived caches what it computed (impact-react) *)

Module CachingFacts.
Import JS Props Facts ImpactReact ImpactReactProps ImpactReactFacts.
Import MoreProps MoreProps.IR.




End CachingFacts.




